(** * The ivshmem server (contrib/ivshmem-server/ivshmem-server.c)

    A shallow embedding of the server's connection handling, peer
    registry, disconnection broadcast and shared-memory sizing, with
    the operating system as an oracle that answers every call the
    server makes, and the properties of the design proved over it. *)

From Stdlib Require Import String ZArith List Bool Lia Arith.
Import ListNotations.
Open Scope Z_scope.

(* ================================================================= *)
(** ** C integers and platform constants *)

(** [long] is 64 bits wide; QEMU is built with wrapping signed
    arithmetic, so [cur_id++] wraps from [2^63 - 1] to [- 2^63]. *)
Definition wrap_long (z : Z) : Z := (z + 2 ^ 63) mod 2 ^ 64 - 2 ^ 63.

(** [unsigned] is 32 bits wide. *)
Definition wrap_unsigned (z : Z) : Z := z mod 2 ^ 32.

(** [sizeof(long)], the length of the payload of every message. *)
Definition sizeof_long : Z := 8.

(** [EINTR] of <errno.h>. *)
Definition EINTR : Z := 4.

(** [sizeof(sun.sun_path)] of <sys/un.h>. *)
Definition UNIX_PATH_MAX : nat := 108.

(** Modelled from the spec: the capacity of the two path buffers of
    [IvshmemServer], declared in ivshmem-server.h; the spec calls it
    the platform path-length limit. *)
Definition PATH_MAX : nat := 4096.

Definition IVSHMEM_SERVER_MAX_HUGEPAGE_SIZE : Z := 1024 * 1024 * 1024.

Definition IVSHMEM_SERVER_LISTEN_BACKLOG : Z := 10.

(* ================================================================= *)
(** ** Data model *)

(** One connected client.  [peer_vectors] holds the entries of the C
    array [vectors] up to the highest index stored so far, entry [i] of
    the array being the [i]-th element; the array has a fixed capacity,
    which every store is checked against ([array_store]).
    [peer_vectors_count] is the field [vectors_count]. The counts and
    loop indices are [unsigned] in C; they only ever count upwards to
    [vectors_count], so they are natural numbers here. *)
Record IvshmemServerPeer : Type := mkPeer {
  peer_sock_fd : Z;
  peer_id : Z;
  peer_vectors : list Z;
  peer_vectors_count : nat
}.

(** The server.  [peer_list] is the tail queue, head first. *)
Record IvshmemServer : Type := mkServer {
  unix_sock_path : string;
  shm_path : string;
  shm_size : Z;
  sock_fd : Z;
  shm_fd : Z;
  n_vectors : nat;
  cur_id : Z;
  verbose : bool;
  peer_list : list IvshmemServerPeer
}.

Definition set_cur_id (server : IvshmemServer) (v : Z) : IvshmemServer :=
  mkServer (unix_sock_path server) (shm_path server) (shm_size server)
           (sock_fd server) (shm_fd server) (n_vectors server) v
           (verbose server) (peer_list server).

Definition set_peer_list (server : IvshmemServer)
    (l : list IvshmemServerPeer) : IvshmemServer :=
  mkServer (unix_sock_path server) (shm_path server) (shm_size server)
           (sock_fd server) (shm_fd server) (n_vectors server)
           (cur_id server) (verbose server) l.

Definition set_fds (server : IvshmemServer) (sock shm : Z) : IvshmemServer :=
  mkServer (unix_sock_path server) (shm_path server) (shm_size server)
           sock shm (n_vectors server) (cur_id server) (verbose server)
           (peer_list server).

Definition set_peer_id (peer : IvshmemServerPeer) (v : Z) : IvshmemServerPeer :=
  mkPeer (peer_sock_fd peer) v (peer_vectors peer) (peer_vectors_count peer).

Definition set_peer_vectors_count (peer : IvshmemServerPeer) (n : nat)
    : IvshmemServerPeer :=
  mkPeer (peer_sock_fd peer) (peer_id peer) (peer_vectors peer) n.

(** The part stored so far of an array that [g_malloc0] filled with
    zeros, after [a[i] = v]. *)
Fixpoint array_update (l : list Z) (i : nat) (v : Z) : list Z :=
  match i, l with
  | O, [] => [v]
  | O, _ :: t => v :: t
  | S i', [] => 0 :: array_update [] i' v
  | S i', x :: t => x :: array_update t i' v
  end.

(** [a[i] = v] on an array of [capacity] entries: [None] when the index
    is outside the array. *)
Definition array_store (capacity : nat) (l : list Z) (i : nat) (v : Z)
    : option (list Z) :=
  if (i <? capacity)%nat then Some (array_update l i v) else None.

Definition peer_eq_dec (p q : IvshmemServerPeer) : {p = q} + {p <> q}.
Proof.
  decide equality.
  - apply Nat.eq_dec.
  - apply (list_eq_dec Z.eq_dec).
  - apply Z.eq_dec.
  - apply Z.eq_dec.
Defined.

(* ================================================================= *)
(** ** The world: calls, their log, and the operating system *)

(** What the server does to the outside, and to its own queue and heap.
    [Sendmsg sock payload cmsg] is one message: the integer payload and
    the descriptor of the control message, if any. *)
Inductive action : Type :=
| ShmOpen (path : string)
| Socket
| Bind (sock : Z) (path : string)
| Listen (sock : Z) (backlog : Z)
| Accept4 (sock : Z)
| Eventfd
| Sendmsg (sock : Z) (payload : Z) (cmsg : option Z)
| Close (fd : Z)
| Ftruncate (fd : Z) (size : Z)
| QInsertTail (peer : IvshmemServerPeer)
| QRemove (peer : IvshmemServerPeer)
| GFree (peer : IvshmemServerPeer)
| Printf.

(** A call with the value it returned. *)
Abbreviation event := (action * Z)%type (only parsing).

(** The operating system answers a call, knowing everything that
    happened before, with a return value and the value [errno] has
    afterwards.  Nothing is assumed about the answers. *)
Definition OS : Type := list event -> action -> Z * Z.

Record World : Type := mkWorld {
  os : OS;
  trace : list event;
  errno : Z
}.

Definition actions (w : World) : list action := map fst (trace w).

(** Outcome of a computation: a value and the world after it; an access
    outside an array (a read of an entry that was never stored, or a
    store beyond the capacity), after which nothing is known; or a loop
    that does not end (or has not ended when the fuel is spent). *)
Inductive Res (A : Type) : Type :=
| Ret (a : A) (w : World)
| OutOfBounds (w : World)
| Unfinished.
Arguments Ret {A} a w.
Arguments OutOfBounds {A} w.
Arguments Unfinished {A}.

Definition M (A : Type) : Type := World -> Res A.

Definition ret {A} (a : A) : M A := fun w => Ret a w.

Definition bind {A B} (m : M A) (f : A -> M B) : M B :=
  fun w => match m w with
           | Ret a w' => f a w'
           | OutOfBounds w' => OutOfBounds w'
           | Unfinished => Unfinished
           end.

Notation "x <- m ; k" := (bind m (fun x => k))
  (at level 61, m at next level, right associativity).
Notation "m ;; k" := (bind m (fun _ => k))
  (at level 61, right associativity).

(** A call answered by the operating system, and logged. *)
Definition syscall (a : action) : M Z :=
  fun w => let r := os w (trace w) a in
           Ret (fst r) (mkWorld (os w) (trace w ++ [(a, fst r)]) (snd r)).

(** A step of the server itself, logged; [errno] is not touched. *)
Definition note (a : action) : M unit :=
  fun w => Ret tt (mkWorld (os w) (trace w ++ [(a, 0)]) (errno w)).

Definition get_errno : M Z := fun w => Ret (errno w) w.

(** [printf] and [fprintf]: what is written to stdout or stderr is
    not part of the log, and the value returned is not looked at;
    [errno] is afterwards what the operating system says. *)
Definition printf : M unit :=
  fun w => Ret tt (mkWorld (os w) (trace w) (snd (os w (trace w) Printf))).

(** Lines 21 to 25: log a message on stdout if verbose=1. *)
Definition IVSHMEM_SERVER_DEBUG (server : IvshmemServer) : M unit :=
  if verbose server then printf else ret tt.

Definition fault {A} : M A := fun w => OutOfBounds w.

Definition unfinished {A} : M A := fun _ => Unfinished.

(** [for (i = start; i < start + n; i++) body(i)]. *)
Fixpoint for_loop (n : nat) (i : nat) (body : nat -> M unit) : M unit :=
  match n with
  | O => ret tt
  | S n' => body i ;; for_loop n' (S i) body
  end.

(** [QTAILQ_FOREACH(var, head, next) body(var)] over the queue as it is
    when the loop starts. *)
Fixpoint foreach {A} (l : list A) (body : A -> M unit) : M unit :=
  match l with
  | [] => ret tt
  | x :: t => body x ;; foreach t body
  end.

(** [peer->vectors[i]] as a value. *)
Definition read_vector (peer : IvshmemServerPeer) (i : nat) : M Z :=
  match nth_error (peer_vectors peer) i with
  | Some v => ret v
  | None => fault
  end.

(* ================================================================= *)
(** ** Framing layer *)

(** The control message: present when [fd >= 0]. *)
Definition cmsg_of (fd : Z) : option Z :=
  if fd >=? 0 then Some fd else None.

Definition ivshmem_server_send_one_msg (sock_fd peer_id fd : Z) : M Z :=
  r <- syscall (Sendmsg sock_fd peer_id (cmsg_of fd)) ;
  if r <=? 0 then ret (-1) else ret 0.

(* ================================================================= *)
(** ** Peer registry *)

Definition ivshmem_server_search_peer (server : IvshmemServer) (peer_id' : Z)
    : option IvshmemServerPeer :=
  find (fun peer => peer_id peer =? peer_id') (peer_list server).

(** [QTAILQ_REMOVE]: unlink the node of [peer]. The node is found as
    the first entry equal to [peer]; entries are pairwise different
    whenever their ids are. *)
Fixpoint qtailq_remove (peer : IvshmemServerPeer)
    (l : list IvshmemServerPeer) : list IvshmemServerPeer :=
  match l with
  | [] => []
  | x :: t => if peer_eq_dec peer x then t else x :: qtailq_remove peer t
  end.

(** [while (ivshmem_server_search_peer(server, cur_id) != NULL) cur_id++],
    giving the value of [cur_id] when the loop ends. *)
Fixpoint probe_id (fuel : nat) (server : IvshmemServer) (cur : Z) : option Z :=
  match fuel with
  | O => None
  | S fuel' =>
      match ivshmem_server_search_peer server cur with
      | None => Some cur
      | Some _ => probe_id fuel' server (wrap_long (cur + 1))
      end
  end.

(** One probe more than there are peers: when all of them hit a peer,
    the loop runs forever (lemma [probe_id_total]). *)
Definition get_unused_id (server : IvshmemServer) : option Z :=
  probe_id (S (length (peer_list server))) server (cur_id server).

(* ================================================================= *)
(** ** Disconnection broadcast *)

Definition ivshmem_server_free_peer (server : IvshmemServer)
    (peer : IvshmemServerPeer) : M IvshmemServer :=
  IVSHMEM_SERVER_DEBUG server ;;
  syscall (Close (peer_sock_fd peer)) ;;
  note (QRemove peer) ;;
  let server := set_peer_list server (qtailq_remove peer (peer_list server)) in
  (* advertise the deletion to other peers *)
  foreach (peer_list server) (fun other_peer =>
    ivshmem_server_send_one_msg (peer_sock_fd other_peer) (peer_id peer) (-1) ;;
    ret tt) ;;
  for_loop (peer_vectors_count peer) 0 (fun vector =>
    v <- read_vector peer vector ;
    syscall (Close v) ;;
    ret tt) ;;
  note (GFree peer) ;;
  ret server.

(* ================================================================= *)
(** ** Handshake *)

Section Handshake.

(** The constant of the protocol's version comes from a header that is
    not part of the sources at hand; the handshake is read for any
    value of it. *)
Variable IVSHMEM_PROTOCOL_VERSION : Z.

(** The number of entries of the array [vectors] of a peer comes from
    that header too. The array is part of the block that [g_malloc0]
    allocates for the peer, so that a store at an index from this
    number on is outside the block. The handshake is read for any
    capacity. *)
Variable IVSHMEM_SERVER_MAX_VECTORS : nat.

(** [peer->vectors[i] = v]. *)
Definition set_peer_vector (peer : IvshmemServerPeer) (i : nat) (v : Z)
    : M IvshmemServerPeer :=
  match array_store IVSHMEM_SERVER_MAX_VECTORS (peer_vectors peer) i v with
  | Some vectors =>
      ret (mkPeer (peer_sock_fd peer) (peer_id peer) vectors
                  (peer_vectors_count peer))
  | None => fault
  end.

Definition ivshmem_server_send_initial_info (server : IvshmemServer)
    (peer : IvshmemServerPeer) : M Z :=
  (* send our protocol version first *)
  r <- ivshmem_server_send_one_msg (peer_sock_fd peer)
         IVSHMEM_PROTOCOL_VERSION (-1) ;
  if r <? 0 then IVSHMEM_SERVER_DEBUG server ;; ret (-1) else
  (* send the peer id to the client *)
  r <- ivshmem_server_send_one_msg (peer_sock_fd peer) (peer_id peer) (-1) ;
  if r <? 0 then IVSHMEM_SERVER_DEBUG server ;; ret (-1) else
  (* send the shm_fd *)
  r <- ivshmem_server_send_one_msg (peer_sock_fd peer) (-1) (shm_fd server) ;
  if r <? 0 then IVSHMEM_SERVER_DEBUG server ;; ret (-1) else
  ret 0.

(** [for (i = 0; i < peer->vectors_count; i++)] creating one eventfd per
    vector: [n] iterations are left and the index is [i]. The result
    says whether the loop ran to its end ([true]) or left through
    [goto fail] ([false]), with the value of [i] at that point. *)
Fixpoint create_eventfds (server : IvshmemServer) (n : nat) (i : nat)
    (peer : IvshmemServerPeer) : M (bool * nat * IvshmemServerPeer) :=
  match n with
  | O => ret (true, i, peer)
  | S n' =>
      v <- syscall Eventfd ;
      peer <- set_peer_vector peer i v ;
      if v <? 0 then IVSHMEM_SERVER_DEBUG server ;; ret (false, i, peer)
      else create_eventfds server n' (S i) peer
  end.

(** [while (i--) close(peer->vectors[i])]. *)
Fixpoint close_vectors (i : nat) (peer : IvshmemServerPeer) : M unit :=
  match i with
  | O => ret tt
  | S i' =>
      v <- read_vector peer i' ;
      syscall (Close v) ;;
      close_vectors i' peer
  end.

(** The code after the label [fail]. *)
Definition handle_new_conn_fail (server : IvshmemServer)
    (peer : IvshmemServerPeer) (newfd : Z) (i : nat)
    : M (Z * IvshmemServer) :=
  close_vectors i peer ;;
  syscall (Close newfd) ;;
  note (GFree peer) ;;
  ret (-1, server).

Definition ivshmem_server_handle_new_conn (server : IvshmemServer)
    : M (Z * IvshmemServer) :=
  (* accept the incoming connection *)
  newfd <- syscall (Accept4 (sock_fd server)) ;
  if newfd <? 0 then IVSHMEM_SERVER_DEBUG server ;; ret (-1, server) else
  IVSHMEM_SERVER_DEBUG server ;;
  (* allocate new structure for this peer *)
  let peer := mkPeer newfd 0 [] 0 in
  (* get an unused peer id *)
  match get_unused_id server with
  | None => unfinished
  | Some unused =>
      let peer := set_peer_id peer unused in
      let server := set_cur_id server (wrap_long (unused + 1)) in
      (* create eventfd, one per vector *)
      let peer := set_peer_vectors_count peer (n_vectors server) in
      created <- create_eventfds server (peer_vectors_count peer) 0 peer ;
      let '(completed, i, peer) := created in
      if negb completed then handle_new_conn_fail server peer newfd i else
      (* send peer id and shm fd *)
      r <- ivshmem_server_send_initial_info server peer ;
      if r <? 0 then
        IVSHMEM_SERVER_DEBUG server ;;
        handle_new_conn_fail server peer newfd i
      else
      (* advertise the new peer to others *)
      foreach (peer_list server) (fun other_peer =>
        for_loop (peer_vectors_count peer) 0 (fun i =>
          v <- read_vector peer i ;
          ivshmem_server_send_one_msg (peer_sock_fd other_peer)
            (peer_id peer) v ;;
          ret tt)) ;;
      (* advertise the other peers to the new one *)
      foreach (peer_list server) (fun other_peer =>
        for_loop (peer_vectors_count peer) 0 (fun i =>
          v <- read_vector other_peer i ;
          ivshmem_server_send_one_msg (peer_sock_fd peer)
            (peer_id other_peer) v ;;
          ret tt)) ;;
      (* advertise the new peer to itself *)
      for_loop (peer_vectors_count peer) 0 (fun i =>
        v <- read_vector peer i ;
        ivshmem_server_send_one_msg (peer_sock_fd peer) (peer_id peer) v ;;
        ret tt) ;;
      note (QInsertTail peer) ;;
      IVSHMEM_SERVER_DEBUG server ;;
      ret (0, set_peer_list server (peer_list server ++ [peer]))
  end.

(* ================================================================= *)
(** ** Connection dispatcher *)

(** [QTAILQ_FOREACH_SAFE] over the peers: the successor is read before
    the body runs, and the body unlinks the current node only, so the
    peers visited are those of the queue when the loop starts. *)
Fixpoint handle_fds_sweep (visit : list IvshmemServerPeer)
    (server : IvshmemServer) (fds : Z -> bool) (maxfd : Z)
    : M IvshmemServer :=
  match visit with
  | [] => ret server
  | peer :: peer_next =>
      (* any message from a peer socket result in a close() *)
      IVSHMEM_SERVER_DEBUG server ;;
      if (peer_sock_fd peer <? maxfd) && fds (peer_sock_fd peer) then
        server <- ivshmem_server_free_peer server peer ;
        handle_fds_sweep peer_next server fds maxfd
      else handle_fds_sweep peer_next server fds maxfd
  end.

(** [fds] is the [fd_set], as its membership test [FD_ISSET]. *)
Definition ivshmem_server_handle_fds (server : IvshmemServer)
    (fds : Z -> bool) (maxfd : Z) : M (Z * IvshmemServer) :=
  if (sock_fd server <? maxfd) && fds (sock_fd server) then
    conn <- ivshmem_server_handle_new_conn server ;
    let '(r, server) := conn in
    if r <? 0 then
      e <- get_errno ;
      if negb (e =? EINTR) then IVSHMEM_SERVER_DEBUG server ;; ret (-1, server)
      else
        server <- handle_fds_sweep (peer_list server) server fds maxfd ;
        ret (0, server)
    else
      server <- handle_fds_sweep (peer_list server) server fds maxfd ;
      ret (0, server)
  else
    server <- handle_fds_sweep (peer_list server) server fds maxfd ;
    ret (0, server).

(* ================================================================= *)
(** ** Sequences of connections and disconnections *)

(** A connection arrives, or the [k]-th peer of the registry (from the
    head, starting at 0) goes away. *)
Inductive op : Type :=
| Connect
| Disconnect (k : nat).

Definition apply_op (o : op) (server : IvshmemServer) : M IvshmemServer :=
  match o with
  | Connect =>
      conn <- ivshmem_server_handle_new_conn server ;
      ret (snd conn)
  | Disconnect k =>
      match nth_error (peer_list server) k with
      | Some peer => ivshmem_server_free_peer server peer
      | None => ret server
      end
  end.

Fixpoint run (ops : list op) (server : IvshmemServer) : M IvshmemServer :=
  match ops with
  | [] => ret server
  | o :: rest => server <- apply_op o server ; run rest server
  end.

End Handshake.

(* ================================================================= *)
(** ** Shared-memory provisioner *)

(** Lines 223 to 227: every bit below the highest one is set. *)
Definition smear (shmsize : Z) : Z :=
  let shmsize := Z.lor shmsize (Z.shiftr shmsize 1) in
  let shmsize := Z.lor shmsize (Z.shiftr shmsize 2) in
  let shmsize := Z.lor shmsize (Z.shiftr shmsize 4) in
  let shmsize := Z.lor shmsize (Z.shiftr shmsize 8) in
  Z.lor shmsize (Z.shiftr shmsize 16).

(** Lines 222 to 228: align [shmsize] to the next power of 2, in
    [unsigned] arithmetic. *)
Definition align_pow2 (shmsize : Z) : Z :=
  wrap_unsigned (smear (wrap_unsigned (shmsize - 1)) + 1).

(** The [while] loop of [ivshmem_server_ftruncate]. *)
Fixpoint ftruncate_loop (fuel : nat) (fd shmsize : Z) : M Z :=
  if shmsize <=? IVSHMEM_SERVER_MAX_HUGEPAGE_SIZE then
    match fuel with
    | O => unfinished
    | S fuel' =>
        r <- syscall (Ftruncate fd shmsize) ;
        if r =? 0 then ret r
        else ftruncate_loop fuel' fd (wrap_unsigned (shmsize * 2))
    end
  else ret (-1).

Definition ivshmem_server_ftruncate (fuel : nat) (fd shmsize : Z) : M Z :=
  ftruncate_loop fuel fd (align_pow2 shmsize).

(* ================================================================= *)
(** ** Server lifecycle *)

(** [snprintf(buf, size, "%s", path)] and the test on its result: the
    copy fits when the path with its final zero byte does. *)
Definition path_fits (size : nat) (path : string) : bool :=
  (String.length path <? size)%nat.

(** The server as [memset] and the assignments of
    [ivshmem_server_init] leave it; [None] is the return value -1.
    The two messages of [IVSHMEM_SERVER_DEBUG] are not printed:
    [verbose] is still 0 from [memset] where they stand. *)
Definition ivshmem_server_init (unix_sock_path' shm_path' : string)
    (shm_size' : Z) (n_vectors' : nat) (verbose' : bool)
    : option IvshmemServer :=
  if negb (path_fits PATH_MAX unix_sock_path') then None else
  if negb (path_fits PATH_MAX shm_path') then None else
  Some (mkServer unix_sock_path' shm_path' shm_size' 0 0 n_vectors' 0
                 verbose' []).

(** [shm_size] is a [size_t] and is passed as an [unsigned]. *)
Definition ivshmem_server_start (fuel : nat) (server : IvshmemServer)
    : M (Z * IvshmemServer) :=
  (* open shm file *)
  shm_fd' <- syscall (ShmOpen (shm_path server)) ;
  if shm_fd' <? 0 then printf ;; ret (-1, server) else
  r <- ivshmem_server_ftruncate fuel shm_fd' (wrap_unsigned (shm_size server)) ;
  if r <? 0 then printf ;; syscall (Close shm_fd') ;; ret (-1, server) else
  IVSHMEM_SERVER_DEBUG server ;;
  (* create the unix listening socket *)
  sock_fd' <- syscall Socket ;
  if sock_fd' <? 0 then
    IVSHMEM_SERVER_DEBUG server ;;
    syscall (Close shm_fd') ;; ret (-1, server)
  else
  if negb (path_fits UNIX_PATH_MAX (unix_sock_path server)) then
    IVSHMEM_SERVER_DEBUG server ;;
    syscall (Close sock_fd') ;; syscall (Close shm_fd') ;; ret (-1, server)
  else
  r <- syscall (Bind sock_fd' (unix_sock_path server)) ;
  if r <? 0 then
    IVSHMEM_SERVER_DEBUG server ;;
    syscall (Close sock_fd') ;; syscall (Close shm_fd') ;; ret (-1, server)
  else
  r <- syscall (Listen sock_fd' IVSHMEM_SERVER_LISTEN_BACKLOG) ;
  if r <? 0 then
    IVSHMEM_SERVER_DEBUG server ;;
    syscall (Close sock_fd') ;; syscall (Close shm_fd') ;; ret (-1, server)
  else
  ret (0, set_fds server sock_fd' shm_fd').

(* ================================================================= *)
(** ** Worlds to run the server in *)

(** How many descriptors the log has handed out: the next one is new. *)
Definition next_fd (history : list event) : Z :=
  5 + Z.of_nat (List.length history).

(** Every call succeeds; descriptors are fresh; a message is written
    whole. *)
Definition os_ok : OS := fun history a =>
  match a with
  | ShmOpen _ | Socket | Accept4 _ | Eventfd => (next_fd history, 0)
  | Sendmsg _ _ _ => (sizeof_long, 0)
  | _ => (0, 0)
  end.

(** As [os_ok], but every message is written in part: 3 bytes of 8. *)
Definition os_short_write : OS := fun history a =>
  match a with
  | Sendmsg _ _ _ => (3, 0)
  | _ => os_ok history a
  end.

(** As [os_ok], but [accept4] is interrupted. *)
Definition os_accept_eintr : OS := fun history a =>
  match a with
  | Accept4 _ => (-1, EINTR)
  | _ => os_ok history a
  end.

(** As [os_ok], but [accept4] fails with [EBADF]. *)
Definition os_accept_ebadf : OS := fun history a =>
  match a with
  | Accept4 _ => (-1, 9)
  | _ => os_ok history a
  end.

(** As [os_ok], but no more than [k] eventfds can be had ([EMFILE]). *)
Definition os_eventfd_limit (k : nat) : OS := fun history a =>
  match a with
  | Eventfd =>
      if (List.length (filter (fun e => match fst e with
                                        | Eventfd => true
                                        | _ => false
                                        end) history) <? k)%nat
      then (next_fd history, 0) else (-1, 24)
  | _ => os_ok history a
  end.

(** As [os_ok], but messages without a descriptor that carry [payload]
    are refused ([EAGAIN]). *)
Definition os_refuse_payload (payload : Z) : OS := fun history a =>
  match a with
  | Sendmsg _ p None => if p =? payload then (-1, 11) else (sizeof_long, 0)
  | _ => os_ok history a
  end.

(** As [os_ok], but the socket [sock] takes no message with [payload]:
    its buffer is full ([EAGAIN]). *)
Definition os_refuse_to (sock payload : Z) : OS := fun history a =>
  match a with
  | Sendmsg s p _ =>
      if (s =? sock) && (p =? payload) then (-1, 11) else (sizeof_long, 0)
  | _ => os_ok history a
  end.

(** As [os_accept_eintr], with stdout closed: [printf] fails with
    [EBADF]. *)
Definition os_stdout_closed : OS := fun history a =>
  match a with
  | Printf => (-1, 9)
  | _ => os_accept_eintr history a
  end.

(** As [os_accept_eintr], with a [printf] that leaves [errno] as
    [accept4] set it. *)
Definition os_quiet_printf : OS := fun history a =>
  match a with
  | Printf => (17, EINTR)
  | _ => os_accept_eintr history a
  end.

(** As [os_ok], but the storage refuses every size. *)
Definition os_no_truncate : OS := fun history a =>
  match a with
  | Ftruncate _ _ => (-1, 22)
  | _ => os_ok history a
  end.

(** As [os_ok], but the storage takes sizes of [min] bytes or more
    only. *)
Definition os_huge_pages (min : Z) : OS := fun history a =>
  match a with
  | Ftruncate _ size => if min <=? size then (0, 0) else (-1, 22)
  | _ => os_ok history a
  end.

Definition world_of (o : OS) : World := mkWorld o [] 0.

(** A server with two vectors, listening on descriptor 4 with the
    shared memory on descriptor 3, no peer yet. *)
Definition server2 : IvshmemServer :=
  mkServer "/tmp/ivshmem_socket" "ivshmem" 1048576 4 3 2 0 false [].
(** The same server with the debug output on. *)
Definition server2_verbose : IvshmemServer :=
  mkServer "/tmp/ivshmem_socket" "ivshmem" 1048576 4 3 2 0 true [].


(** Two peers connect, the second one leaves, a third one connects. *)
Definition scenario : list op := [Connect; Connect; Disconnect 1; Connect].

(** A server whose only peer has no vector stored although the server
    is configured for two: not a state the server gets into. *)
Definition server_short_peer : IvshmemServer :=
  mkServer "/tmp/ivshmem_socket" "ivshmem" 1048576 4 3 2 1 false
           [mkPeer 9 0 [] 0].

(** What a computation that ended left: its value (or [default]) and
    the world. *)
Definition value_after {A} (default : A) (r : Res A) : A :=
  match r with
  | Ret a _ => a
  | _ => default
  end.

Definition world_after {A} (r : Res A) : World :=
  match r with
  | Ret _ w => w
  | OutOfBounds w => w
  | Unfinished => mkWorld (fun _ _ => (0, 0)) [] 0
  end.

(** The server and the world after [ops], from [server2] in the world
    of [o], with version 0 of the protocol and room for 64 vectors in a
    peer. *)
Definition server_after_in (o : OS) (ops : list op) : IvshmemServer :=
  value_after server2 (run 0 64 ops server2 (world_of o)).

Definition world_after_in (o : OS) (ops : list op) : World :=
  world_after (run 0 64 ops server2 (world_of o)).

(** The same where every call succeeds. *)
Definition server_after (ops : list op) : IvshmemServer :=
  server_after_in os_ok ops.

Definition world_after_ops (ops : list op) : World :=
  world_after_in os_ok ops.

(** What the log gained from [w] to [w']. *)
Definition gained (w w' : World) : list event :=
  skipn (List.length (trace w)) (trace w').

(** The second peer of the scenario. *)
Definition second_peer : IvshmemServerPeer := mkPeer 14 1 [15; 16] 2.

(** The next connection after [ops]. *)
Definition next_conn (ops : list op) : Res (Z * IvshmemServer) :=
  ivshmem_server_handle_new_conn 0 64 (server_after ops) (world_after_ops ops).

(** The second peer leaving after [ops]. *)
Definition second_leaves (ops : list op) : Res IvshmemServer :=
  ivshmem_server_free_peer (server_after ops) second_peer (world_after_ops ops).

(** A first connection to [server2] in the world of [o]. *)
Definition first_conn (o : OS) : Res (Z * IvshmemServer) :=
  ivshmem_server_handle_new_conn 0 64 server2 (world_of o).

(** One dispatch cycle of [server2] with the listening socket ready and
    no peer, in the world of [o]. *)
Definition first_cycle (o : OS) : Res (Z * IvshmemServer) :=
  ivshmem_server_handle_fds 0 64 server2 (fun fd => fd =? 4) 5 (world_of o).

(** Sizing the shared memory on descriptor 3 for [shmsize] bytes, with
    fuel for 40 rounds, in the world of [o]. *)
Definition sizing (o : OS) (shmsize : Z) : Res Z :=
  ivshmem_server_ftruncate 40 3 shmsize (world_of o).
(* ================================================================= *)
(** ** Vocabulary of the properties *)

(** [w'] is [w] after the events [evs], under the same operating
    system. *)
Definition extends (w w' : World) (evs : list event) : Prop :=
  os w' = os w /\ trace w' = trace w ++ evs.

(** [m] always ends, and does exactly the actions [acts], whatever the
    operating system answers. *)
Definition emits {A} (m : M A) (acts : list action) : Prop :=
  forall w, exists a w' evs,
    m w = Ret a w' /\ extends w w' evs /\ map fst evs = acts.

(** The messages that advertise the vectors [vs] of peer [id] on
    [sock]. *)
Definition advertise (sock id : Z) (vs : list Z) : list action :=
  map (fun v => Sendmsg sock id (cmsg_of v)) vs.


(** The three messages that open a handshake. *)
Definition initial_info (ver : Z) (server : IvshmemServer)
    (peer : IvshmemServerPeer) : list action :=
  [ Sendmsg (peer_sock_fd peer) ver None;
    Sendmsg (peer_sock_fd peer) (peer_id peer) None;
    Sendmsg (peer_sock_fd peer) (-1) (cmsg_of (shm_fd server)) ].

(** What a handshake sends after them: the new peer to the others, the
    others to the new peer, the new peer to itself. *)
Definition advertisements (server : IvshmemServer)
    (peer : IvshmemServerPeer) : list action :=
  flat_map (fun other =>
      advertise (peer_sock_fd other) (peer_id peer) (peer_vectors peer))
    (peer_list server)
  ++ flat_map (fun other =>
      advertise (peer_sock_fd peer) (peer_id other) (peer_vectors other))
    (peer_list server)
  ++ advertise (peer_sock_fd peer) (peer_id peer) (peer_vectors peer).

(** What an aborted handshake does with the vectors [allocated]. *)
Definition unwinding (peer : IvshmemServerPeer) (allocated : list Z)
    : list action :=
  map Close (rev allocated) ++ [Close (peer_sock_fd peer); GFree peer].

(** A peer as a completed handshake leaves it, for [n] vectors. *)
Definition peer_ok (n : nat) (peer : IvshmemServerPeer) : Prop :=
  peer_vectors_count peer = n /\
  List.length (peer_vectors peer) = peer_vectors_count peer.

(** Every peer of the registry has the server's number of vectors. *)
Definition registry_ok (server : IvshmemServer) : Prop :=
  Forall (peer_ok (n_vectors server)) (peer_list server).

(** Every vector of every peer of the registry is a descriptor. *)
Definition registry_valid (server : IvshmemServer) : Prop :=
  Forall (fun peer => Forall (fun v => 0 <= v) (peer_vectors peer))
         (peer_list server).

(** The identifiers in use. *)
Definition ids (server : IvshmemServer) : list Z :=
  map peer_id (peer_list server).

(** A server that has just been started: no peer, the counter at 0. *)
Definition fresh (server : IvshmemServer) : Prop :=
  peer_list server = [] /\ cur_id server = 0.

(** The [k]-th identifier the probe looks at, starting from [c]. *)
Fixpoint candidate (c : Z) (k : nat) : Z :=
  match k with
  | O => c
  | S k' => candidate (wrap_long (c + 1)) k'
  end.

(** The descriptors that [eventfd] handed out in a piece of the log. *)
Definition allocated (evs : list event) : list Z :=
  flat_map (fun e => match e with
                     | (Eventfd, v) => if v <? 0 then [] else [v]
                     | _ => []
                     end) evs.

(** The descriptors closed, the peers inserted and the peers freed in a
    sequence of actions, in order. *)
Definition closed (acts : list action) : list Z :=
  flat_map (fun a => match a with Close fd => [fd] | _ => [] end) acts.

Definition inserted (acts : list action) : list IvshmemServerPeer :=
  flat_map (fun a => match a with QInsertTail p => [p] | _ => [] end) acts.

Definition freed (acts : list action) : list IvshmemServerPeer :=
  flat_map (fun a => match a with GFree p => [p] | _ => [] end) acts.

(** The messages in a sequence of actions, in order. *)
Definition is_send (a : action) : bool :=
  match a with Sendmsg _ _ _ => true | _ => false end.

Definition sends (acts : list action) : list action := filter is_send acts.

(** The messages written to [sock], as payload and descriptor. *)
Definition sent_to (sock : Z) (acts : list action) : list (Z * option Z) :=
  flat_map (fun a => match a with
                     | Sendmsg s payload cmsg =>
                         if s =? sock then [(payload, cmsg)] else []
                     | _ => []
                     end) acts.

(** The four ways [ivshmem_server_handle_new_conn] ends, with what the
    log gained; [server] and [w] are the state before, the indices are
    the return value, the server and the world after. *)
Inductive new_conn_outcome (ver : Z) (server : IvshmemServer) (w : World)
    : Z -> IvshmemServer -> World -> Prop :=
| accept_failed newfd w' :
    newfd < 0 ->
    extends w w' [(Accept4 (sock_fd server), newfd)] ->
    newfd = fst (os w (trace w) (Accept4 (sock_fd server))) ->
    errno w' = snd (if verbose server then os w (trace w') Printf
                    else os w (trace w) (Accept4 (sock_fd server))) ->
    new_conn_outcome ver server w (-1) server w'
| eventfd_failed newfd unused good bad tl w' :
    0 <= newfd ->
    get_unused_id server = Some unused ->
    Forall (fun v => 0 <= v) good ->
    bad < 0 ->
    (List.length good < n_vectors server)%nat ->
    extends w w' ((Accept4 (sock_fd server), newfd)
                  :: map (pair Eventfd) (good ++ [bad]) ++ tl) ->
    map fst tl
      = unwinding (mkPeer newfd unused (good ++ [bad]) (n_vectors server))
                  good ->
    new_conn_outcome ver server w (-1)
      (set_cur_id server (wrap_long (unused + 1))) w'
| initial_info_failed newfd unused vs sent lost n tl w' :
    0 <= newfd ->
    get_unused_id server = Some unused ->
    Forall (fun v => 0 <= v) vs ->
    List.length vs = n_vectors server ->
    Forall (fun e => 0 < snd e) sent ->
    n <= 0 ->
    (List.length sent < 3)%nat ->
    map fst (sent ++ [(lost, n)])
      = firstn (S (List.length sent))
          (initial_info ver server (mkPeer newfd unused vs (n_vectors server))) ->
    extends w w' ((Accept4 (sock_fd server), newfd)
                  :: map (pair Eventfd) vs ++ (sent ++ [(lost, n)]) ++ tl) ->
    map fst tl
      = unwinding (mkPeer newfd unused vs (n_vectors server)) vs ->
    new_conn_outcome ver server w (-1)
      (set_cur_id server (wrap_long (unused + 1))) w'
| connected newfd unused vs sent w' :
    0 <= newfd ->
    get_unused_id server = Some unused ->
    Forall (fun v => 0 <= v) vs ->
    List.length vs = n_vectors server ->
    Forall (fun e => 0 < snd e) sent ->
    map fst sent
      = initial_info ver server (mkPeer newfd unused vs (n_vectors server)) ->
    (registry_ok server ->
     exists tl,
       extends w w' ((Accept4 (sock_fd server), newfd)
                     :: map (pair Eventfd) vs ++ sent ++ tl) /\
       map fst tl
         = advertisements server (mkPeer newfd unused vs (n_vectors server))
           ++ [QInsertTail (mkPeer newfd unused vs (n_vectors server))]) ->
    new_conn_outcome ver server w 0
      (set_peer_list (set_cur_id server (wrap_long (unused + 1)))
         (peer_list server
          ++ [mkPeer newfd unused vs (n_vectors server)])) w'.

(** What holds of the registry at all times. *)
Definition invariant (server : IvshmemServer) : Prop :=
  NoDup (ids server) /\ registry_ok server /\ registry_valid server.

(** The notices of the departure of [peer] to the peers [remaining]. *)
Definition goodbyes (peer : IvshmemServerPeer)
    (remaining : list IvshmemServerPeer) : list action :=
  map (fun other => Sendmsg (peer_sock_fd other) (peer_id peer) None) remaining.

(** The messages of which [sock] was given at least a part: those
    whose [sendmsg] returned a positive count. This is what the server
    tests; a count below [sizeof_long] is a message cut short. *)
Definition written_to (sock : Z) (evs : list event) : list (Z * option Z) :=
  sent_to sock (map fst (filter (fun e => 0 <? snd e) evs)).

(** The messages that [sock] was given whole: those whose [sendmsg]
    returned the length of the message, [sizeof_long]. *)
Definition delivered_to (sock : Z) (evs : list event) : list (Z * option Z) :=
  sent_to sock (map fst (filter (fun e => snd e =? sizeof_long) evs)).

(** Every [sendmsg] of a piece of the log returned a positive count. *)
Definition sends_succeed (evs : list event) : Prop :=
  Forall (fun e => is_send (fst e) = true -> 0 < snd e) evs.

(** Every [sendmsg] of a piece of the log wrote its message whole. *)
Definition sends_whole (evs : list event) : Prop :=
  Forall (fun e => is_send (fst e) = true -> snd e = sizeof_long) evs.

Definition is_eventfd (a : action) : bool :=
  match a with Eventfd => true | _ => false end.

Definition is_close (a : action) : bool :=
  match a with Close _ => true | _ => false end.

(** The actions of a handshake that completes, for the peer it adds. *)
Definition handshake_log (ver : Z) (server : IvshmemServer)
    (peer : IvshmemServerPeer) : list action :=
  Accept4 (sock_fd server)
  :: map (fun _ => Eventfd) (peer_vectors peer)
  ++ initial_info ver server peer
  ++ advertisements server peer
  ++ [QInsertTail peer].

(** Bit [i] of [s] is set exactly when one of the [m] bits of [x] from
    [i] upwards is. *)
Definition covers (x s m : Z) : Prop :=
  forall i, 0 <= i ->
    (Z.testbit s i = true <->
     exists j, 0 <= j < m /\ Z.testbit x (i + j) = true).

(* ================================================================= *)
(** ** The set of descriptors to watch *)

From Stdlib Require Import Permutation Sorted.

(** [int] is 32 bits wide, with the same wrapping as [long]. *)
Definition wrap_int (z : Z) : Z := (z + 2 ^ 31) mod 2 ^ 32 - 2 ^ 31.

(** [FD_SET(fd, fds)], on the [fd_set] as its membership test. *)
Definition FD_SET (fd : Z) (fds : Z -> bool) : Z -> bool :=
  fun x => (x =? fd) || fds x.

(** [FD_SET(fd, fds); if (fd >= *maxfd) *maxfd = fd + 1;] *)
Definition watch_fd (fd : Z) (watched : (Z -> bool) * Z) : (Z -> bool) * Z :=
  (FD_SET fd (fst watched),
   if fd >=? snd watched then wrap_int (fd + 1) else snd watched).

(** The two results are written through the pointers [fds] and
    [maxfd]; here they are returned. *)
Definition ivshmem_server_get_fds (server : IvshmemServer)
    (fds : Z -> bool) (maxfd : Z) : (Z -> bool) * Z :=
  fold_left (fun watched peer => watch_fd (peer_sock_fd peer) watched)
            (peer_list server)
            (watch_fd (sock_fd server) (fds, maxfd)).

(* ================================================================= *)
(** ** More vocabulary *)

(** The descriptors that the server watches. *)
Definition watched_fds (server : IvshmemServer) : list Z :=
  sock_fd server :: map peer_sock_fd (peer_list server).

(** The test of the sweep on a peer: its socket is below [maxfd] and
    set in [fds]. *)
Definition ready (fds : Z -> bool) (maxfd : Z) (peer : IvshmemServerPeer)
    : bool :=
  (peer_sock_fd peer <? maxfd) && fds (peer_sock_fd peer).

(** The descriptors that [accept4] and [eventfd] handed out in a piece
    of the log, in order. *)
Definition acquired (evs : list event) : list Z :=
  flat_map (fun e => match e with
                     | (Accept4 _, v) | (Eventfd, v) =>
                         if v <? 0 then [] else [v]
                     | _ => []
                     end) evs.

(** The descriptors that [shm_open] and [socket] handed out. *)
Definition opened (evs : list event) : list Z :=
  flat_map (fun e => match e with
                     | (ShmOpen _, v) | (Socket, v) =>
                         if v <? 0 then [] else [v]
                     | _ => []
                     end) evs.

(** The descriptors that the peers of the registry hold: for each peer
    its socket, then its vectors. *)
Definition held (server : IvshmemServer) : list Z :=
  flat_map (fun peer => peer_sock_fd peer :: peer_vectors peer)
           (peer_list server).

(** The sizes that [ftruncate] was asked for. *)
Definition sizes_asked (evs : list event) : list Z :=
  flat_map (fun e => match fst e with
                     | Ftruncate _ size => [size]
                     | _ => []
                     end) evs.

Definition is_acquire (a : action) : bool :=
  match a with Accept4 _ | Eventfd => true | _ => false end.

(** What a piece of the log shows of a handshake that is refused:
    [accept4] or [eventfd] returned a negative value, or the [sendmsg]
    of one of the first three messages returned no positive count. *)
Definition refused (evs : list event) : bool :=
  existsb (fun e => is_acquire (fst e) && (snd e <? 0)) evs
  || existsb (fun e => snd e <=? 0)
             (firstn 3 (filter (fun e => is_send (fst e)) evs)).

(** A server in which the counter has come round to ids in use: the
    peers 0 and 1 are there and the counter is at 0. Reached after
    [2^64] connections only. *)
Definition server_come_round : IvshmemServer :=
  mkServer "/tmp/ivshmem_socket" "ivshmem" 1048576 4 3 2 0 false
           [mkPeer 5 0 [6; 7] 2; mkPeer 14 1 [15; 16] 2].

(** A server as [ivshmem_server_init] leaves it, with a socket path
    of 108 characters. *)
Definition server_long_path : IvshmemServer :=
  mkServer
    "/tmp/0123456789012345678901234567890123456789012345678901234567890123456789012345678901234567890123456789012"
    "ivshmem" 1048576 0 0 2 0 false [].

(** A server as [ivshmem_server_init] leaves it. *)
Definition server_initial : IvshmemServer :=
  mkServer "/tmp/ivshmem_socket" "ivshmem" 1048576 0 0 2 0 false [].

(** As [os_ok], but the address is in use: [bind] fails. *)
Definition os_bind_fails : OS := fun history a =>
  match a with
  | Bind _ _ => (-1, 98)
  | _ => os_ok history a
  end.

(** Nothing is lost over the events [evs], which take [server] to
    [server']: the descriptors held before and those handed out are,
    each as often as it occurs, those closed and those held after. *)
Definition balanced (server : IvshmemServer) (evs : list event)
    (server' : IvshmemServer) : Prop :=
  Permutation (held server ++ acquired evs)
              (closed (map fst evs) ++ held server').
(* ================================================================= *)
(** * Properties *)

(** ** The log only grows *)

Lemma extends_refl (w : World) : extends w w [].
Proof. split; [reflexivity | now rewrite app_nil_r]. Qed.

Lemma extends_trans (w1 w2 w3 : World) (e1 e2 : list event) :
  extends w1 w2 e1 -> extends w2 w3 e2 -> extends w1 w3 (e1 ++ e2).
Proof.
  intros [Ho1 Ht1] [Ho2 Ht2]. split.
  - congruence.
  - rewrite Ht2, Ht1. now rewrite app_assoc.
Qed.

Lemma extends_actions (w w' : World) (evs : list event) :
  extends w w' evs -> actions w' = actions w ++ map fst evs.
Proof. intros [_ Ht]. unfold actions. now rewrite Ht, map_app. Qed.

(** Output changes [errno] at most. *)
Lemma extends_after (w w1 w2 : World) (evs : list event) :
  extends w w1 evs -> os w2 = os w1 -> trace w2 = trace w1 ->
  extends w w2 evs.
Proof. intros [Ho Ht] Eo Et. split; congruence. Qed.

Lemma extends_before (w w1 w2 : World) (evs : list event) :
  os w1 = os w -> trace w1 = trace w -> extends w1 w2 evs ->
  extends w w2 evs.
Proof. intros Eo Et [Ho Ht]. split; congruence. Qed.

Lemma printf_run (w : World) :
  exists w',
    printf w = Ret tt w' /\ os w' = os w /\ trace w' = trace w /\
    errno w' = snd (os w (trace w) Printf).
Proof. unfold printf. eexists. repeat split. Qed.

Lemma printf_inv (w w' : World) :
  printf w = Ret tt w' ->
  os w' = os w /\ trace w' = trace w /\
  errno w' = snd (os w (trace w) Printf).
Proof.
  intros H. destruct (printf_run w) as (w0 & D & R).
  rewrite D in H. inversion H; subst. exact R.
Qed.

Lemma debug_run (server : IvshmemServer) (w : World) :
  exists w',
    IVSHMEM_SERVER_DEBUG server w = Ret tt w' /\
    os w' = os w /\ trace w' = trace w /\
    errno w' = (if verbose server then snd (os w (trace w) Printf)
                else errno w).
Proof.
  unfold IVSHMEM_SERVER_DEBUG. destruct (verbose server).
  - apply printf_run.
  - exists w. repeat split.
Qed.

Lemma debug_inv (server : IvshmemServer) (w w' : World) :
  IVSHMEM_SERVER_DEBUG server w = Ret tt w' ->
  os w' = os w /\ trace w' = trace w /\
  errno w' = (if verbose server then snd (os w (trace w) Printf)
              else errno w).
Proof.
  intros H. destruct (debug_run server w) as (w0 & D & R).
  rewrite D in H. inversion H; subst. exact R.
Qed.

Lemma debug_ret {A} (server : IvshmemServer) (a : A) (w : World) :
  exists w',
    (IVSHMEM_SERVER_DEBUG server ;; ret a) w = Ret a w' /\
    os w' = os w /\ trace w' = trace w /\
    errno w' = (if verbose server then snd (os w (trace w) Printf)
                else errno w).
Proof.
  destruct (debug_run server w) as (w' & D & R). exists w'.
  unfold bind. rewrite D. split; [reflexivity | exact R].
Qed.

Lemma debug_quiet (server : IvshmemServer) (w : World) :
  verbose server = false -> IVSHMEM_SERVER_DEBUG server w = Ret tt w.
Proof. unfold IVSHMEM_SERVER_DEBUG. now intros ->. Qed.

Lemma emits_ret {A} (a : A) : emits (ret a) [].
Proof.
  intros w. exists a, w, []. repeat split. now rewrite app_nil_r.
Qed.

Lemma syscall_run (a : action) (w : World) :
  exists r w', syscall a w = Ret r w' /\ extends w w' [(a, r)] /\
               r = fst (os w (trace w) a) /\ errno w' = snd (os w (trace w) a).
Proof.
  unfold syscall. eexists _, _. split; [reflexivity |].
  repeat split.
Qed.

Lemma emits_syscall (a : action) : emits (syscall a) [a].
Proof.
  intros w. destruct (syscall_run a w) as (r & w' & H & He & _).
  exists r, w', [(a, r)]. auto.
Qed.

Lemma emits_note (a : action) : emits (note a) [a].
Proof.
  intros w. unfold note. eexists tt, _, [(a, 0)].
  repeat split.
Qed.

Lemma emits_printf : emits printf [].
Proof.
  intros w. destruct (printf_run w) as (w' & H & Ho & Ht & _).
  exists tt, w', []. split; [exact H |]. split; [| reflexivity].
  split; [exact Ho | now rewrite app_nil_r].
Qed.

Lemma emits_debug (server : IvshmemServer) :
  emits (IVSHMEM_SERVER_DEBUG server) [].
Proof.
  intros w. destruct (debug_run server w) as (w' & H & Ho & Ht & _).
  exists tt, w', []. split; [exact H |]. split; [| reflexivity].
  split; [exact Ho | now rewrite app_nil_r].
Qed.

Lemma emits_bind {A B} (m : M A) (f : A -> M B) (l1 l2 : list action) :
  emits m l1 -> (forall a, emits (f a) l2) -> emits (bind m f) (l1 ++ l2).
Proof.
  intros Hm Hf w. destruct (Hm w) as (a & w1 & e1 & H1 & X1 & M1).
  destruct (Hf a w1) as (b & w2 & e2 & H2 & X2 & M2).
  exists b, w2, (e1 ++ e2). unfold bind. rewrite H1. split; [exact H2 |].
  split; [eapply extends_trans; eauto |].
  rewrite map_app. congruence.
Qed.

Lemma emits_for_loop (body : nat -> M unit) (f : nat -> list action) (n : nat) :
  forall i,
    (forall j, (i <= j < i + n)%nat -> emits (body j) (f j)) ->
    emits (for_loop n i body) (flat_map f (seq i n)).
Proof.
  induction n as [| n IH]; intros i Hb; simpl.
  - apply emits_ret.
  - apply emits_bind.
    + apply Hb. lia.
    + intros _. apply IH. intros j Hj. apply Hb. lia.
Qed.

Lemma emits_foreach {A} (body : A -> M unit) (f : A -> list action)
    (l : list A) :
  (forall x, In x l -> emits (body x) (f x)) ->
  emits (foreach l body) (flat_map f l).
Proof.
  induction l as [| x t IH]; intros Hb; simpl.
  - apply emits_ret.
  - apply emits_bind.
    + apply Hb. now left.
    + intros _. apply IH. intros y Hy. apply Hb. now right.
Qed.

Lemma bind_read_vector {B} (peer : IvshmemServerPeer) (i : nat) (v : Z)
    (k : Z -> M B) :
  nth_error (peer_vectors peer) i = Some v ->
  bind (read_vector peer i) k = k v.
Proof.
  intros H. unfold read_vector. rewrite H. reflexivity.
Qed.

(** Reading the entries of an array in order is mapping over them. *)
Lemma flat_map_seq_nth {B} (g : Z -> list B) (l : list Z) :
  flat_map (fun i => match nth_error l i with
                     | Some v => g v
                     | None => []
                     end) (seq 0 (List.length l)) = flat_map g l.
Proof.
  induction l as [| x t IH]; simpl; [reflexivity |].
  f_equal. rewrite <- seq_shift, flat_map_concat_map, map_map.
  rewrite <- flat_map_concat_map. exact IH.
Qed.

(** ** The framing layer *)

Lemma send_one_msg_run (sock payload fd : Z) (w : World) :
  exists n w',
    ivshmem_server_send_one_msg sock payload fd w
      = Ret (if n <=? 0 then -1 else 0) w' /\
    extends w w' [(Sendmsg sock payload (cmsg_of fd), n)] /\
    n = fst (os w (trace w) (Sendmsg sock payload (cmsg_of fd))).
Proof.
  unfold ivshmem_server_send_one_msg, bind.
  destruct (syscall_run (Sendmsg sock payload (cmsg_of fd)) w)
    as (n & w' & H & He & Hn & _).
  rewrite H. exists n, w'. split; [| auto].
  destruct (n <=? 0); reflexivity.
Qed.

Lemma emits_send_one_msg (sock payload fd : Z) :
  emits (ivshmem_server_send_one_msg sock payload fd)
        [Sendmsg sock payload (cmsg_of fd)].
Proof.
  intros w. destruct (send_one_msg_run sock payload fd w) as (n & w' & H & He & _).
  eexists _, w', _. split; [exact H |]. split; [exact He | reflexivity].
Qed.

Lemma emits_advertise (sock : Z) (id : Z) (peer : IvshmemServerPeer) (n : nat) :
  n = List.length (peer_vectors peer) ->
  emits (for_loop n 0 (fun i =>
           v <- read_vector peer i ;
           ivshmem_server_send_one_msg sock id v ;;
           ret tt))
        (advertise sock id (peer_vectors peer)).
Proof.
  intros ->. unfold advertise.
  replace (map (fun v => Sendmsg sock id (cmsg_of v)) (peer_vectors peer))
    with (flat_map (fun v => [Sendmsg sock id (cmsg_of v)]) (peer_vectors peer))
    by (induction (peer_vectors peer); simpl; congruence).
  rewrite <- flat_map_seq_nth.
  apply emits_for_loop. intros j Hj.
  destruct (nth_error (peer_vectors peer) j) as [v |] eqn:E.
  - rewrite (bind_read_vector _ _ _ _ E).
    change [Sendmsg sock id (cmsg_of v)]
      with ([Sendmsg sock id (cmsg_of v)] ++ []).
    apply emits_bind; [apply emits_send_one_msg | intros _; apply emits_ret].
  - apply nth_error_None in E. lia.
Qed.

(** ** Pieces of the handshake *)

Lemma array_update_end (l : list Z) (v : Z) :
  array_update l (List.length l) v = l ++ [v].
Proof.
  induction l as [| x t IH]; simpl; [reflexivity | now rewrite IH].
Qed.

(** A store at the end of what is stored, within the capacity, adds an
    entry; beyond the capacity it faults. *)
Lemma set_peer_vector_run (cap : nat) (peer : IvshmemServerPeer) (v : Z)
    (w : World) :
  set_peer_vector cap peer (List.length (peer_vectors peer)) v w
  = if (List.length (peer_vectors peer) <? cap)%nat
    then Ret (mkPeer (peer_sock_fd peer) (peer_id peer)
                     (peer_vectors peer ++ [v]) (peer_vectors_count peer)) w
    else OutOfBounds w.
Proof.
  unfold set_peer_vector, array_store.
  destruct (List.length (peer_vectors peer) <? cap)%nat; [| reflexivity].
  now rewrite array_update_end.
Qed.

(** The eventfd loop stores what it is given, in order, and stops at the
    first negative value, which it has stored too. It faults exactly
    when it comes to store beyond the capacity of the array. *)
Lemma create_eventfds_run (cap : nat) (server : IvshmemServer) (n : nat) :
  forall (i : nat) (peer : IvshmemServerPeer) (w : World),
    List.length (peer_vectors peer) = i ->
    (i <= cap)%nat ->
    match create_eventfds cap server n i peer w with
    | Ret (completed, j, peer') w' =>
        exists vs,
          peer' = mkPeer (peer_sock_fd peer) (peer_id peer)
                         (peer_vectors peer ++ vs) (peer_vectors_count peer) /\
          extends w w' (map (pair Eventfd) vs) /\
          ((completed = true /\ j = (i + n)%nat /\ List.length vs = n /\
            Forall (fun v => 0 <= v) vs /\ (i + n <= cap)%nat)
           \/
           (completed = false /\
            exists good bad, vs = good ++ [bad] /\ Forall (fun v => 0 <= v) good /\
                             bad < 0 /\ j = (i + List.length good)%nat /\
                             (List.length good < n)%nat))
    | OutOfBounds w' =>
        (cap < i + n)%nat /\
        exists vs,
          extends w w' (map (pair Eventfd) vs) /\
          (i + List.length vs = S cap)%nat
    | Unfinished => False
    end.
Proof.
  induction n as [| n IH]; intros i peer w Hi Hcap; simpl.
  - exists []. rewrite app_nil_r. destruct peer; simpl.
    split; [reflexivity |]. split; [apply extends_refl |].
    left. repeat split; auto; lia.
  - unfold bind at 1.
    destruct (syscall_run Eventfd w) as (v & w1 & H1 & E1 & _). rewrite H1.
    unfold bind at 1. rewrite <- Hi, set_peer_vector_run.
    destruct (List.length (peer_vectors peer) <? cap)%nat eqn:Hroom.
    2: { apply Nat.ltb_ge in Hroom. split; [lia |].
         exists [v]. split; [exact E1 | simpl; lia]. }
    apply Nat.ltb_lt in Hroom.
    destruct (v <? 0) eqn:Hv.
    + unfold bind.
      destruct (debug_run server w1) as (w1' & D & Do & Dt & _). rewrite D.
      unfold ret. exists [v]. split; [reflexivity |].
      split; [exact (extends_after _ _ _ _ E1 Do Dt) |].
      right. split; [reflexivity |].
      exists [], v. simpl. repeat split; auto; lia.
    + specialize (IH (S (List.length (peer_vectors peer)))
                     (mkPeer (peer_sock_fd peer) (peer_id peer)
                             (peer_vectors peer ++ [v])
                             (peer_vectors_count peer)) w1).
      simpl in IH. rewrite length_app in IH. simpl in IH.
      specialize (IH ltac:(lia) ltac:(lia)).
      destruct (create_eventfds cap server n
                  (S (List.length (peer_vectors peer)))
                  (mkPeer (peer_sock_fd peer) (peer_id peer)
                          (peer_vectors peer ++ [v])
                          (peer_vectors_count peer)) w1)
        as [[[c j] p'] w' | w' |]; [| | exact IH].
      2: { destruct IH as (Hlt & vs & E & Hlen). split; [lia |].
           exists (v :: vs). split; [exact (extends_trans _ _ _ _ _ E1 E) |].
           simpl. lia. }
      destruct IH as (vs & -> & E & Hc).
      exists (v :: vs). rewrite <- app_assoc. simpl.
      split; [reflexivity |].
      split; [exact (extends_trans _ _ _ _ _ E1 E) |].
      destruct Hc as [(-> & -> & Hl & Hf & Hb)
                     | (-> & good & bad & -> & Hg & Hb & -> & Hl)].
      * left. repeat split; simpl; auto; try lia.
        constructor; [lia | exact Hf].
      * right. split; [reflexivity |]. exists (v :: good), bad.
        simpl. repeat split; auto; try lia. constructor; [lia | exact Hg].
Qed.

Lemma emits_close_vectors (peer : IvshmemServerPeer) (i : nat) :
  (i <= List.length (peer_vectors peer))%nat ->
  emits (close_vectors i peer) (map Close (rev (firstn i (peer_vectors peer)))).
Proof.
  induction i as [| i IH]; intros Hi; simpl close_vectors.
  - simpl. apply emits_ret.
  - destruct (nth_error (peer_vectors peer) i) as [v |] eqn:E.
    + rewrite (bind_read_vector _ _ _ _ E).
      assert (F : firstn (S i) (peer_vectors peer)
                  = firstn i (peer_vectors peer) ++ [v]).
      { clear IH Hi. revert i E.
        induction (peer_vectors peer) as [| x t IHt]; intros [| i] E;
          simpl in *; try discriminate.
        - now inversion E.
        - f_equal. now apply IHt. }
      rewrite F, rev_app_distr. simpl.
      change (Close v :: map Close (rev (firstn i (peer_vectors peer))))
        with ([Close v] ++ map Close (rev (firstn i (peer_vectors peer)))).
      apply emits_bind; [apply emits_syscall |].
      intros _. apply IH. lia.
    + apply nth_error_None in E. lia.
Qed.

(** The code after [fail] ends with -1 and the server it was given. *)
Lemma handle_new_conn_fail_run (server : IvshmemServer)
    (peer : IvshmemServerPeer) (newfd : Z) (i : nat) (w : World) :
  (i <= List.length (peer_vectors peer))%nat ->
  exists w' tl,
    handle_new_conn_fail server peer newfd i w = Ret (-1, server) w' /\
    extends w w' tl /\
    map fst tl = map Close (rev (firstn i (peer_vectors peer)))
                 ++ [Close newfd; GFree peer].
Proof.
  intros Hi. unfold handle_new_conn_fail, bind.
  destruct (emits_close_vectors peer i Hi w) as (u & w1 & e1 & H1 & X1 & M1).
  rewrite H1.
  destruct (syscall_run (Close newfd) w1) as (r & w2 & H2 & X2 & _).
  rewrite H2. unfold note, ret. eexists _, (e1 ++ [(Close newfd, r)] ++ [(GFree peer, 0)]).
  split; [reflexivity |]. split.
  - eapply extends_trans; [exact X1 |]. eapply extends_trans; [exact X2 |].
    split; reflexivity.
  - rewrite map_app, M1. reflexivity.
Qed.

Lemma send_initial_info_run (ver : Z) (server : IvshmemServer)
    (peer : IvshmemServerPeer) (w : World) :
  exists r w' evs,
    ivshmem_server_send_initial_info ver server peer w = Ret r w' /\
    extends w w' evs /\
    ((r = 0 /\ Forall (fun e => 0 < snd e) evs /\
      map fst evs = initial_info ver server peer)
     \/
     (r = -1 /\
      exists sent lost n,
        evs = sent ++ [(lost, n)] /\ Forall (fun e => 0 < snd e) sent /\
        n <= 0 /\ (List.length sent < 3)%nat /\
        map fst evs = firstn (S (List.length sent))
                        (initial_info ver server peer))).
Proof.
  unfold ivshmem_server_send_initial_info.
  unfold bind at 1.
  destruct (send_one_msg_run (peer_sock_fd peer) ver (-1) w)
    as (n1 & w1 & H1 & X1 & _). rewrite H1.
  destruct (n1 <=? 0) eqn:L1; simpl.
  { destruct (debug_ret server (-1) w1) as (w1' & D & Do & Dt & _).
    exists (-1), w1', [(Sendmsg (peer_sock_fd peer) ver None, n1)].
    split; [exact D |]. split; [exact (extends_after _ _ _ _ X1 Do Dt) |].
    right. split; [reflexivity |].
    exists [], (Sendmsg (peer_sock_fd peer) ver None), n1.
    repeat split; simpl; auto; lia. }
  unfold bind at 1.
  destruct (send_one_msg_run (peer_sock_fd peer) (peer_id peer) (-1) w1)
    as (n2 & w2 & H2 & X2 & _). rewrite H2.
  destruct (n2 <=? 0) eqn:L2; simpl.
  { destruct (debug_ret server (-1) w2) as (w2' & D & Do & Dt & _).
    exists (-1), w2', ([(Sendmsg (peer_sock_fd peer) ver None, n1)]
                       ++ [(Sendmsg (peer_sock_fd peer) (peer_id peer) None, n2)]).
    split; [exact D |].
    split; [exact (extends_after _ _ _ _ (extends_trans _ _ _ _ _ X1 X2) Do Dt) |].
    right. split; [reflexivity |].
    exists [(Sendmsg (peer_sock_fd peer) ver None, n1)],
           (Sendmsg (peer_sock_fd peer) (peer_id peer) None), n2.
    repeat split; simpl; auto; try lia. constructor; [simpl; lia | constructor]. }
  unfold bind at 1.
  destruct (send_one_msg_run (peer_sock_fd peer) (-1) (shm_fd server) w2)
    as (n3 & w3 & H3 & X3 & _). rewrite H3.
  pose proof (extends_trans _ _ _ _ _ (extends_trans _ _ _ _ _ X1 X2) X3) as X.
  destruct (n3 <=? 0) eqn:L3; simpl.
  { destruct (debug_ret server (-1) w3) as (w3' & D & Do & Dt & _).
    exists (-1), w3'. eexists. split; [exact D |].
    split; [exact (extends_after _ _ _ _ X Do Dt) |].
    right. split; [reflexivity |].
    exists [(Sendmsg (peer_sock_fd peer) ver None, n1);
            (Sendmsg (peer_sock_fd peer) (peer_id peer) None, n2)],
           (Sendmsg (peer_sock_fd peer) (-1) (cmsg_of (shm_fd server))), n3.
    repeat split; simpl; auto; try lia.
    repeat constructor; simpl; lia. }
  exists 0, w3. eexists. split; [reflexivity |]. split; [exact X |].
  left. repeat split. repeat constructor; simpl; lia.
Qed.

(** After the initial info nothing can make the handshake fail: with a
    registry in order, the rest runs to its end and advertises. *)
Lemma emits_advertisements (server : IvshmemServer)
    (peer : IvshmemServerPeer) (result : Z * IvshmemServer) :
  registry_ok server ->
  peer_vectors_count peer = n_vectors server ->
  List.length (peer_vectors peer) = n_vectors server ->
  emits
    (foreach (peer_list server) (fun other_peer =>
       for_loop (peer_vectors_count peer) 0 (fun i =>
         v <- read_vector peer i ;
         ivshmem_server_send_one_msg (peer_sock_fd other_peer)
           (peer_id peer) v ;;
         ret tt)) ;;
     foreach (peer_list server) (fun other_peer =>
       for_loop (peer_vectors_count peer) 0 (fun i =>
         v <- read_vector other_peer i ;
         ivshmem_server_send_one_msg (peer_sock_fd peer)
           (peer_id other_peer) v ;;
         ret tt)) ;;
     for_loop (peer_vectors_count peer) 0 (fun i =>
       v <- read_vector peer i ;
       ivshmem_server_send_one_msg (peer_sock_fd peer) (peer_id peer) v ;;
       ret tt) ;;
     note (QInsertTail peer) ;;
     IVSHMEM_SERVER_DEBUG server ;;
     ret result)
    (advertisements server peer ++ [QInsertTail peer]).
Proof.
  intros Hreg Hc Hl. unfold advertisements.
  rewrite <- !app_assoc.
  apply emits_bind.
  { apply emits_foreach. intros o _. apply emits_advertise. congruence. }
  intros _. apply emits_bind.
  { apply emits_foreach. intros o Ho. apply emits_advertise.
    unfold registry_ok in Hreg. rewrite Forall_forall in Hreg.
    destruct (Hreg o Ho) as (C & L). congruence. }
  intros _. apply emits_bind.
  { apply emits_advertise. congruence. }
  intros _. rewrite <- (app_nil_r [QInsertTail peer]).
  apply emits_bind; [apply emits_note |]. intros _.
  apply (emits_bind _ _ [] []); [apply emits_debug | intros _; apply emits_ret].
Qed.

(** A computation whose every path ends in [ret a] gives [a]. *)
Lemma bind_returns {A B} (m : M A) (k : A -> M B) (b : B) :
  (forall a w x w', k a w = Ret x w' -> x = b) ->
  forall w x w', bind m k w = Ret x w' -> x = b.
Proof.
  intros Hk w x w' H. unfold bind in H.
  destruct (m w) as [a w1 | w1 |]; try discriminate. eauto.
Qed.

(** Every way [ivshmem_server_handle_new_conn] can end. *)
Lemma handle_new_conn_result (ver : Z) (cap : nat) (server : IvshmemServer)
    (w : World) :
  match ivshmem_server_handle_new_conn ver cap server w with
  | Ret (r, server') w' => new_conn_outcome ver server w r server' w'
  | OutOfBounds w' =>
      ~ registry_ok server \/
      ((cap < n_vectors server)%nat /\
       exists newfd vs,
         extends w w' ((Accept4 (sock_fd server), newfd)
                       :: map (pair Eventfd) vs) /\
         List.length vs = S cap)
  | Unfinished => get_unused_id server = None \/ ~ registry_ok server
  end.
Proof.
  unfold ivshmem_server_handle_new_conn. unfold bind at 1.
  destruct (syscall_run (Accept4 (sock_fd server)) w)
    as (newfd & w1 & H1 & X1 & Hnew & Herr). rewrite H1.
  destruct (newfd <? 0) eqn:Hneg.
  { destruct (debug_ret server (-1, server) w1) as (w1' & D & Do & Dt & De).
    rewrite D. apply accept_failed with (newfd := newfd);
      [lia | exact (extends_after _ _ _ _ X1 Do Dt) | exact Hnew |].
    rewrite De. destruct (verbose server); [| exact Herr].
    destruct X1 as [Xo Xt]. now rewrite Xo, Dt. }
  unfold bind at 1.
  destruct (debug_run server w1) as (w1' & D & Do & Dt & _). rewrite D.
  pose proof (extends_after _ _ _ _ X1 Do Dt) as X1'. clear X1 D Do Dt Herr.
  destruct (get_unused_id server) as [unused |] eqn:Hid;
    [| unfold unfinished; now left].
  unfold bind at 1.
  match goal with
  | |- context [create_eventfds ?c ?s ?n ?i ?p ?w0] =>
      pose proof (create_eventfds_run c s n i p w0 eq_refl (Nat.le_0_l _)) as C;
      destruct (create_eventfds c s n i p w0) as [[[completed j] peer'] w2 | w2 |]
  end; [| | contradiction].
  2: { right. destruct C as (Hlt & vs & X2 & Hlen). split; [exact Hlt |].
       exists newfd, vs. split; [exact (extends_trans _ _ _ _ _ X1' X2) |].
       exact Hlen. }
  simpl in C. destruct C as (vs & -> & X2 & Hc). cbv iota beta.
  destruct Hc as [(-> & -> & Hl & Hf & Hroom)
                 | (-> & good & bad & -> & Hg & Hb & -> & Hl)];
    cbn [negb Nat.add].
  2: { (* an eventfd could not be had *)
    destruct (handle_new_conn_fail_run
                (set_cur_id server (wrap_long (unused + 1)))
                (mkPeer newfd unused (good ++ [bad]) (n_vectors server))
                newfd (List.length good) w2) as (w' & tl & H3 & X3 & M3).
    { simpl. rewrite length_app. lia. }
    rewrite H3. simpl in M3.
    rewrite firstn_app, firstn_all, Nat.sub_diag, firstn_O, app_nil_r in M3.
    apply (eventfd_failed ver server w newfd unused good bad tl w');
      [lia | exact Hid | exact Hg | exact Hb | exact Hl | | exact M3].
    exact (extends_trans _ _ _ _ _ X1' (extends_trans _ _ _ _ _ X2 X3)). }
  unfold bind at 1.
  destruct (send_initial_info_run ver
              (set_cur_id server (wrap_long (unused + 1)))
              (mkPeer newfd unused vs (n_vectors server)) w2)
    as (r & w3 & evs & H3 & X3 & Hr).
  rewrite H3.
  destruct Hr as [(-> & Hok & Mi) | (-> & sent & lost & n & -> & Hok & Hn & Hk & Mi)];
    [change (0 <? 0) with false | change (-1 <? 0) with true]; cbv iota.
  2: { (* one of the first three messages was not sent *)
    unfold bind at 1.
    destruct (debug_run (set_cur_id server (wrap_long (unused + 1))) w3)
      as (w3' & D & Do & Dt & _). rewrite D.
    pose proof (extends_after _ _ _ _ X3 Do Dt) as X3'.
    destruct (handle_new_conn_fail_run
                (set_cur_id server (wrap_long (unused + 1)))
                (mkPeer newfd unused vs (n_vectors server))
                newfd (n_vectors server) w3') as (w' & tl & H4 & X4 & M4).
    { simpl. lia. }
    rewrite H4. simpl in M4.
    replace (firstn (n_vectors server) vs) with vs in M4
      by (rewrite <- Hl; symmetry; apply firstn_all).
    apply (initial_info_failed ver server w newfd unused vs sent lost n tl w');
      [lia | exact Hid | exact Hf | exact Hl | exact Hok | exact Hn | exact Hk
      | exact Mi | | ].
    - exact (extends_trans _ _ _ _ _ X1'
               (extends_trans _ _ _ _ _ X2 (extends_trans _ _ _ _ _ X3' X4))).
    - exact M4. }
  (* the peer is in *)
  match goal with
  | |- match ?T w3 with _ => _ end => set (rest := T)
  end.
  assert (Hval : forall x w', rest w3 = Ret x w' ->
            x = (0, set_peer_list (set_cur_id server (wrap_long (unused + 1)))
                      (peer_list server
                       ++ [mkPeer newfd unused vs (n_vectors server)]))).
  { intros x w'. subst rest.
    repeat (apply bind_returns; intros ? ?). intros x' w'' E. now inversion E. }
  assert (Hem : registry_ok server -> exists x w' tl,
            rest w3 = Ret x w' /\ extends w3 w' tl /\
            map fst tl
            = advertisements server (mkPeer newfd unused vs (n_vectors server))
              ++ [QInsertTail (mkPeer newfd unused vs (n_vectors server))]).
  { intros Hreg. subst rest.
    exact (emits_advertisements (set_cur_id server (wrap_long (unused + 1)))
             (mkPeer newfd unused vs (n_vectors server)) _ Hreg eq_refl Hl w3). }
  destruct (rest w3) as [[r server'] w' | w' |] eqn:Hrest.
  - specialize (Hval _ _ eq_refl). inversion Hval; subst r server'.
    apply (connected ver server w newfd unused vs evs w');
      [lia | exact Hid | exact Hf | exact Hl | exact Hok | exact Mi |].
    intros Hreg. destruct (Hem Hreg) as (x & w'' & tl & E & X4 & M4).
    inversion E; subst x w''. exists tl. split; [| exact M4].
    exact (extends_trans _ _ _ _ _ X1'
             (extends_trans _ _ _ _ _ X2 (extends_trans _ _ _ _ _ X3 X4))).
  - left. intros Hreg. destruct (Hem Hreg) as (x & w'' & tl & E & _). discriminate.
  - right. intros Hreg. destruct (Hem Hreg) as (x & w'' & tl & E & _). discriminate.
Qed.

(** ** Identifiers *)

Lemma wrap_long_range (z : Z) : - 2 ^ 63 <= wrap_long z < 2 ^ 63.
Proof.
  unfold wrap_long.
  pose proof (Z.mod_pos_bound (z + 2 ^ 63) (2 ^ 64) eq_refl). lia.
Qed.

Lemma wrap_long_id (z : Z) : - 2 ^ 63 <= z < 2 ^ 63 -> wrap_long z = z.
Proof.
  intros H. unfold wrap_long. rewrite Z.mod_small; lia.
Qed.

Lemma wrap_long_add (a b : Z) : wrap_long (wrap_long a + b) = wrap_long (a + b).
Proof.
  unfold wrap_long.
  replace ((a + 2 ^ 63) mod 2 ^ 64 - 2 ^ 63 + b + 2 ^ 63)
    with ((a + 2 ^ 63) mod 2 ^ 64 + b) by lia.
  rewrite Zplus_mod_idemp_l. do 2 f_equal. lia.
Qed.

(** Two numbers less than [2^64] apart wrap to different values. *)
Lemma wrap_long_inj (a b : Z) :
  - 2 ^ 64 < a - b < 2 ^ 64 -> wrap_long a = wrap_long b -> a = b.
Proof.
  unfold wrap_long. intros Hd He.
  pose proof (Z.div_mod (a + 2 ^ 63) (2 ^ 64) ltac:(lia)) as Da.
  pose proof (Z.div_mod (b + 2 ^ 63) (2 ^ 64) ltac:(lia)) as Db.
  assert (Hm : (a + 2 ^ 63) mod 2 ^ 64 = (b + 2 ^ 63) mod 2 ^ 64) by lia.
  rewrite Hm in Da.
  change (2 ^ 64) with 18446744073709551616 in *.
  change (2 ^ 63) with 9223372036854775808 in *.
  lia.
Qed.

Lemma candidate_wrap (k : nat) :
  forall c, candidate c (S k) = wrap_long (c + Z.of_nat (S k)).
Proof.
  induction k as [| k IH]; intros c.
  - reflexivity.
  - change (candidate c (S (S k))) with (candidate (wrap_long (c + 1)) (S k)).
    rewrite IH, wrap_long_add. f_equal. lia.
Qed.

Lemma candidate_in_range (c : Z) (k : nat) :
  - 2 ^ 63 <= c < 2 ^ 63 -> candidate c k = wrap_long (c + Z.of_nat k).
Proof.
  intros Hc. destruct k as [| k].
  - simpl. rewrite Z.add_0_r. symmetry. now apply wrap_long_id.
  - apply candidate_wrap.
Qed.

Lemma search_peer_None (server : IvshmemServer) (u : Z) :
  ivshmem_server_search_peer server u = None <-> ~ In u (ids server).
Proof.
  unfold ivshmem_server_search_peer, ids.
  induction (peer_list server) as [| p t IH]; simpl.
  - tauto.
  - destruct (peer_id p =? u) eqn:E.
    + split; [discriminate |]. intros H. exfalso. apply H. left. lia.
    + rewrite IH. split; [intros H [H1 | H1]; [lia | tauto] | tauto].
Qed.

Lemma search_peer_Some (server : IvshmemServer) (u : Z)
    (p : IvshmemServerPeer) :
  ivshmem_server_search_peer server u = Some p ->
  In p (peer_list server) /\ peer_id p = u.
Proof.
  unfold ivshmem_server_search_peer. intros H.
  apply find_some in H. destruct H as [H1 H2]. split; [exact H1 | lia].
Qed.

(** The probe ends on the first candidate that no peer holds. *)
Lemma probe_id_Some (server : IvshmemServer) (fuel : nat) :
  forall c u,
    probe_id fuel server c = Some u ->
    exists k, (k < fuel)%nat /\ u = candidate c k /\ ~ In u (ids server) /\
              forall j, (j < k)%nat -> In (candidate c j) (ids server).
Proof.
  induction fuel as [| fuel IH]; intros c u H; simpl in H; [discriminate |].
  destruct (ivshmem_server_search_peer server c) as [p |] eqn:E.
  - destruct (IH _ _ H) as (k & Hk & Hu & Hn & Hj).
    exists (S k). repeat split; auto; [lia |].
    intros [| j] Hlt; simpl.
    + apply search_peer_Some in E. destruct E as [E1 E2].
      unfold ids. rewrite <- E2. now apply in_map.
    + apply Hj. lia.
  - inversion H; subst u. exists O. repeat split; try lia.
    now apply search_peer_None.
Qed.

Lemma probe_id_None (server : IvshmemServer) (fuel : nat) :
  forall c,
    probe_id fuel server c = None ->
    forall j, (j < fuel)%nat -> In (candidate c j) (ids server).
Proof.
  induction fuel as [| fuel IH]; intros c H j Hj; [lia |]. simpl in H.
  destruct (ivshmem_server_search_peer server c) as [p |] eqn:E;
    [| discriminate].
  destruct j as [| j]; simpl.
  - apply search_peer_Some in E. destruct E as [E1 E2].
    unfold ids. rewrite <- E2. now apply in_map.
  - apply (IH _ H). lia.
Qed.

Lemma get_unused_id_free (server : IvshmemServer) (u : Z) :
  get_unused_id server = Some u -> ~ In u (ids server).
Proof.
  intros H. apply probe_id_Some in H. now destruct H as (k & _ & _ & H & _).
Qed.

Lemma candidates_NoDup (c : Z) (n : nat) :
  - 2 ^ 63 <= c < 2 ^ 63 -> Z.of_nat n <= 2 ^ 64 ->
  NoDup (map (candidate c) (seq 0 n)).
Proof.
  intros Hc Hn. apply NoDup_map_NoDup_ForallPairs; [| apply seq_NoDup].
  intros i j Hi Hj E. apply in_seq in Hi, Hj.
  rewrite !candidate_in_range in E by exact Hc.
  apply wrap_long_inj in E; lia.
Qed.

(** With fewer than [2^64] peers the probe finds an identifier: the
    loop ends. *)
Lemma probe_id_total (server : IvshmemServer) :
  - 2 ^ 63 <= cur_id server < 2 ^ 63 ->
  Z.of_nat (List.length (peer_list server)) < 2 ^ 64 ->
  exists u, get_unused_id server = Some u.
Proof.
  intros Hc Hn. unfold get_unused_id.
  destruct (probe_id (S (List.length (peer_list server))) server (cur_id server))
    as [u |] eqn:E; [now exists u |].
  exfalso.
  pose proof (probe_id_None _ _ _ E) as Hall.
  assert (Hincl : incl (map (candidate (cur_id server))
                            (seq 0 (S (List.length (peer_list server)))))
                       (ids server)).
  { intros x Hx. apply in_map_iff in Hx. destruct Hx as (j & <- & Hj).
    apply in_seq in Hj. apply Hall. lia. }
  apply NoDup_incl_length in Hincl.
  - rewrite length_map, length_seq in Hincl. unfold ids in Hincl.
    rewrite length_map in Hincl. lia.
  - apply candidates_NoDup; [exact Hc | lia].
Qed.

(** ** Disconnection *)

Lemma qtailq_remove_In (p x : IvshmemServerPeer) (l : list IvshmemServerPeer) :
  In x (qtailq_remove p l) -> In x l.
Proof.
  induction l as [| y t IH]; simpl; [tauto |].
  destruct (peer_eq_dec p y); simpl; tauto.
Qed.

Lemma qtailq_remove_other (p x : IvshmemServerPeer)
    (l : list IvshmemServerPeer) :
  In x l -> x <> p -> In x (qtailq_remove p l).
Proof.
  induction l as [| y t IH]; simpl; [tauto |].
  intros [E | H] Hne; destruct (peer_eq_dec p y) as [E' | E']; simpl; auto;
    congruence.
Qed.

Lemma qtailq_remove_Forall (P : IvshmemServerPeer -> Prop)
    (p : IvshmemServerPeer) (l : list IvshmemServerPeer) :
  Forall P l -> Forall P (qtailq_remove p l).
Proof.
  rewrite !Forall_forall. intros H x Hx. apply H.
  eapply qtailq_remove_In; eauto.
Qed.

Lemma qtailq_remove_NoDup (p : IvshmemServerPeer) (l : list IvshmemServerPeer) :
  NoDup (map peer_id l) -> NoDup (map peer_id (qtailq_remove p l)).
Proof.
  induction l as [| y t IH]; simpl; [auto |].
  intros H. inversion H as [| ? ? Hn Ht]; subst.
  destruct (peer_eq_dec p y); simpl; [exact Ht |].
  constructor; [| auto].
  intros Hin. apply Hn. apply in_map_iff in Hin.
  destruct Hin as (x & Hx & Hin). rewrite <- Hx. apply in_map.
  eapply qtailq_remove_In; eauto.
Qed.

(** With pairwise distinct ids, the peer that left is not there any
    more. *)
Lemma qtailq_remove_gone (p : IvshmemServerPeer) (l : list IvshmemServerPeer) :
  NoDup (map peer_id l) -> ~ In p (qtailq_remove p l).
Proof.
  induction l as [| y t IH]; simpl; [tauto |].
  intros H. inversion H as [| ? ? Hn Ht]; subst.
  destruct (peer_eq_dec p y) as [-> | Hne]; simpl.
  - intros Hin. apply Hn. now apply in_map.
  - intros [-> | Hin]; [congruence | now apply IH].
Qed.

Lemma qtailq_remove_length (p : IvshmemServerPeer)
    (l : list IvshmemServerPeer) :
  (List.length (qtailq_remove p l) <= List.length l)%nat.
Proof.
  induction l as [| y t IH]; simpl; [lia |].
  destruct (peer_eq_dec p y); simpl; lia.
Qed.

Lemma emits_close_all (peer : IvshmemServerPeer) (n : nat) :
  n = List.length (peer_vectors peer) ->
  emits (for_loop n 0 (fun vector =>
           v <- read_vector peer vector ;
           syscall (Close v) ;;
           ret tt))
        (map Close (peer_vectors peer)).
Proof.
  intros ->.
  replace (map Close (peer_vectors peer))
    with (flat_map (fun v => [Close v]) (peer_vectors peer))
    by (induction (peer_vectors peer); simpl; congruence).
  rewrite <- flat_map_seq_nth.
  apply emits_for_loop. intros j Hj.
  destruct (nth_error (peer_vectors peer) j) as [v |] eqn:E.
  - rewrite (bind_read_vector _ _ _ _ E).
    change [Close v] with ([Close v] ++ []).
    apply emits_bind; [apply emits_syscall | intros _; apply emits_ret].
  - apply nth_error_None in E. lia.
Qed.

Lemma goodbyes_flat_map (peer : IvshmemServerPeer)
    (l : list IvshmemServerPeer) :
  goodbyes peer l
  = flat_map (fun other =>
      [Sendmsg (peer_sock_fd other) (peer_id peer) (cmsg_of (-1))] ++ []) l.
Proof.
  unfold goodbyes. induction l as [| o t IH]; simpl; [reflexivity |].
  now rewrite IH.
Qed.

(** If [ivshmem_server_free_peer] ends, the server it leaves has lost
    the peer and nothing else. *)
Lemma free_peer_server (server : IvshmemServer) (peer : IvshmemServerPeer)
    (w : World) (server' : IvshmemServer) (w' : World) :
  ivshmem_server_free_peer server peer w = Ret server' w' ->
  server' = set_peer_list server (qtailq_remove peer (peer_list server)).
Proof.
  unfold ivshmem_server_free_peer. revert w server' w'.
  repeat (apply bind_returns; intros ? ?).
  intros x w' E. now inversion E.
Qed.

(** It ends whenever the peer has as many vectors stored as it counts,
    and does this, in this order. *)
Lemma free_peer_run (server : IvshmemServer) (peer : IvshmemServerPeer)
    (w : World) :
  List.length (peer_vectors peer) = peer_vectors_count peer ->
  exists w' evs,
    ivshmem_server_free_peer server peer w
      = Ret (set_peer_list server (qtailq_remove peer (peer_list server))) w' /\
    extends w w' evs /\
    map fst evs
      = [Close (peer_sock_fd peer); QRemove peer]
        ++ goodbyes peer (qtailq_remove peer (peer_list server))
        ++ map Close (peer_vectors peer)
        ++ [GFree peer].
Proof.
  intros Hl.
  assert (E : emits (ivshmem_server_free_peer server peer)
                ([Close (peer_sock_fd peer)] ++ [QRemove peer]
                 ++ goodbyes peer (qtailq_remove peer (peer_list server))
                 ++ map Close (peer_vectors peer)
                 ++ [GFree peer] ++ [])).
  { unfold ivshmem_server_free_peer.
    refine (emits_bind _ _ [] _ (emits_debug _) _). intros _.
    apply emits_bind; [apply emits_syscall | intros _].
    apply emits_bind; [apply emits_note | intros _].
    apply emits_bind.
    { rewrite goodbyes_flat_map.
      apply emits_foreach. intros o _.
      apply emits_bind; [apply emits_send_one_msg | intros _; apply emits_ret]. }
    intros _. apply emits_bind; [apply emits_close_all; auto | intros _].
    apply emits_bind; [apply emits_note | intros _; apply emits_ret]. }
  destruct (E w) as (s' & w' & evs & H & X & Mf).
  pose proof (free_peer_server _ _ _ _ _ H) as ->.
  exists w', evs. split; [exact H |]. split; [exact X |].
  rewrite Mf. simpl. rewrite ?app_nil_r. reflexivity.
Qed.

(** ** What every sequence of connections and disconnections keeps *)

Lemma new_conn_outcome_invariant (ver : Z) (server : IvshmemServer) (w : World)
    (r : Z) (server' : IvshmemServer) (w' : World) :
  new_conn_outcome ver server w r server' w' ->
  invariant server ->
  invariant server' /\ n_vectors server' = n_vectors server.
Proof.
  intros H (Hn & Ho & Hv).
  destruct H as [ newfd w' _ _ _
                | newfd unused good bad tl w' _ _ _ _ _ _ _
                | newfd unused vs sent lost n tl w' _ _ _ _ _ _ _ _ _ _
                | newfd unused vs sent w' _ Hid Hf Hl _ _ _ ].
  - repeat split; assumption.
  - repeat split; assumption.
  - repeat split; assumption.
  - split; [| reflexivity].
    unfold invariant, ids, registry_ok, registry_valid. simpl.
    rewrite map_app. repeat split.
    + simpl. apply NoDup_app; [exact Hn | repeat constructor; simpl; tauto |].
      intros x Hx [<- | []]. now apply (get_unused_id_free _ _ Hid).
    + apply Forall_app. split; [exact Ho |].
      repeat constructor; simpl; auto.
    + apply Forall_app. split; [exact Hv |].
      repeat constructor; simpl; auto.
Qed.

Lemma free_peer_invariant (server : IvshmemServer) (peer : IvshmemServerPeer)
    (w : World) (server' : IvshmemServer) (w' : World) :
  ivshmem_server_free_peer server peer w = Ret server' w' ->
  invariant server ->
  invariant server' /\ n_vectors server' = n_vectors server.
Proof.
  intros H (Hn & Ho & Hv). apply free_peer_server in H. subst server'.
  split; [| reflexivity].
  unfold invariant, ids, registry_ok, registry_valid. simpl. repeat split.
  - now apply qtailq_remove_NoDup.
  - now apply qtailq_remove_Forall.
  - now apply qtailq_remove_Forall.
Qed.

Lemma apply_op_invariant (ver : Z) {cap : nat} (o : op) (server : IvshmemServer)
    (w : World)
    (server' : IvshmemServer) (w' : World) :
  apply_op ver cap o server w = Ret server' w' ->
  invariant server ->
  invariant server' /\ n_vectors server' = n_vectors server.
Proof.
  destruct o as [| k]; simpl; intros H Hi.
  - unfold bind in H.
    pose proof (handle_new_conn_result ver cap server w) as Hr.
    destruct (ivshmem_server_handle_new_conn ver cap server w)
      as [[r s1] w1 | w1 |]; try discriminate.
    unfold ret in H. inversion H; subst server' w'. simpl.
    eapply new_conn_outcome_invariant; eauto.
  - destruct (nth_error (peer_list server) k) as [p |].
    + eapply free_peer_invariant; eauto.
    + unfold ret in H. inversion H; subst. auto.
Qed.

Lemma run_invariant (ver : Z) {cap : nat} (ops : list op) :
  forall (server : IvshmemServer) (w : World) (server' : IvshmemServer)
         (w' : World),
    run ver cap ops server w = Ret server' w' ->
    invariant server ->
    invariant server' /\ n_vectors server' = n_vectors server.
Proof.
  induction ops as [| o rest IH]; intros server w server' w' H Hi; simpl in H.
  - unfold ret in H. inversion H; subst. auto.
  - unfold bind in H.
    destruct (apply_op ver cap o server w) as [s1 w1 | w1 |] eqn:E;
      try discriminate.
    destruct (apply_op_invariant _ _ _ _ _ _ E Hi) as [Hi1 Hn1].
    destruct (IH _ _ _ _ H Hi1) as [Hi2 Hn2]. split; [exact Hi2 | congruence].
Qed.

Lemma fresh_invariant (server : IvshmemServer) :
  fresh server -> invariant server.
Proof.
  intros [Hp _]. unfold invariant, ids, registry_ok, registry_valid.
  rewrite Hp. simpl. repeat split; constructor.
Qed.

(** What a completed handshake leaves in the server. *)
Lemma connected_server (ver : Z) {cap : nat} (server : IvshmemServer)
    (w : World)
    (server' : IvshmemServer) (w' : World) :
  ivshmem_server_handle_new_conn ver cap server w = Ret (0, server') w' ->
  exists peer,
    get_unused_id server = Some (peer_id peer) /\
    peer_list server' = peer_list server ++ [peer] /\
    cur_id server' = wrap_long (peer_id peer + 1).
Proof.
  intros H. pose proof (handle_new_conn_result ver cap server w) as R.
  rewrite H in R.
  inversion R as [ | | | newfd unused vs sent ? _ U _ _ _ _ _ ]; subst.
  exists (mkPeer newfd unused vs (n_vectors server)).
  split; [exact U |]. split; reflexivity.
Qed.

(** The probe stops at once on a counter that no peer holds. *)
Lemma get_unused_id_cur (server : IvshmemServer) :
  ~ In (cur_id server) (ids server) ->
  get_unused_id server = Some (cur_id server).
Proof.
  intros H. apply search_peer_None in H.
  unfold get_unused_id. simpl. now rewrite H.
Qed.

(** ** Who is sent what *)

Lemma flat_map_ext_In {A B} (f g : A -> list B) (l : list A) :
  (forall x, In x l -> f x = g x) -> flat_map f l = flat_map g l.
Proof.
  induction l as [| x t IH]; intros H; simpl; [reflexivity |].
  rewrite H by now left. f_equal. apply IH. intros y Hy. apply H. now right.
Qed.

Lemma cmsg_of_valid (v : Z) : 0 <= v -> cmsg_of v = Some v.
Proof. intros H. unfold cmsg_of. destruct (v >=? 0) eqn:E; [reflexivity | lia]. Qed.

Lemma advertise_valid (sock id : Z) (vs : list Z) :
  Forall (fun v => 0 <= v) vs ->
  advertise sock id vs = map (fun v => Sendmsg sock id (Some v)) vs.
Proof.
  unfold advertise. induction 1 as [| v t Hv _ IH]; simpl; [reflexivity |].
  now rewrite IH, cmsg_of_valid.
Qed.

Lemma sent_to_app (sock : Z) (a b : list action) :
  sent_to sock (a ++ b) = sent_to sock a ++ sent_to sock b.
Proof. apply flat_map_app. Qed.

Lemma sent_to_same (sock id : Z) (cs : list (option Z)) :
  sent_to sock (map (fun c => Sendmsg sock id c) cs) = map (pair id) cs.
Proof.
  induction cs as [| c t IH]; simpl; [reflexivity |].
  rewrite Z.eqb_refl. simpl. now rewrite IH.
Qed.

Lemma sent_to_other (sock sock' id : Z) (cs : list (option Z)) :
  sock' <> sock ->
  sent_to sock (map (fun c => Sendmsg sock' id c) cs) = [].
Proof.
  intros Hne. induction cs as [| c t IH]; simpl; [reflexivity |].
  destruct (sock' =? sock) eqn:E; [lia | exact IH].
Qed.

(** Actions that are not messages are sent to nobody. *)
Lemma sent_to_silent (sock : Z) (acts : list action) :
  Forall (fun a => is_send a = false) acts -> sent_to sock acts = [].
Proof.
  induction 1 as [| a t Ha _ IH]; simpl; [reflexivity |].
  destruct a; simpl in Ha; try discriminate; exact IH.
Qed.

Lemma sends_app (a b : list action) : sends (a ++ b) = sends a ++ sends b.
Proof. apply filter_app. Qed.

Lemma sends_silent (acts : list action) :
  Forall (fun a => is_send a = false) acts -> sends acts = [].
Proof.
  induction 1 as [| a t Ha _ IH]; simpl; [reflexivity |].
  unfold sends in *. simpl. now rewrite Ha.
Qed.

Lemma sends_all (acts : list action) :
  Forall (fun a => is_send a = true) acts -> sends acts = acts.
Proof.
  induction 1 as [| a t Ha _ IH]; simpl; [reflexivity |].
  unfold sends in *. simpl. now rewrite Ha, IH.
Qed.

Lemma map_Close_silent (fds : list Z) :
  Forall (fun a => is_send a = false) (map Close fds).
Proof. induction fds; simpl; constructor; auto. Qed.

Lemma advertise_all_sends (sock id : Z) (vs : list Z) :
  Forall (fun a => is_send a = true) (advertise sock id vs).
Proof. unfold advertise. induction vs; simpl; constructor; auto. Qed.

Lemma flat_map_all_sends {A} (f : A -> list action) (l : list A) :
  (forall x, Forall (fun a => is_send a = true) (f x)) ->
  Forall (fun a => is_send a = true) (flat_map f l).
Proof.
  intros H. induction l as [| x t IH]; simpl; [constructor |].
  apply Forall_app. split; auto.
Qed.

(** Among peers with pairwise distinct sockets, a socket picks its
    peer. *)
Lemma sent_to_flat_map_unique (sock : Z) (f : IvshmemServerPeer -> list action)
    (l : list IvshmemServerPeer) (o : IvshmemServerPeer) :
  NoDup (map peer_sock_fd l) ->
  In o l ->
  (forall x, peer_sock_fd x <> peer_sock_fd o ->
             sent_to (peer_sock_fd o) (f x) = []) ->
  sent_to (peer_sock_fd o) (flat_map f l) = sent_to (peer_sock_fd o) (f o).
Proof.
  intros Hn Hin Hf. induction l as [| x t IH]; [contradiction |].
  simpl in *. inversion Hn as [| ? ? Hx Ht]; subst.
  rewrite sent_to_app. destruct Hin as [-> | Hin].
  - replace (sent_to (peer_sock_fd o) (flat_map f t)) with (@nil (Z * option Z));
      [now rewrite app_nil_r |].
    symmetry. clear IH Hn Ht. induction t as [| y t IH]; simpl; [reflexivity |].
    rewrite sent_to_app, Hf, IH; auto.
    + intros H. apply Hx. now right.
    + intros E. apply Hx. left. exact E.
  - rewrite Hf, IH; auto.
    intros E. apply Hx. rewrite E. now apply in_map.
Qed.

Lemma sent_to_flat_map_none (sock : Z) (f : IvshmemServerPeer -> list action)
    (l : list IvshmemServerPeer) :
  (forall x, In x l -> sent_to sock (f x) = []) ->
  sent_to sock (flat_map f l) = [].
Proof.
  intros Hf. induction l as [| x t IH]; simpl; [reflexivity |].
  rewrite sent_to_app. rewrite Hf by now left.
  rewrite IH; [reflexivity | intros; apply Hf; now right].
Qed.

Lemma qtailq_remove_NoDup_map (f : IvshmemServerPeer -> Z)
    (p : IvshmemServerPeer) (l : list IvshmemServerPeer) :
  NoDup (map f l) ->
  NoDup (map f (qtailq_remove p l)) /\
  (In p l -> ~ In (f p) (map f (qtailq_remove p l))).
Proof.
  induction l as [| y t IH]; simpl; [split; [auto | tauto] |].
  intros H. inversion H as [| ? ? Hn Ht]; subst.
  destruct (IH Ht) as [IH1 IH2].
  destruct (peer_eq_dec p y) as [-> | Hne]; simpl.
  - split; [exact Ht | intros _; exact Hn].
  - split.
    + constructor; [| exact IH1].
      intros Hin. apply Hn. apply in_map_iff in Hin.
      destruct Hin as (x & Hx & Hin). rewrite <- Hx. apply in_map.
      eapply qtailq_remove_In; eauto.
    + intros [E | Hin]; [congruence |].
      intros [E | Hin']; [| now apply IH2].
      apply Hn. rewrite E. now apply in_map.
Qed.

Lemma goodbyes_each (peer : IvshmemServerPeer) (l : list IvshmemServerPeer) :
  goodbyes peer l
  = flat_map (fun other =>
                [Sendmsg (peer_sock_fd other) (peer_id peer) None]) l.
Proof.
  unfold goodbyes. induction l as [| o t IH]; simpl; [reflexivity |].
  now rewrite IH.
Qed.

Lemma sent_to_goodbye_other (sock : Z) (peer other : IvshmemServerPeer) :
  peer_sock_fd other <> sock ->
  sent_to sock [Sendmsg (peer_sock_fd other) (peer_id peer) None] = [].
Proof.
  intros H. simpl. destruct (peer_sock_fd other =? sock) eqn:E; [lia | reflexivity].
Qed.

(** ** Reads of the vector arrays *)



(** The model does tell a read out of bounds when there is one. *)
Example short_vector_array_read :
  exists w', ivshmem_server_handle_new_conn 0 64 server_short_peer
               (world_of os_ok) = OutOfBounds w'.
Proof. eexists. vm_compute. reflexivity. Qed.

(** With a registry in order and fewer than [2^64] peers, a connection
    is handled to its end. *)
Lemma handle_new_conn_total (ver : Z) {cap : nat} (server : IvshmemServer)
    (w : World) :
  registry_ok server ->
  (n_vectors server <= cap)%nat ->
  - 2 ^ 63 <= cur_id server < 2 ^ 63 ->
  Z.of_nat (List.length (peer_list server)) < 2 ^ 64 ->
  exists r server' w',
    ivshmem_server_handle_new_conn ver cap server w = Ret (r, server') w'.
Proof.
  intros Hreg Hcap Hc Hn.
  pose proof (handle_new_conn_result ver cap server w) as R.
  destruct (ivshmem_server_handle_new_conn ver cap server w)
    as [[r server'] w' | w' |].
  - now exists r, server', w'.
  - destruct R as [R | [R _]]; [contradiction | lia].
  - destruct R as [R | R]; [| contradiction].
    destruct (probe_id_total server Hc Hn) as [u Hu]. congruence.
Qed.

(** ** Reading the log *)

Lemma allocated_app (a b : list event) :
  allocated (a ++ b) = allocated a ++ allocated b.
Proof. apply flat_map_app. Qed.

Lemma closed_app (a b : list action) : closed (a ++ b) = closed a ++ closed b.
Proof. apply flat_map_app. Qed.

Lemma freed_app (a b : list action) : freed (a ++ b) = freed a ++ freed b.
Proof. apply flat_map_app. Qed.

Lemma inserted_app (a b : list action) :
  inserted (a ++ b) = inserted a ++ inserted b.
Proof. apply flat_map_app. Qed.

Lemma allocated_eventfds (vs : list Z) :
  Forall (fun v => 0 <= v) vs -> allocated (map (pair Eventfd) vs) = vs.
Proof.
  induction 1 as [| v t Hv _ IH]; simpl; [reflexivity |].
  destruct (v <? 0) eqn:E; [lia |]. simpl. f_equal. exact IH.
Qed.

Lemma allocated_none (evs : list event) :
  Forall (fun a => is_eventfd a = false) (map fst evs) -> allocated evs = [].
Proof.
  induction evs as [| [a v] t IH]; simpl; intros H; [reflexivity |].
  inversion H as [| ? ? Ha Ht]; subst. simpl in Ha.
  destruct a; try discriminate; simpl; auto.
Qed.

Lemma closed_map_Close (fds : list Z) : closed (map Close fds) = fds.
Proof. induction fds as [| x t IH]; simpl; [reflexivity | now rewrite IH]. Qed.

Lemma closed_none (acts : list action) :
  Forall (fun a => is_close a = false) acts -> closed acts = [].
Proof.
  induction 1 as [| a t Ha _ IH]; simpl; [reflexivity |].
  destruct a; try discriminate; simpl; auto.
Qed.

Lemma freed_sends (acts : list action) :
  Forall (fun a => is_send a = true) acts -> freed acts = [].
Proof.
  induction 1 as [| a t Ha _ IH]; simpl; [reflexivity |].
  destruct a; try discriminate; simpl; auto.
Qed.

Lemma inserted_sends (acts : list action) :
  Forall (fun a => is_send a = true) acts -> inserted acts = [].
Proof.
  induction 1 as [| a t Ha _ IH]; simpl; [reflexivity |].
  destruct a; try discriminate; simpl; auto.
Qed.

Lemma freed_map_Close (fds : list Z) : freed (map Close fds) = [].
Proof. induction fds; simpl; auto. Qed.

Lemma inserted_map_Close (fds : list Z) : inserted (map Close fds) = [].
Proof. induction fds; simpl; auto. Qed.

Lemma freed_eventfds (vs : list Z) :
  freed (map (fun _ : Z => Eventfd) vs) = [].
Proof. induction vs; simpl; auto. Qed.

Lemma inserted_eventfds (vs : list Z) :
  inserted (map (fun _ : Z => Eventfd) vs) = [].
Proof. induction vs; simpl; auto. Qed.

Lemma sends_not_eventfd (acts : list action) :
  Forall (fun a => is_send a = true) acts ->
  Forall (fun a => is_eventfd a = false) acts.
Proof.
  apply Forall_impl. intros a H. destruct a; try discriminate; reflexivity.
Qed.

Lemma sends_not_close (acts : list action) :
  Forall (fun a => is_send a = true) acts ->
  Forall (fun a => is_close a = false) acts.
Proof.
  apply Forall_impl. intros a H. destruct a; try discriminate; reflexivity.
Qed.

Lemma map_fst_eventfds (vs : list Z) :
  map fst (map (pair Eventfd) vs) = map (fun _ => Eventfd) vs.
Proof. now rewrite map_map. Qed.

Lemma eventfds_only (vs : list Z) (p : action -> bool) :
  p Eventfd = false ->
  Forall (fun a => p a = false) (map (fun _ : Z => Eventfd) vs).
Proof. intros H. induction vs; simpl; constructor; auto. Qed.

Lemma unwinding_not_eventfd (peer : IvshmemServerPeer) (vs : list Z) :
  Forall (fun a => is_eventfd a = false) (unwinding peer vs).
Proof.
  unfold unwinding. apply Forall_app. split.
  - induction (rev vs); simpl; constructor; auto.
  - repeat constructor.
Qed.

Lemma initial_info_all_sends (ver : Z) (server : IvshmemServer)
    (peer : IvshmemServerPeer) :
  Forall (fun a => is_send a = true) (initial_info ver server peer).
Proof. repeat constructor. Qed.

Lemma advertisements_all_sends (server : IvshmemServer)
    (peer : IvshmemServerPeer) :
  Forall (fun a => is_send a = true) (advertisements server peer).
Proof.
  unfold advertisements. rewrite !Forall_app. repeat split.
  - apply flat_map_all_sends. intros. apply advertise_all_sends.
  - apply flat_map_all_sends. intros. apply advertise_all_sends.
  - apply advertise_all_sends.
Qed.

Lemma firstn_Forall {A} (P : A -> Prop) (n : nat) (l : list A) :
  Forall P l -> Forall P (firstn n l).
Proof.
  intros H. revert n. induction H as [| x t Hx _ IH]; intros [| n]; simpl;
    constructor; auto.
Qed.

(** The log of a handshake that was given up after [accept4] gave
    [newfd]: what it allocated it closed, last first, then the socket,
    then it freed the structure; it inserted nothing. *)
Lemma unwound_log (sock newfd : Z) (vs : list Z)
    (failed sent tl : list event) (peer : IvshmemServerPeer) :
  Forall (fun v => 0 <= v) vs ->
  failed = [] \/ (exists bad, bad < 0 /\ failed = [(Eventfd, bad)]) ->
  Forall (fun a => is_send a = true) (map fst sent) ->
  map fst tl = unwinding peer vs ->
  peer_sock_fd peer = newfd ->
  allocated ((Accept4 sock, newfd)
             :: map (pair Eventfd) vs ++ failed ++ sent ++ tl) = vs /\
  closed (map fst ((Accept4 sock, newfd)
                   :: map (pair Eventfd) vs ++ failed ++ sent ++ tl))
    = rev vs ++ [newfd] /\
  freed (map fst ((Accept4 sock, newfd)
                  :: map (pair Eventfd) vs ++ failed ++ sent ++ tl))
    = [peer] /\
  inserted (map fst ((Accept4 sock, newfd)
                     :: map (pair Eventfd) vs ++ failed ++ sent ++ tl))
    = [].
Proof.
  intros Hv Hfail Hs Htl Hsock.
  assert (Fa : allocated failed = [] /\ closed (map fst failed) = [] /\
               freed (map fst failed) = [] /\ inserted (map fst failed) = []).
  { destruct Hfail as [-> | (bad & Hb & ->)]; simpl; [auto |].
    destruct (bad <? 0) eqn:E; [auto | lia]. }
  destruct Fa as (Fa1 & Fa2 & Fa3 & Fa4).
  repeat split.
  - change (allocated (map (pair Eventfd) vs ++ failed ++ sent ++ tl) = vs).
    rewrite !allocated_app, allocated_eventfds, Fa1 by exact Hv.
    rewrite (allocated_none sent) by (now apply sends_not_eventfd).
    rewrite (allocated_none tl) by (rewrite Htl; apply unwinding_not_eventfd).
    now rewrite !app_nil_r.
  - simpl map. rewrite !map_app, map_fst_eventfds, Htl.
    change (closed (map (fun _ : Z => Eventfd) vs ++ map fst failed
                    ++ map fst sent ++ unwinding peer vs) = rev vs ++ [newfd]).
    rewrite !closed_app, Fa2.
    rewrite (closed_none (map _ vs)) by (now apply eventfds_only).
    rewrite (closed_none (map fst sent)) by (now apply sends_not_close).
    unfold unwinding. rewrite closed_app, closed_map_Close. simpl.
    now rewrite Hsock.
  - simpl map. rewrite !map_app, map_fst_eventfds, Htl.
    change (freed (map (fun _ : Z => Eventfd) vs ++ map fst failed
                   ++ map fst sent ++ unwinding peer vs) = [peer]).
    rewrite !freed_app, Fa3, (freed_sends (map fst sent)) by exact Hs.
    rewrite freed_eventfds.
    unfold unwinding. rewrite freed_app, freed_map_Close. reflexivity.
  - simpl map. rewrite !map_app, map_fst_eventfds, Htl.
    change (inserted (map (fun _ : Z => Eventfd) vs ++ map fst failed
                      ++ map fst sent ++ unwinding peer vs) = []).
    rewrite !inserted_app, Fa4, (inserted_sends (map fst sent)) by exact Hs.
    rewrite inserted_eventfds.
    unfold unwinding. rewrite inserted_app, inserted_map_Close. reflexivity.
Qed.

Lemma unwinding_silent (peer : IvshmemServerPeer) (vs : list Z) :
  Forall (fun a => is_send a = false) (unwinding peer vs).
Proof.
  unfold unwinding. apply Forall_app. split.
  - apply map_Close_silent.
  - repeat constructor.
Qed.

(** A handshake that is given up after a connection was accepted. *)
Lemma aborted_run (ver : Z) {cap : nat} (server : IvshmemServer) (w : World)
    (server' : IvshmemServer) (w' : World) :
  ivshmem_server_handle_new_conn ver cap server w = Ret (-1, server') w' ->
  0 <= fst (os w (trace w) (Accept4 (sock_fd server))) ->
  exists newfd vs failed sent tl peer k,
    extends w w' ((Accept4 (sock_fd server), newfd)
                  :: map (pair Eventfd) vs ++ failed ++ sent ++ tl) /\
    0 <= newfd /\
    Forall (fun v => 0 <= v) vs /\
    (List.length vs <= n_vectors server)%nat /\
    (failed = [] \/ exists bad, bad < 0 /\ failed = [(Eventfd, bad)]) /\
    map fst sent = firstn k (initial_info ver server peer) /\
    map fst tl = unwinding peer vs /\
    peer_sock_fd peer = newfd /\
    get_unused_id server = Some (peer_id peer) /\
    server' = set_cur_id server (wrap_long (peer_id peer + 1)).
Proof.
  intros H Hacc. pose proof (handle_new_conn_result ver cap server w) as R.
  rewrite H in R.
  inversion R as [ newfd ? Hneg _ Hos _
                 | newfd unused good bad tl ? Hnf U Hg Hb Hl X Mt
                 | newfd unused vs sent lost n tl ? Hnf U Hv Hl Hok Hn Hk Ms X Mt
                 | ]; subst.
  - lia.
  - exists newfd, good, [(Eventfd, bad)], [], tl,
           (mkPeer newfd unused (good ++ [bad]) (n_vectors server)), O.
    rewrite map_app in X. simpl in X. rewrite <- app_assoc in X.
    split; [exact X |]. split; [exact Hnf |]. split; [exact Hg |].
    split; [lia |]. split; [right; now exists bad |].
    split; [reflexivity |]. split; [exact Mt |]. repeat split. exact U.
  - exists newfd, vs, [], (sent ++ [(lost, n)]), tl,
           (mkPeer newfd unused vs (n_vectors server)), (S (List.length sent)).
    split; [exact X |]. split; [exact Hnf |]. split; [exact Hv |].
    split; [lia |]. split; [now left |].
    split; [exact Ms |]. split; [exact Mt |]. repeat split. exact U.
Qed.

(** When [accept4] fails, nothing else is called: the debug output is
    all that follows. *)
Lemma accept_failure_run (ver : Z) (cap : nat) (server : IvshmemServer)
    (w : World) (newfd e : Z) :
  os w (trace w) (Accept4 (sock_fd server)) = (newfd, e) ->
  newfd < 0 ->
  exists w',
    ivshmem_server_handle_new_conn ver cap server w = Ret (-1, server) w' /\
    extends w w' [(Accept4 (sock_fd server), newfd)] /\
    errno w'
    = (if verbose server
       then snd (os w (trace w ++ [(Accept4 (sock_fd server), newfd)]) Printf)
       else e).
Proof.
  intros Hos Hn. unfold ivshmem_server_handle_new_conn. unfold bind at 1.
  destruct (syscall_run (Accept4 (sock_fd server)) w)
    as (r & w1 & H1 & X1 & Hr & He). rewrite H1.
  rewrite Hos in Hr, He. simpl in Hr, He. subst r.
  destruct (newfd <? 0) eqn:E; [| lia].
  destruct (debug_ret server (-1, server) w1) as (w1' & D & Do & Dt & Dn).
  exists w1'. split; [exact D |].
  split; [exact (extends_after _ _ _ _ X1 Do Dt) |].
  rewrite Dn, He. destruct X1 as [Xo Xt]. now rewrite Xo, Xt.
Qed.

(** Before a handshake fails, it has sent nothing but a part of the
    initial info. *)
Lemma failed_conn_sends (ver : Z) {cap : nat} (server : IvshmemServer)
    (w : World)
    (server' : IvshmemServer) (w' : World) :
  ivshmem_server_handle_new_conn ver cap server w = Ret (-1, server') w' ->
  exists evs peer k,
    extends w w' evs /\
    sends (map fst evs) = firstn k (initial_info ver server peer).
Proof.
  intros H.
  destruct (Z_lt_le_dec (fst (os w (trace w) (Accept4 (sock_fd server)))) 0)
    as [Hneg | Hacc].
  - destruct (accept_failure_run ver cap server w _ _
                (surjective_pairing _) Hneg) as (w1 & E & X1 & _).
    rewrite E in H. inversion H; subst server' w'.
    eexists _, (mkPeer 0 0 [] 0), O. split; [exact X1 | reflexivity].
  - destruct (aborted_run _ _ _ _ _ H Hacc)
      as (newfd & vs & failed & sent & tl & peer & k & X & _ & _ & _ & Hf & Ms & Mt & _).
    eexists _, peer, k. split; [exact X |].
    simpl map. rewrite !map_app, map_fst_eventfds, Ms, Mt.
    change (sends (map (fun _ : Z => Eventfd) vs ++ map fst failed
                   ++ firstn k (initial_info ver server peer)
                   ++ unwinding peer vs)
            = firstn k (initial_info ver server peer)).
    rewrite !sends_app.
    rewrite (sends_silent (map _ vs)) by (now apply eventfds_only).
    rewrite (sends_silent (unwinding _ _)) by apply unwinding_silent.
    rewrite (sends_all (firstn k _))
      by (apply firstn_Forall, initial_info_all_sends).
    destruct Hf as [-> | (bad & _ & ->)]; simpl; now rewrite app_nil_r.
Qed.

(** A handshake that completes, on a registry in order. *)
Lemma connected_run (ver : Z) {cap : nat} (server : IvshmemServer) (w : World)
    (server' : IvshmemServer) (w' : World) :
  registry_ok server ->
  ivshmem_server_handle_new_conn ver cap server w = Ret (0, server') w' ->
  exists peer evs sent tl,
    server' = set_peer_list
                (set_cur_id server (wrap_long (peer_id peer + 1)))
                (peer_list server ++ [peer]) /\
    get_unused_id server = Some (peer_id peer) /\
    peer_ok (n_vectors server) peer /\
    Forall (fun v => 0 <= v) (peer_vectors peer) /\
    0 <= peer_sock_fd peer /\
    extends w w' evs /\
    map fst evs = handshake_log ver server peer /\
    evs = (Accept4 (sock_fd server), peer_sock_fd peer)
          :: map (pair Eventfd) (peer_vectors peer) ++ sent ++ tl /\
    Forall (fun e => 0 < snd e) sent /\
    map fst sent = initial_info ver server peer.
Proof.
  intros Hreg H. pose proof (handle_new_conn_result ver cap server w) as R.
  rewrite H in R.
  inversion R as [ | | | newfd unused vs sent ? Hnf U Hv Hl Hok Ms Hlog ]; subst.
  destruct (Hlog Hreg) as (tl & X & Mt).
  exists (mkPeer newfd unused vs (n_vectors server)). eexists. exists sent, tl.
  split; [reflexivity |]. split; [exact U |].
  split; [split; [reflexivity | exact Hl] |].
  split; [exact Hv |]. split; [exact Hnf |]. split; [exact X |].
  split; [| split; [reflexivity | split; [exact Hok | exact Ms]]].
  unfold handshake_log. simpl.
  rewrite !map_app, map_fst_eventfds, Ms, Mt. reflexivity.
Qed.

Lemma handshake_log_sends (ver : Z) (server : IvshmemServer)
    (peer : IvshmemServerPeer) :
  sends (handshake_log ver server peer)
  = initial_info ver server peer ++ advertisements server peer.
Proof.
  unfold handshake_log.
  change (sends (map (fun _ : Z => Eventfd) (peer_vectors peer)
                 ++ initial_info ver server peer
                 ++ advertisements server peer ++ [QInsertTail peer])
          = initial_info ver server peer ++ advertisements server peer).
  rewrite !sends_app.
  rewrite (sends_silent (map _ _)) by (now apply eventfds_only).
  rewrite (sends_all (initial_info _ _ _)) by apply initial_info_all_sends.
  rewrite (sends_all (advertisements _ _)) by apply advertisements_all_sends.
  simpl. now rewrite app_nil_r.
Qed.

(** The return value is 0 or -1, and -1 leaves the registry alone. *)
Lemma handle_new_conn_status (ver : Z) {cap : nat} (server : IvshmemServer)
    (w : World)
    (r : Z) (server' : IvshmemServer) (w' : World) :
  ivshmem_server_handle_new_conn ver cap server w = Ret (r, server') w' ->
  (r = 0 \/ r = -1) /\ (r = -1 -> peer_list server' = peer_list server).
Proof.
  intros H. pose proof (handle_new_conn_result ver cap server w) as R.
  rewrite H in R. inversion R; subst; split; auto; intros; lia.
Qed.

(** ** Dispatch cycle *)

(** If the sweep over the peers ends, the cycle returns 0. *)
Lemma handle_fds_after_sweep (visit : list IvshmemServerPeer)
    (server : IvshmemServer) (fds : Z -> bool) (maxfd : Z) (w : World)
    (r : Z) (server' : IvshmemServer) (w' : World) :
  (swept <- handle_fds_sweep visit server fds maxfd ; ret (0, swept)) w
    = Ret (r, server') w' ->
  r = 0.
Proof.
  intros H. unfold bind in H.
  destruct (handle_fds_sweep visit server fds maxfd w) as [s1 w1 | w1 |];
    try discriminate.
  unfold ret in H. now inversion H.
Qed.

(** The insertion comes last in the log of a handshake, after all the
    messages. *)
Lemma handshake_log_split (ver : Z) (server : IvshmemServer)
    (peer : IvshmemServerPeer) :
  exists before,
    handshake_log ver server peer = before ++ [QInsertTail peer] /\
    inserted before = [] /\
    sends before = initial_info ver server peer ++ advertisements server peer.
Proof.
  exists (Accept4 (sock_fd server)
          :: map (fun _ => Eventfd) (peer_vectors peer)
          ++ initial_info ver server peer ++ advertisements server peer).
  split; [| split].
  - unfold handshake_log. rewrite <- app_comm_cons. f_equal.
    now rewrite <- 2 app_assoc.
  - change (inserted (map (fun _ : Z => Eventfd) (peer_vectors peer)
                      ++ initial_info ver server peer
                      ++ advertisements server peer) = []).
    rewrite 2 inserted_app, inserted_eventfds.
    rewrite (inserted_sends (advertisements _ _))
      by apply advertisements_all_sends.
    reflexivity.
  - change (sends (map (fun _ : Z => Eventfd) (peer_vectors peer)
                   ++ initial_info ver server peer
                   ++ advertisements server peer)
            = initial_info ver server peer ++ advertisements server peer).
    rewrite 2 sends_app.
    rewrite (sends_silent (map _ _)) by (now apply eventfds_only).
    rewrite (sends_all (advertisements _ _)) by apply advertisements_all_sends.
    reflexivity.
Qed.

Lemma sent_to_vectors_same (sock id : Z) (vs : list Z) :
  sent_to sock (map (fun v => Sendmsg sock id (Some v)) vs)
  = map (fun v => (id, Some v)) vs.
Proof.
  induction vs as [| v t IH]; simpl; [reflexivity |].
  rewrite Z.eqb_refl. simpl. now rewrite IH.
Qed.

Lemma sent_to_vectors_other (sock sock' id : Z) (vs : list Z) :
  sock' <> sock ->
  sent_to sock (map (fun v => Sendmsg sock' id (Some v)) vs) = [].
Proof.
  intros Hne. induction vs as [| v t IH]; simpl; [reflexivity |].
  destruct (sock' =? sock) eqn:E; [lia | exact IH].
Qed.

Lemma sent_to_others_vectors (sock : Z) (l : list IvshmemServerPeer) :
  sent_to sock
    (flat_map (fun other =>
       map (fun v => Sendmsg sock (peer_id other) (Some v))
           (peer_vectors other)) l)
  = flat_map (fun other =>
      map (fun v => (peer_id other, Some v)) (peer_vectors other)) l.
Proof.
  induction l as [| o t IH]; simpl; [reflexivity |].
  now rewrite sent_to_app, IH, sent_to_vectors_same.
Qed.

(** ** Sizing the shared memory *)

Lemma lor_shiftr_testbit (s c i : Z) :
  0 <= c -> 0 <= i ->
  Z.testbit (Z.lor s (Z.shiftr s c)) i = Z.testbit s i || Z.testbit s (i + c).
Proof. intros Hc Hi. now rewrite Z.lor_spec, Z.shiftr_spec by lia. Qed.

Lemma covers_one (x : Z) : covers x x 1.
Proof.
  intros i Hi. split.
  - intros H. exists 0. split; [lia |]. now rewrite Z.add_0_r.
  - intros (j & Hj & H). replace (i + j) with i in H by lia. exact H.
Qed.

(** One line of the smearing doubles the bits covered. *)
Lemma covers_double (x s m : Z) :
  0 < m -> covers x s m -> covers x (Z.lor s (Z.shiftr s m)) (2 * m).
Proof.
  intros Hm H i Hi.
  rewrite lor_shiftr_testbit, orb_true_iff, (H i), (H (i + m)) by lia.
  split.
  - intros [(j & Hj & T) | (j & Hj & T)].
    + exists j. split; [lia | exact T].
    + exists (m + j). split; [lia |].
      replace (i + (m + j)) with (i + m + j) by lia. exact T.
  - intros (j & Hj & T). destruct (Z_lt_le_dec j m) as [L | L].
    + left. exists j. split; [lia | exact T].
    + right. exists (j - m). split; [lia |].
      replace (i + m + (j - m)) with (i + j) by lia. exact T.
Qed.

Lemma covers_smear (x : Z) : covers x (smear x) 32.
Proof.
  unfold smear. cbv zeta.
  apply (covers_double x _ 16); [lia |].
  apply (covers_double x _ 8); [lia |].
  apply (covers_double x _ 4); [lia |].
  apply (covers_double x _ 2); [lia |].
  apply (covers_double x _ 1); [lia |].
  apply covers_one.
Qed.

(** Below [2^32] the smearing sets every bit up to the highest one. *)
Lemma smear_ones (x : Z) :
  0 < x < 2 ^ 32 -> smear x = Z.ones (Z.log2 x + 1).
Proof.
  intros Hx. pose proof (Z.log2_nonneg x) as Hk.
  assert (Hk32 : Z.log2 x < 32) by (apply Z.log2_lt_pow2; lia).
  apply Z.bits_inj'. intros i Hi.
  destruct (Z_le_gt_dec i (Z.log2 x)) as [L | L].
  - rewrite Z.ones_spec_low by lia.
    apply (covers_smear x i Hi). exists (Z.log2 x - i). split; [lia |].
    replace (i + (Z.log2 x - i)) with (Z.log2 x) by lia.
    apply Z.bit_log2. lia.
  - rewrite Z.ones_spec_high by lia.
    destruct (Z.testbit (smear x) i) eqn:T; [| reflexivity].
    apply (covers_smear x i Hi) in T. destruct T as (j & Hj & T).
    rewrite Z.bits_above_log2 in T by lia. discriminate.
Qed.

(** From 1 to [2^31] the alignment gives the smallest power of two
    that is not less than the size. *)
Lemma align_pow2_in_range (shmsize : Z) :
  1 <= shmsize <= 2 ^ 31 ->
  exists e, 0 <= e <= 31 /\ align_pow2 shmsize = 2 ^ e /\ shmsize <= 2 ^ e /\
            forall m, 0 <= m -> shmsize <= 2 ^ m -> 2 ^ e <= 2 ^ m.
Proof.
  intros Hs. unfold align_pow2, wrap_unsigned.
  assert (H31 : 2 ^ 31 < 2 ^ 32) by (apply Z.pow_lt_mono_r; lia).
  rewrite (Z.mod_small (shmsize - 1)) by lia.
  destruct (Z.eq_dec shmsize 1) as [-> | Hne].
  - exists 0. split; [lia |]. split; [reflexivity |]. split; [simpl; lia |].
    intros m Hm _. apply Z.pow_le_mono_r; lia.
  - assert (Hx : 0 < shmsize - 1 < 2 ^ 32) by lia.
    pose proof (Z.log2_nonneg (shmsize - 1)) as Hk.
    assert (Hk31 : Z.log2 (shmsize - 1) < 31) by (apply Z.log2_lt_pow2; lia).
    destruct (Z.log2_spec (shmsize - 1) ltac:(lia)) as [Hlo Hhi].
    rewrite smear_ones, Z.ones_equiv by exact Hx.
    replace (Z.pred (2 ^ (Z.log2 (shmsize - 1) + 1)) + 1)
      with (2 ^ (Z.log2 (shmsize - 1) + 1)) by lia.
    rewrite Z.add_1_r in *.
    assert (Hp : 2 ^ Z.succ (Z.log2 (shmsize - 1)) <= 2 ^ 31)
      by (apply Z.pow_le_mono_r; lia).
    rewrite Z.mod_small by (split; [apply Z.pow_nonneg |]; lia).
    exists (Z.succ (Z.log2 (shmsize - 1))).
    split; [lia |]. split; [reflexivity |]. split; [lia |].
    intros m Hm Hle. apply Z.pow_le_mono_r; [lia |].
    assert (Hlt : 2 ^ Z.log2 (shmsize - 1) < 2 ^ m) by lia.
    apply Z.pow_lt_mono_r_iff in Hlt; lia.
Qed.

(** Above [2^31] the increment wraps and the alignment gives 0. *)
Lemma align_pow2_wraps (shmsize : Z) :
  2 ^ 31 < shmsize < 2 ^ 32 -> align_pow2 shmsize = 0.
Proof.
  intros Hs. unfold align_pow2, wrap_unsigned.
  rewrite (Z.mod_small (shmsize - 1)) by lia.
  assert (Hk : Z.log2 (shmsize - 1) = 31)
    by (apply Z.log2_unique; [lia | simpl Z.add; lia]).
  rewrite smear_ones, Hk by lia. reflexivity.
Qed.

Lemma align_pow2_zero : align_pow2 0 = 0.
Proof. reflexivity. Qed.

Lemma ftruncate_loop_unfold (fuel : nat) (fd shmsize : Z) :
  ftruncate_loop fuel fd shmsize
  = if shmsize <=? IVSHMEM_SERVER_MAX_HUGEPAGE_SIZE then
      match fuel with
      | O => unfinished
      | S fuel' =>
          r <- syscall (Ftruncate fd shmsize) ;
          if r =? 0 then ret r
          else ftruncate_loop fuel' fd (wrap_unsigned (shmsize * 2))
      end
    else ret (-1).
Proof. destruct fuel; reflexivity. Qed.

(** From a power of two [2^e], the loop asks for [2^e], [2^(e+1)], and
    so on: it ends with 0 at the first size that the storage takes, and
    with -1 when it has refused them all up to [2^30]. [d] bounds the
    sizes left to try. *)
Lemma ftruncate_loop_run (d : nat) :
  forall (e fuel : nat) (fd : Z) (w : World),
    (e + d = 31)%nat -> (d <= fuel)%nat ->
    exists r w' evs,
      ftruncate_loop fuel fd (2 ^ Z.of_nat e) w = Ret r w' /\
      extends w w' evs /\
      (List.length evs <= d)%nat /\
      map fst evs
        = map (fun j => Ftruncate fd (2 ^ Z.of_nat (e + j)))
              (seq 0 (List.length evs)) /\
      ((r = 0 /\
        exists refused,
          evs = refused
                ++ [(Ftruncate fd (2 ^ Z.of_nat (e + List.length refused)), 0)] /\
          Forall (fun ev => snd ev <> 0) refused)
       \/
       (r = -1 /\ List.length evs = d /\ Forall (fun ev => snd ev <> 0) evs)).
Proof.
  induction d as [| d IH]; intros e fuel fd w He Hf;
    rewrite ftruncate_loop_unfold.
  - replace e with 31%nat by lia.
    change (2 ^ Z.of_nat 31 <=? IVSHMEM_SERVER_MAX_HUGEPAGE_SIZE) with false.
    cbv iota. exists (-1), w, []. split; [reflexivity |].
    split; [apply extends_refl |]. split; [simpl; lia |].
    split; [reflexivity |]. right. repeat split. constructor.
  - assert (Hle : 2 ^ Z.of_nat e <= 2 ^ 30) by (apply Z.pow_le_mono_r; lia).
    assert (Hpos : 0 < 2 ^ Z.of_nat e) by (apply Z.pow_pos_nonneg; lia).
    assert (C : (2 ^ Z.of_nat e <=? IVSHMEM_SERVER_MAX_HUGEPAGE_SIZE) = true)
      by (apply Z.leb_le; exact Hle).
    rewrite C.
    destruct fuel as [| fuel]; [lia |].
    unfold bind at 1.
    destruct (syscall_run (Ftruncate fd (2 ^ Z.of_nat e)) w)
      as (r0 & w1 & H1 & X1 & _). rewrite H1.
    destruct (r0 =? 0) eqn:R0.
    + assert (r0 = 0) by lia. subst r0.
      exists 0, w1, [(Ftruncate fd (2 ^ Z.of_nat e), 0)].
      split; [reflexivity |]. split; [exact X1 |]. split; [simpl; lia |].
      split; [simpl; now rewrite Nat.add_0_r |].
      left. split; [reflexivity |]. exists []. simpl.
      rewrite Nat.add_0_r. split; [reflexivity | constructor].
    + assert (Hnext : wrap_unsigned (2 ^ Z.of_nat e * 2) = 2 ^ Z.of_nat (S e)).
      { rewrite Nat2Z.inj_succ, Z.pow_succ_r by lia.
        unfold wrap_unsigned. rewrite Z.mod_small; [lia |].
        change (2 ^ 32) with (4 * 2 ^ 30). lia. }
      rewrite Hnext.
      destruct (IH (S e) fuel fd w1 ltac:(lia) ltac:(lia))
        as (r & w' & evs & H & X & Hlen & Hm & Hr).
      exists r, w', ((Ftruncate fd (2 ^ Z.of_nat e), r0) :: evs).
      split; [exact H |]. split; [exact (extends_trans _ _ _ _ _ X1 X) |].
      split; [simpl; lia |]. split.
      { simpl. rewrite Nat.add_0_r. f_equal. rewrite Hm.
        rewrite <- seq_shift, map_map. apply map_ext. intros j.
        do 3 f_equal. lia. }
      destruct Hr as [(-> & refused & -> & Hall) | (-> & Hl & Hall)].
      * left. split; [reflexivity |].
        exists ((Ftruncate fd (2 ^ Z.of_nat e), r0) :: refused). split.
        { simpl. rewrite <- plus_n_Sm. reflexivity. }
        constructor; [simpl; lia | exact Hall].
      * right. split; [reflexivity |]. split; [simpl; lia |].
        constructor; [simpl; lia | exact Hall].
Qed.

(** At size 0 the candidate stays 0: on a storage that refuses it, the
    loop does not end, whatever the fuel. *)
Lemma ftruncate_zero_never_ends (fuel : nat) :
  forall fd w,
    (forall history, fst (os w history (Ftruncate fd 0)) <> 0) ->
    ftruncate_loop fuel fd 0 w = Unfinished.
Proof.
  induction fuel as [| fuel IH]; intros fd w Hos; [reflexivity |].
  rewrite ftruncate_loop_unfold.
  change (0 <=? IVSHMEM_SERVER_MAX_HUGEPAGE_SIZE) with true. cbv iota.
  unfold bind, syscall.
  destruct (fst (os w (trace w) (Ftruncate fd 0)) =? 0) eqn:E.
  - specialize (Hos (trace w)). lia.
  - change (wrap_unsigned (0 * 2)) with 0. apply IH. exact Hos.
Qed.

(** For sizes from 1 to [2^31] and fuel for 31 rounds, the sizing ends;
    it asks for the smallest power of two not less than the size, then
    for each double of it, and ends with 0 at the first size taken, or
    with -1 once all sizes up to [2^30] were refused. *)
Lemma ftruncate_in_range (fuel : nat) (fd shmsize : Z) (w : World) :
  1 <= shmsize <= 2 ^ 31 ->
  (31 <= fuel)%nat ->
  exists (e : nat) r w' evs,
    align_pow2 shmsize = 2 ^ Z.of_nat e /\
    shmsize <= 2 ^ Z.of_nat e /\
    (forall m, 0 <= m -> shmsize <= 2 ^ m -> 2 ^ Z.of_nat e <= 2 ^ m) /\
    ivshmem_server_ftruncate fuel fd shmsize w = Ret r w' /\
    extends w w' evs /\
    map fst evs
      = map (fun j => Ftruncate fd (2 ^ Z.of_nat (e + j)))
            (seq 0 (List.length evs)) /\
    ((r = 0 /\
      exists refused,
        evs = refused
              ++ [(Ftruncate fd (2 ^ Z.of_nat (e + List.length refused)), 0)] /\
        Forall (fun ev => snd ev <> 0) refused)
     \/
     (r = -1 /\ (e + List.length evs = 31)%nat /\
      Forall (fun ev => snd ev <> 0) evs)).
Proof.
  intros Hs Hf.
  destruct (align_pow2_in_range shmsize Hs) as (z & Hz & Ha & Hge & Hmin).
  exists (Z.to_nat z).
  destruct (ftruncate_loop_run (31 - Z.to_nat z) (Z.to_nat z) fuel fd w
              ltac:(lia) ltac:(lia)) as (r & w' & evs & H & X & Hl & Hm & Hr).
  assert (Hz' : Z.of_nat (Z.to_nat z) = z) by (apply Z2Nat.id; lia).
  rewrite Hz' in H.
  exists r, w', evs. unfold ivshmem_server_ftruncate. rewrite Ha, Hz'.
  split; [reflexivity |]. split; [exact Hge |]. split; [exact Hmin |].
  split; [exact H |]. split; [exact X |]. split; [exact Hm |].
  destruct Hr as [Hr | (-> & Hd & Hall)]; [now left |].
  right. split; [reflexivity |]. split; [lia | exact Hall].
Qed.

(** For sizes above [2^31] it asks for size 0, and ends with 0 when
    the storage takes that. *)
Lemma ftruncate_above_2G (fuel : nat) (fd shmsize : Z) (w : World) :
  2 ^ 31 < shmsize < 2 ^ 32 ->
  fst (os w (trace w) (Ftruncate fd 0)) = 0 ->
  exists w',
    ivshmem_server_ftruncate (S fuel) fd shmsize w = Ret 0 w' /\
    extends w w' [(Ftruncate fd 0, 0)].
Proof.
  intros Hs Hos. unfold ivshmem_server_ftruncate.
  rewrite (align_pow2_wraps _ Hs), ftruncate_loop_unfold.
  change (0 <=? IVSHMEM_SERVER_MAX_HUGEPAGE_SIZE) with true. cbv iota.
  unfold bind, syscall. rewrite Hos. simpl. eexists. split; [reflexivity |].
  split; reflexivity.
Qed.

(** ** Starting the server *)

Lemma bind_inv {A B} (m : M A) (k : A -> M B) (w : World) (b : B) (w' : World) :
  bind m k w = Ret b w' ->
  exists a w1, m w = Ret a w1 /\ k a w1 = Ret b w'.
Proof.
  unfold bind. intros H. destruct (m w) as [a w1 | w1 |]; try discriminate.
  now exists a, w1.
Qed.

Lemma init_fresh (unix_sock_path' shm_path' : string) (shm_size' : Z)
    (n_vectors' : nat) (verbose' : bool) (server : IvshmemServer) :
  ivshmem_server_init unix_sock_path' shm_path' shm_size' n_vectors' verbose'
    = Some server ->
  fresh server /\ n_vectors server = n_vectors'.
Proof.
  unfold ivshmem_server_init. intros H.
  destruct (negb (path_fits PATH_MAX unix_sock_path')); [discriminate |].
  destruct (negb (path_fits PATH_MAX shm_path')); [discriminate |].
  inversion H; subst. repeat split.
Qed.

(** [ivshmem_server_start] changes the two descriptors only, and when
    it returns 0 they are descriptors. *)
Lemma start_fresh (fuel : nat) (server : IvshmemServer) (w : World)
    (server' : IvshmemServer) (w' : World) :
  fresh server ->
  ivshmem_server_start fuel server w = Ret (0, server') w' ->
  fresh server' /\ n_vectors server' = n_vectors server /\
  0 <= sock_fd server' /\ 0 <= shm_fd server'.
Proof.
  intros Hfresh H. unfold ivshmem_server_start in H.
  repeat first
    [ apply bind_inv in H; destruct H as (? & ? & _ & H); cbv beta in H
    | match type of H with
      | (if ?c then _ else _) _ = _ => destruct c eqn:?
      end ];
    unfold ret in H; inversion H; subst.
  destruct Hfresh as [Hp Hc]. repeat split; simpl; auto; lia.
Qed.

(** ** The cycle ends *)

Lemma handle_fds_sweep_total (visit : list IvshmemServerPeer) :
  forall (server : IvshmemServer) (fds : Z -> bool) (maxfd : Z) (w : World),
    Forall (fun p => List.length (peer_vectors p) = peer_vectors_count p) visit ->
    exists server' w', handle_fds_sweep visit server fds maxfd w = Ret server' w'.
Proof.
  induction visit as [| p t IH]; intros server fds maxfd w Hv; simpl.
  - now exists server, w.
  - inversion Hv as [| ? ? Hp Ht]; subst.
    unfold bind at 1. destruct (debug_run server w) as (w0 & D & _).
    rewrite D.
    destruct ((peer_sock_fd p <? maxfd) && fds (peer_sock_fd p)).
    + destruct (free_peer_run server p w0 Hp) as (w1 & evs & H & _).
      unfold bind. rewrite H. now apply IH.
    + now apply IH.
Qed.

(** With the registry in order, the counter in range and fewer than
    [2^64] peers, a dispatch cycle ends. *)
Lemma handle_fds_total (ver : Z) {cap : nat} (server : IvshmemServer)
    (fds : Z -> bool) (maxfd : Z) (w : World) :
  invariant server ->
  (n_vectors server <= cap)%nat ->
  - 2 ^ 63 <= cur_id server < 2 ^ 63 ->
  Z.of_nat (List.length (peer_list server)) < 2 ^ 64 ->
  exists r server' w',
    ivshmem_server_handle_fds ver cap server fds maxfd w = Ret (r, server') w'.
Proof.
  intros Hinv Hcap Hc Hn.
  assert (Hsweep : forall s w0, invariant s ->
            exists r server' w',
              (swept <- handle_fds_sweep (peer_list s) s fds maxfd ;
               ret (0, swept)) w0 = Ret (r, server') w').
  { intros s w0 (_ & Ho & _).
    destruct (handle_fds_sweep_total (peer_list s) s fds maxfd w0)
      as (s' & w' & H).
    { unfold registry_ok in Ho. eapply Forall_impl; [| exact Ho].
      intros p [_ L]. exact L. }
    unfold bind. rewrite H. now exists 0, s', w'. }
  unfold ivshmem_server_handle_fds.
  destruct ((sock_fd server <? maxfd) && fds (sock_fd server));
    [| now apply Hsweep].
  destruct (handle_new_conn_total ver server w (proj1 (proj2 Hinv)) Hcap Hc Hn)
    as (rc & s1 & w1 & H1).
  unfold bind at 1. rewrite H1.
  pose proof (handle_new_conn_result ver cap server w) as R. rewrite H1 in R.
  destruct (new_conn_outcome_invariant _ _ _ _ _ _ R Hinv) as [Hinv1 _].
  destruct (rc <? 0); [| now apply Hsweep].
  unfold bind at 1, get_errno.
  destruct (negb (errno w1 =? EINTR)); [| now apply Hsweep].
  destruct (debug_ret s1 (-1, s1) w1) as (w1' & D & _).
  now exists (-1), s1, w1'.
Qed.

(** ** Every sequence of fewer than [2^64] operations runs to its end *)

Lemma new_conn_outcome_bounds (ver : Z) (server : IvshmemServer) (w : World)
    (r : Z) (server' : IvshmemServer) (w' : World) :
  new_conn_outcome ver server w r server' w' ->
  - 2 ^ 63 <= cur_id server < 2 ^ 63 ->
  - 2 ^ 63 <= cur_id server' < 2 ^ 63 /\
  (List.length (peer_list server') <= S (List.length (peer_list server)))%nat.
Proof.
  intros H Hc. destruct H; simpl.
  - split; [exact Hc | lia].
  - split; [apply wrap_long_range | lia].
  - split; [apply wrap_long_range | lia].
  - split; [apply wrap_long_range |]. rewrite length_app. simpl. lia.
Qed.

Lemma apply_op_total (ver : Z) {cap : nat} (o : op) (server : IvshmemServer)
    (w : World) :
  invariant server ->
  (n_vectors server <= cap)%nat ->
  - 2 ^ 63 <= cur_id server < 2 ^ 63 ->
  Z.of_nat (List.length (peer_list server)) < 2 ^ 64 ->
  exists server' w',
    apply_op ver cap o server w = Ret server' w' /\
    invariant server' /\
    n_vectors server' = n_vectors server /\
    - 2 ^ 63 <= cur_id server' < 2 ^ 63 /\
    (List.length (peer_list server') <= S (List.length (peer_list server)))%nat.
Proof.
  intros Hinv Hcap Hc Hn. destruct o as [| k]; simpl.
  - destruct (handle_new_conn_total ver server w (proj1 (proj2 Hinv)) Hcap Hc Hn)
      as (r & s1 & w1 & H).
    pose proof (handle_new_conn_result ver cap server w) as R. rewrite H in R.
    unfold bind. rewrite H. exists s1, w1. split; [reflexivity |].
    split; [exact (proj1 (new_conn_outcome_invariant _ _ _ _ _ _ R Hinv)) |].
    split; [exact (proj2 (new_conn_outcome_invariant _ _ _ _ _ _ R Hinv)) |].
    exact (new_conn_outcome_bounds _ _ _ _ _ _ R Hc).
  - destruct (nth_error (peer_list server) k) as [p |] eqn:E.
    + apply nth_error_In in E.
      destruct Hinv as (Hd & Ho & Hv).
      assert (Hl : List.length (peer_vectors p) = peer_vectors_count p).
      { unfold registry_ok in Ho. rewrite Forall_forall in Ho.
        exact (proj2 (Ho p E)). }
      destruct (free_peer_run server p w Hl) as (w' & evs & H & _).
      eexists _, w'. split; [exact H |].
      split; [exact (proj1 (free_peer_invariant _ _ _ _ _ H
                              (conj Hd (conj Ho Hv)))) |].
      split; [reflexivity |]. split; [exact Hc |]. simpl.
      pose proof (qtailq_remove_length p (peer_list server)). lia.
    + exists server, w. split; [reflexivity |]. split; [exact Hinv |].
      split; [reflexivity |]. split; [exact Hc | lia].
Qed.

Lemma run_total (ver : Z) {cap : nat} (ops : list op) :
  forall (server : IvshmemServer) (w : World),
    invariant server ->
    (n_vectors server <= cap)%nat ->
    - 2 ^ 63 <= cur_id server < 2 ^ 63 ->
    Z.of_nat (List.length (peer_list server) + List.length ops) < 2 ^ 64 ->
    exists server' w', run ver cap ops server w = Ret server' w'.
Proof.
  induction ops as [| o rest IH]; intros server w Hinv Hcap Hc Hn; simpl.
  - now exists server, w.
  - destruct (apply_op_total ver o server w Hinv Hcap Hc ltac:(lia))
      as (s1 & w1 & H & Hinv1 & Hv1 & Hc1 & Hl1).
    unfold bind. rewrite H. apply IH; auto; [lia |].
    simpl in Hn. lia.
Qed.

(** ** What is sent, what is written and what arrives *)

Lemma written_to_app (sock : Z) (a b : list event) :
  written_to sock (a ++ b) = written_to sock a ++ written_to sock b.
Proof.
  unfold written_to. now rewrite filter_app, map_app, sent_to_app.
Qed.

Lemma sent_to_filter_silent (sock : Z) (keep : event -> bool)
    (evs : list event) :
  Forall (fun a => is_send a = false) (map fst evs) ->
  sent_to sock (map fst (filter keep evs)) = [].
Proof.
  induction evs as [| [a r] t IH]; simpl; intros H; [reflexivity |].
  inversion H as [| ? ? Ha Ht]; subst. simpl in Ha.
  destruct (keep (a, r)); simpl; [| now apply IH].
  destruct a; try discriminate; simpl; now apply IH.
Qed.

Lemma sent_to_filter_all (sock : Z) (keep : event -> bool)
    (evs : list event) :
  Forall (fun e => is_send (fst e) = true -> keep e = true) evs ->
  sent_to sock (map fst (filter keep evs)) = sent_to sock (map fst evs).
Proof.
  induction evs as [| [a r] t IH]; simpl; intros H; [reflexivity |].
  inversion H as [| ? ? Ha Ht]; subst. simpl in Ha.
  destruct (keep (a, r)) eqn:E; simpl.
  - destruct a; simpl; rewrite ?IH by exact Ht; reflexivity.
  - destruct a; simpl; try (now apply IH).
    specialize (Ha eq_refl). discriminate.
Qed.

Lemma written_silent (sock : Z) (evs : list event) :
  Forall (fun a => is_send a = false) (map fst evs) ->
  written_to sock evs = [].
Proof. apply sent_to_filter_silent. Qed.

(** When every send returns a positive count, a part at least of
    everything sent is written. *)
Lemma written_when_sent (sock : Z) (evs : list event) :
  sends_succeed evs -> written_to sock evs = sent_to sock (map fst evs).
Proof.
  unfold written_to, sends_succeed. intros H. apply sent_to_filter_all.
  eapply Forall_impl; [| exact H]. intros e He Hs. apply Z.ltb_lt. auto.
Qed.

Lemma written_all (sock : Z) (evs : list event) :
  Forall (fun e => 0 < snd e) evs ->
  written_to sock evs = sent_to sock (map fst evs).
Proof.
  intros H. apply written_when_sent. unfold sends_succeed.
  eapply Forall_impl; [| exact H]. intros e He _. exact He.
Qed.

(** When every send writes its message whole, what was sent arrives. *)
Lemma delivered_when_whole (sock : Z) (evs : list event) :
  sends_whole evs -> delivered_to sock evs = sent_to sock (map fst evs).
Proof.
  unfold delivered_to, sends_whole. intros H. apply sent_to_filter_all.
  eapply Forall_impl; [| exact H]. intros e He Hs. apply Z.eqb_eq. auto.
Qed.

(* ================================================================= *)
(** * The properties of the design *)

(** ** Identifiers *)

(** C1: after any sequence of connections and disconnections from a
    freshly started server, the identifiers of the peers in the registry
    are pairwise distinct, and the identifier given to the next peer
    that connects is held by no peer of the registry: an identifier in
    use is not given out before its holder has left. *)
Theorem registered_ids_distinct (ver : Z) (cap : nat) (ops : list op)
    (server0 : IvshmemServer) (w0 : World)
    (server : IvshmemServer) (w : World) :
  fresh server0 ->
  run ver cap ops server0 w0 = Ret server w ->
  NoDup (ids server) /\
  forall w1 server' w',
    ivshmem_server_handle_new_conn ver cap server w1 = Ret (0, server') w' ->
    exists peer,
      peer_list server' = peer_list server ++ [peer] /\
      ~ In (peer_id peer) (ids server).
Proof.
  intros Hf Hrun.
  destruct (run_invariant _ _ _ _ _ _ Hrun (fresh_invariant _ Hf))
    as [(Hn & _) _].
  split; [exact Hn |].
  intros w1 server' w' H.
  pose proof (handle_new_conn_result ver cap server w1) as Hr. rewrite H in Hr.
  inversion Hr as [ | | | newfd unused vs sent w'' _ Hid _ _ _ _ _ ]; subst.
  eexists. split; [reflexivity |]. simpl.
  now apply get_unused_id_free.
Qed.

Lemma registered_ids_distinct_witness :
  fresh server2 /\
  run 0 64 scenario server2 (world_of os_ok)
    = Ret (server_after scenario) (world_after_ops scenario) /\
  NoDup (ids (server_after scenario)).
Proof.
  assert (F : fresh server2) by (split; reflexivity).
  assert (R : run 0 64 scenario server2 (world_of os_ok)
              = Ret (server_after scenario) (world_after_ops scenario))
    by (vm_compute; reflexivity).
  split; [exact F |]. split; [exact R |].
  exact (proj1 (registered_ids_distinct 0 64 scenario server2 (world_of os_ok)
                  _ _ F R)).
Defined.

(** C4, as the code has it: identifiers are handed out by a counter that
    only moves on. In a fresh server, two connections get the ids 0 and
    1; after the peer with id 1 has left, the next peer that connects
    gets id 2, and id 1 stays unused. *)
Theorem id_after_disconnection (ver : Z) (cap : nat)
    (server0 server1 server2' server3 server4 : IvshmemServer)
    (w0 w0' w1 w1' w2 w2' w3 w3' : World) (gone : IvshmemServerPeer) :
  fresh server0 ->
  ivshmem_server_handle_new_conn ver cap server0 w0 = Ret (0, server1) w0' ->
  ivshmem_server_handle_new_conn ver cap server1 w1 = Ret (0, server2') w1' ->
  In gone (peer_list server2') ->
  peer_id gone = 1 ->
  ivshmem_server_free_peer server2' gone w2 = Ret server3 w2' ->
  ivshmem_server_handle_new_conn ver cap server3 w3 = Ret (0, server4) w3' ->
  ids server1 = [0] /\ ids server2' = [0; 1] /\ ids server3 = [0] /\
  ids server4 = [0; 2].
Proof.
  intros [Hp Hc] H1 H2 Hin Hid H3 H4.
  destruct (connected_server _ _ _ _ _ H1) as (p0 & U0 & L1 & C1).
  rewrite get_unused_id_cur in U0 by (unfold ids; rewrite Hp; simpl; tauto).
  rewrite Hc in U0. inversion U0 as [I0]. rewrite <- I0 in C1.
  rewrite Hp in L1. simpl in L1.
  destruct (connected_server _ _ _ _ _ H2) as (p1 & U1 & L2 & C2).
  rewrite get_unused_id_cur in U1
    by (unfold ids; rewrite L1, C1; simpl; rewrite <- I0; intros [E | []];
        discriminate E).
  rewrite C1 in U1. inversion U1 as [I1]. rewrite <- I1 in C2.
  rewrite L1 in L2. simpl in L2.
  rewrite L2 in Hin. simpl in Hin.
  destruct Hin as [<- | [<- | []]]; [congruence |].
  apply free_peer_server in H3.
  assert (L3 : peer_list server3 = [p0]).
  { subst server3. simpl. rewrite L2. simpl.
    destruct (peer_eq_dec p1 p0) as [E | _]; [congruence |].
    destruct (peer_eq_dec p1 p1) as [_ | N]; [reflexivity | now elim N]. }
  assert (C3 : cur_id server3 = 2) by (subst server3; exact C2).
  destruct (connected_server _ _ _ _ _ H4) as (p2 & U2 & L4 & C4).
  rewrite get_unused_id_cur in U2
    by (unfold ids; rewrite L3, C3; simpl; rewrite <- I0; intros [E | []];
        discriminate E).
  rewrite C3 in U2. inversion U2 as [I2].
  unfold ids. rewrite L1, L2, L3, L4, L3. simpl. rewrite <- I0, <- I1, <- I2.
  repeat split; reflexivity.
Qed.

Lemma id_after_disconnection_witness :
  fresh server2 /\
  first_conn os_ok
    = Ret (0, server_after [Connect]) (world_after_ops [Connect]) /\
  next_conn [Connect]
    = Ret (0, server_after [Connect; Connect])
          (world_after_ops [Connect; Connect]) /\
  In second_peer (peer_list (server_after [Connect; Connect])) /\
  peer_id second_peer = 1 /\
  second_leaves [Connect; Connect]
    = Ret (server_after [Connect; Connect; Disconnect 1])
          (world_after_ops [Connect; Connect; Disconnect 1]) /\
  next_conn [Connect; Connect; Disconnect 1]
    = Ret (0, server_after scenario) (world_after_ops scenario) /\
  ids (server_after scenario) = [0; 2].
Proof.
  assert (F : fresh server2) by (split; reflexivity).
  assert (H1 : first_conn os_ok
               = Ret (0, server_after [Connect]) (world_after_ops [Connect]))
    by (vm_compute; reflexivity).
  assert (H2 : next_conn [Connect]
               = Ret (0, server_after [Connect; Connect])
                     (world_after_ops [Connect; Connect]))
    by (vm_compute; reflexivity).
  assert (Hin : In second_peer (peer_list (server_after [Connect; Connect])))
    by (vm_compute; right; left; reflexivity).
  assert (H3 : second_leaves [Connect; Connect]
               = Ret (server_after [Connect; Connect; Disconnect 1])
                     (world_after_ops [Connect; Connect; Disconnect 1]))
    by (vm_compute; reflexivity).
  assert (H4 : next_conn [Connect; Connect; Disconnect 1]
               = Ret (0, server_after scenario) (world_after_ops scenario))
    by (vm_compute; reflexivity).
  split; [exact F |]. split; [exact H1 |]. split; [exact H2 |].
  split; [exact Hin |]. split; [reflexivity |]. split; [exact H3 |].
  split; [exact H4 |].
  exact (proj2 (proj2 (proj2
           (id_after_disconnection 0 64 _ _ _ _ _ _ _ _ _ _ _ _ _ _
              F H1 H2 Hin eq_refl H3 H4)))).
Defined.

(** C4, as it is written, fails: in the scenario the third peer to
    connect gets id 2, and not id 1 once more. *)
Lemma id_not_reused_at_once :
  run 0 64 [Connect; Connect] server2 (world_of os_ok)
    = Ret (server_after [Connect; Connect])
          (world_after_ops [Connect; Connect]) /\
  ids (server_after [Connect; Connect]) = [0; 1] /\
  run 0 64 [Disconnect 1; Connect] (server_after [Connect; Connect])
      (world_after_ops [Connect; Connect])
    = Ret (server_after scenario) (world_after_ops scenario) /\
  ids (server_after scenario) = [0; 2] /\
  ids (server_after scenario) <> [0; 1].
Proof.
  repeat split; try (vm_compute; reflexivity).
  vm_compute. discriminate.
Qed.

(** ** Framing layer *)

(** C7, as the code has it: [ivshmem_server_send_one_msg] always ends,
    makes one [sendmsg] call, and reports failure exactly when that
    call returns zero or less; any positive count of bytes written,
    also one less than the size of the payload, is reported as
    success. *)
Theorem send_one_msg_result (sock payload fd : Z) (w : World) :
  exists n r w',
    ivshmem_server_send_one_msg sock payload fd w = Ret r w' /\
    (n, errno w') = os w (trace w) (Sendmsg sock payload (cmsg_of fd)) /\
    trace w' = trace w ++ [(Sendmsg sock payload (cmsg_of fd), n)] /\
    (r = -1 <-> n <= 0) /\
    (r = 0 <-> 0 < n).
Proof.
  unfold ivshmem_server_send_one_msg, bind, syscall.
  destruct (os w (trace w) (Sendmsg sock payload (cmsg_of fd))) as [n e] eqn:E.
  simpl. exists n. destruct (n <=? 0) eqn:L; unfold ret.
  - exists (-1). eexists. split; [reflexivity |]. simpl.
    repeat split; intros; try lia.
  - exists 0. eexists. split; [reflexivity |]. simpl.
    repeat split; intros; try lia.
Qed.

(** C7, as it is written, fails: a write of 3 of the 8 bytes of the
    payload is reported as success. *)
Lemma partial_write_not_reported :
  exists w',
    ivshmem_server_send_one_msg 7 5 (-1) (world_of os_short_write) = Ret 0 w' /\
    trace w' = [(Sendmsg 7 5 None, 3)] /\
    0 < 3 < sizeof_long.
Proof.
  eexists. split; [vm_compute; reflexivity |].
  split; [reflexivity |]. unfold sizeof_long. lia.
Qed.

(** ** Disconnection broadcast *)

(** C5, as the code has it: when a registered peer [peer] is
    disconnected, the server closes its socket, unlinks it from the
    registry, then sends one message with the id of [peer] and no
    descriptor to each peer that is left, in the order of the registry,
    and to nobody else; the vectors of [peer] are closed after that,
    and the structure is freed last. The peer that left is not among
    those that are told. A part at least of a message is written when
    its [sendmsg] returns a positive count, and the message arrives
    whole when its [sendmsg] returns its length; the server looks at
    neither. *)
Theorem disconnection_broadcast (server : IvshmemServer)
    (peer : IvshmemServerPeer) (w : World) :
  invariant server ->
  In peer (peer_list server) ->
  exists server' w' evs,
    ivshmem_server_free_peer server peer w = Ret server' w' /\
    extends w w' evs /\
    map fst evs
      = [Close (peer_sock_fd peer); QRemove peer]
        ++ map (fun other =>
                  Sendmsg (peer_sock_fd other) (peer_id peer) None)
               (peer_list server')
        ++ map Close (peer_vectors peer)
        ++ [GFree peer] /\
    ~ In peer (peer_list server') /\
    (forall other, In other (peer_list server') <->
                   In other (peer_list server) /\ other <> peer) /\
    (NoDup (map peer_sock_fd (peer_list server)) ->
     sent_to (peer_sock_fd peer) (map fst evs) = [] /\
     forall other, In other (peer_list server') ->
       sent_to (peer_sock_fd other) (map fst evs) = [(peer_id peer, None)]) /\
    (sends_succeed evs ->
     forall sock, written_to sock evs = sent_to sock (map fst evs)) /\
    (sends_whole evs ->
     forall sock, delivered_to sock evs = sent_to sock (map fst evs)).
Proof.
  intros (Hn & Ho & _) Hin.
  unfold registry_ok in Ho. rewrite Forall_forall in Ho.
  destruct (Ho _ Hin) as [_ Hl].
  destruct (free_peer_run server peer w Hl) as (w' & evs & H & X & Mf).
  eexists _, w', evs. split; [exact H |]. split; [exact X |]. simpl peer_list.
  assert (Hgone : ~ In peer (qtailq_remove peer (peer_list server)))
    by (apply qtailq_remove_gone; exact Hn).
  split; [exact Mf |]. split; [exact Hgone |]. split; [| split].
  3: { split; intros Hall sock;
         [now apply written_when_sent | now apply delivered_when_whole]. }
  - intros other. split.
    + intros Hx. split; [eapply qtailq_remove_In; eauto |].
      intros ->. contradiction.
    + intros [Hx Hne]. now apply qtailq_remove_other.
  - intros Hs.
    destruct (qtailq_remove_NoDup_map peer_sock_fd peer _ Hs) as [Hs' Hp].
    specialize (Hp Hin).
    assert (Hshape : forall sock,
              sent_to sock (map fst evs)
              = sent_to sock (goodbyes peer (qtailq_remove peer (peer_list server)))).
    { intros sock. rewrite Mf, !sent_to_app. simpl sent_to at 1.
      rewrite (sent_to_silent sock (map Close _)) by apply map_Close_silent.
      simpl. now rewrite app_nil_r. }
    split.
    + rewrite Hshape, goodbyes_each. apply sent_to_flat_map_none.
      intros x Hx. apply sent_to_goodbye_other. intros E. apply Hp.
      rewrite <- E. now apply in_map.
    + intros other Hother. rewrite Hshape, goodbyes_each.
      rewrite (sent_to_flat_map_unique (peer_sock_fd other) _ _ other Hs' Hother).
      * simpl. now rewrite Z.eqb_refl.
      * intros x Hx. now apply sent_to_goodbye_other.
Qed.

Lemma disconnection_broadcast_witness :
  invariant (server_after [Connect; Connect; Connect]) /\
  In second_peer (peer_list (server_after [Connect; Connect; Connect])) /\
  exists server' w' evs,
    second_leaves [Connect; Connect; Connect] = Ret server' w' /\
    extends (world_after_ops [Connect; Connect; Connect]) w' evs /\
    sends (map fst evs) = [Sendmsg 5 1 None; Sendmsg 27 1 None].
Proof.
  assert (I : invariant (server_after [Connect; Connect; Connect])).
  { refine (proj1 (run_invariant 0 (cap := 64) [Connect; Connect; Connect]
                     server2
                     (world_of os_ok) _
                     (world_after_ops [Connect; Connect; Connect]) _
                     (fresh_invariant server2 (conj eq_refl eq_refl)))).
    vm_compute. reflexivity. }
  assert (Hin : In second_peer
                   (peer_list (server_after [Connect; Connect; Connect])))
    by (vm_compute; right; left; reflexivity).
  split; [exact I |]. split; [exact Hin |].
  destruct (disconnection_broadcast _ _
              (world_after_ops [Connect; Connect; Connect]) I Hin)
    as (server' & w' & evs & H & X & Mf & _).
  exists server', w', evs. split; [exact H |]. split; [exact X |].
  rewrite Mf. apply free_peer_server in H. rewrite H.
  vm_compute. reflexivity.
Defined.

(** C5, as it is written, fails: when the socket of the first peer
    takes no message, the second peer leaves all the same, and the
    first peer, which is left, has been given no message. *)
Lemma goodbye_not_received :
  ivshmem_server_free_peer
    (server_after_in (os_refuse_to 5 1) [Connect; Connect]) second_peer
    (world_after_in (os_refuse_to 5 1) [Connect; Connect])
  = Ret (server_after_in (os_refuse_to 5 1) [Connect; Connect; Disconnect 1])
        (world_after_in (os_refuse_to 5 1) [Connect; Connect; Disconnect 1]) /\
  map peer_sock_fd
      (peer_list (server_after_in (os_refuse_to 5 1)
                    [Connect; Connect; Disconnect 1])) = [5] /\
  sent_to 5
    (map fst
       (gained (world_after_in (os_refuse_to 5 1) [Connect; Connect])
               (world_after_in (os_refuse_to 5 1)
                  [Connect; Connect; Disconnect 1])))
  = [(1, None)] /\
  delivered_to 5
    (gained (world_after_in (os_refuse_to 5 1) [Connect; Connect])
            (world_after_in (os_refuse_to 5 1)
               [Connect; Connect; Disconnect 1]))
  = [].
Proof. repeat split; vm_compute; reflexivity. Qed.

(** ** Vector arrays *)




(** ** Aborted handshakes *)

(** C10: when a connection was accepted and its handshake is given up,
    the server is as before (registry, listening socket, shared-memory
    descriptor, paths, size, number of vectors, verbosity) but for the
    counter, which stays one past the id that was found for the peer;
    the next search, from that counter, in a registry of fewer than
    [2^64 - 1] peers, finds another id. *)
Theorem aborted_handshake_frame (ver : Z) (cap : nat) (server : IvshmemServer)
    (w : World)
    (server' : IvshmemServer) (w' : World) :
  ivshmem_server_handle_new_conn ver cap server w = Ret (-1, server') w' ->
  0 <= fst (os w (trace w) (Accept4 (sock_fd server))) ->
  exists unused,
    get_unused_id server = Some unused /\
    cur_id server' = wrap_long (unused + 1) /\
    peer_list server' = peer_list server /\
    sock_fd server' = sock_fd server /\
    shm_fd server' = shm_fd server /\
    n_vectors server' = n_vectors server /\
    shm_size server' = shm_size server /\
    unix_sock_path server' = unix_sock_path server /\
    shm_path server' = shm_path server /\
    verbose server' = verbose server /\
    forall later next,
      cur_id later = cur_id server' ->
      Z.of_nat (List.length (peer_list later)) < 2 ^ 64 - 1 ->
      get_unused_id later = Some next ->
      next <> unused.
Proof.
  intros H Hacc.
  assert (Hshape : exists unused,
            get_unused_id server = Some unused /\
            server' = set_cur_id server (wrap_long (unused + 1))).
  { destruct (aborted_run _ _ _ _ _ H Hacc)
      as (newfd & vs & failed & sent & tl & peer & k
          & _ & _ & _ & _ & _ & _ & _ & _ & U & E).
    now exists (peer_id peer). }
  destruct Hshape as (unused & U & ->). exists unused.
  split; [exact U |]. simpl. repeat (split; [reflexivity |]).
  intros later next Hcur Hlen Hnext E. subst next.
  unfold get_unused_id in Hnext. rewrite Hcur in Hnext.
  apply probe_id_Some in Hnext.
  destruct Hnext as (k & Hk & Hu & _).
  rewrite candidate_in_range in Hu by apply wrap_long_range.
  rewrite wrap_long_add in Hu.
  assert (Hr : - 2 ^ 63 <= unused < 2 ^ 63)
    by (rewrite Hu; apply wrap_long_range).
  rewrite <- (wrap_long_id unused Hr) in Hu at 1.
  apply wrap_long_inj in Hu; lia.
Qed.

Lemma aborted_handshake_frame_witness :
  first_conn (os_eventfd_limit 1)
    = Ret (-1, snd (value_after (0, server2) (first_conn (os_eventfd_limit 1))))
          (world_after (first_conn (os_eventfd_limit 1))) /\
  0 <= fst (os_eventfd_limit 1 [] (Accept4 4)) /\
  cur_id (snd (value_after (0, server2) (first_conn (os_eventfd_limit 1)))) = 1 /\
  peer_list (snd (value_after (0, server2) (first_conn (os_eventfd_limit 1))))
    = [].
Proof.
  assert (H : first_conn (os_eventfd_limit 1)
              = Ret (-1, snd (value_after (0, server2)
                                (first_conn (os_eventfd_limit 1))))
                    (world_after (first_conn (os_eventfd_limit 1))))
    by (vm_compute; reflexivity).
  assert (A : 0 <= fst (os_eventfd_limit 1 [] (Accept4 4)))
    by (vm_compute; discriminate).
  split; [exact H |]. split; [exact A |].
  destruct (aborted_handshake_frame 0 64 server2 (world_of (os_eventfd_limit 1))
              _ _ H A) as (unused & U & C & P & _).
  split; [vm_compute; reflexivity | exact P].
Defined.

(** C3: when the handshake of an accepted connection fails, all the
    descriptors that [eventfd] had handed out for the peer are closed
    (last first), then the new socket is closed, then the structure of
    the peer is freed, in this order and as the last things done; no
    peer is inserted and the registry is as before. A handshake that
    completes inserts the peer as its last action, after the initial
    info and every advertisement has been sent. *)
Theorem aborted_handshake_unwinds (ver : Z) (cap : nat) (server : IvshmemServer)
    (w : World) (r : Z) (server' : IvshmemServer) (w' : World) :
  ivshmem_server_handle_new_conn ver cap server w = Ret (r, server') w' ->
  (r = 0 \/ r = -1) /\
  (r = -1 -> peer_list server' = peer_list server) /\
  (r = -1 -> 0 <= fst (os w (trace w) (Accept4 (sock_fd server))) ->
   exists newfd evs peer before,
     extends w w' ((Accept4 (sock_fd server), newfd) :: evs) /\
     peer_sock_fd peer = newfd /\
     closed (map fst evs) = rev (allocated evs) ++ [newfd] /\
     freed (map fst evs) = [peer] /\
     inserted (map fst evs) = [] /\
     map fst evs
       = before ++ map Close (rev (allocated evs)) ++ [Close newfd; GFree peer] /\
     closed before = []) /\
  (r = 0 -> registry_ok server ->
   exists evs peer before,
     extends w w' evs /\
     map fst evs = before ++ [QInsertTail peer] /\
     inserted before = [] /\
     sends before = initial_info ver server peer ++ advertisements server peer /\
     peer_list server' = peer_list server ++ [peer]).
Proof.
  intros H. destruct (handle_new_conn_status _ _ _ _ _ _ H) as [Hr Hp].
  split; [exact Hr |]. split; [exact Hp |]. split.
  - intros -> Hacc.
    destruct (aborted_run _ _ _ _ _ H Hacc)
      as (newfd & vs & failed & sent & tl & peer & k
          & X & _ & Hv & _ & Hf & Ms & Mt & Hs & _).
    assert (Hsent : Forall (fun a => is_send a = true) (map fst sent))
      by (rewrite Ms; apply firstn_Forall, initial_info_all_sends).
    destruct (unwound_log (sock_fd server) newfd vs failed sent tl peer
                Hv Hf Hsent Mt Hs) as (La & Lc & Lf & Li).
    simpl in La, Lc, Lf, Li.
    exists newfd, (map (pair Eventfd) vs ++ failed ++ sent ++ tl), peer,
           (map (fun _ => Eventfd) vs ++ map fst failed ++ map fst sent).
    split; [exact X |]. split; [exact Hs |].
    rewrite La. split; [exact Lc |]. split; [exact Lf |]. split; [exact Li |].
    split.
    + rewrite !map_app, map_fst_eventfds, Mt. unfold unwinding.
      rewrite Hs. now rewrite <- !app_assoc.
    + rewrite !closed_app.
      rewrite (closed_none (map _ vs)) by (now apply eventfds_only).
      rewrite (closed_none (map fst sent)) by (now apply sends_not_close).
      destruct Hf as [-> | (bad & _ & ->)]; reflexivity.
  - intros -> Hreg.
    destruct (connected_run _ _ _ _ _ Hreg H)
      as (peer & evs & sent & tl & -> & _ & _ & _ & _ & X & Ml & _).
    destruct (handshake_log_split ver server peer) as (before & Hb & Hi & Hs).
    exists evs, peer, before.
    split; [exact X |]. split; [now rewrite Ml |].
    split; [exact Hi |]. split; [exact Hs | reflexivity].
Qed.

Lemma aborted_handshake_unwinds_witness :
  first_conn (os_refuse_payload 0)
    = Ret (-1, snd (value_after (0, server2) (first_conn (os_refuse_payload 0))))
          (world_after (first_conn (os_refuse_payload 0))) /\
  peer_list (snd (value_after (0, server2) (first_conn (os_refuse_payload 0))))
    = [] /\
  closed (actions (world_after (first_conn (os_refuse_payload 0)))) = [7; 6; 5].
Proof.
  assert (H : first_conn (os_refuse_payload 0)
              = Ret (-1, snd (value_after (0, server2)
                                (first_conn (os_refuse_payload 0))))
                    (world_after (first_conn (os_refuse_payload 0))))
    by (vm_compute; reflexivity).
  split; [exact H |].
  split; [| vm_compute; reflexivity].
  exact (proj1 (proj2 (aborted_handshake_unwinds 0 64 server2 _ _ _ _ H)) eq_refl).
Defined.

(** ** Handshake *)

(** C2, as the code has it: a handshake that completes, in a started
    server whose registry is in order, sends exactly these messages, in
    this order: to the new peer the protocol version without
    descriptor, its id without descriptor and the shared-memory
    descriptor; to each peer already registered, one message per vector
    of the new peer, with the id of the new peer and that vector; to
    the new peer, for each peer already registered, one message per
    vector of that peer, with its id and that vector; to the new peer,
    one message per vector of its own with its own id. Every peer has
    [n_vectors] vectors. When the sockets of the peers are pairwise
    distinct, this is what the socket of the new peer and the socket of
    each registered peer are sent. Of the first three messages a part
    at least was written: their [sendmsg] returned a positive count,
    which is all that the server tests (it does not compare the count
    with the length of the message). A message arrives whole when its
    [sendmsg] returns its length; the server does not look at what the
    sends after the third return. *)
Theorem handshake_messages (ver : Z) (cap : nat) (server : IvshmemServer)
    (w : World)
    (server' : IvshmemServer) (w' : World) :
  invariant server ->
  0 <= shm_fd server ->
  ivshmem_server_handle_new_conn ver cap server w = Ret (0, server') w' ->
  exists peer evs,
    peer_list server' = peer_list server ++ [peer] /\
    extends w w' evs /\
    Forall (fun p => List.length (peer_vectors p) = n_vectors server)
           (peer_list server') /\
    sends (map fst evs)
      = [ Sendmsg (peer_sock_fd peer) ver None;
          Sendmsg (peer_sock_fd peer) (peer_id peer) None;
          Sendmsg (peer_sock_fd peer) (-1) (Some (shm_fd server)) ]
        ++ flat_map (fun other =>
             map (fun v => Sendmsg (peer_sock_fd other) (peer_id peer) (Some v))
                 (peer_vectors peer))
           (peer_list server)
        ++ flat_map (fun other =>
             map (fun v => Sendmsg (peer_sock_fd peer) (peer_id other) (Some v))
                 (peer_vectors other))
           (peer_list server)
        ++ map (fun v => Sendmsg (peer_sock_fd peer) (peer_id peer) (Some v))
               (peer_vectors peer) /\
    (NoDup (map peer_sock_fd (peer_list server')) ->
     sent_to (peer_sock_fd peer) (map fst evs)
       = [ (ver, None); (peer_id peer, None); (-1, Some (shm_fd server)) ]
         ++ flat_map (fun other =>
              map (fun v => (peer_id other, Some v)) (peer_vectors other))
            (peer_list server)
         ++ map (fun v => (peer_id peer, Some v)) (peer_vectors peer) /\
     forall other, In other (peer_list server) ->
       sent_to (peer_sock_fd other) (map fst evs)
       = map (fun v => (peer_id peer, Some v)) (peer_vectors peer)) /\
    (exists more,
       written_to (peer_sock_fd peer) evs
       = [ (ver, None); (peer_id peer, None); (-1, Some (shm_fd server)) ]
         ++ more) /\
    (sends_succeed evs ->
     forall sock, written_to sock evs = sent_to sock (map fst evs)) /\
    (sends_whole evs ->
     forall sock, delivered_to sock evs = sent_to sock (map fst evs)).
Proof.
  intros (_ & Hreg & Hval) Hshm H.
  destruct (connected_run _ _ _ _ _ Hreg H)
    as (peer & evs & sent & tl & -> & _ & (Hcnt & Hlen) & Hv & _ & X & Ml
        & Hevs & Hpos & Msent).
  exists peer, evs. split; [reflexivity |]. split; [exact X |].
  unfold registry_ok, registry_valid in *. rewrite Forall_forall in Hreg, Hval.
  split.
  { simpl. apply Forall_app. split.
    - apply Forall_forall. intros p Hp. destruct (Hreg p Hp). congruence.
    - repeat constructor. congruence. }
  assert (Hlog : sends (map fst evs)
                 = initial_info ver server peer ++ advertisements server peer)
    by (rewrite Ml; apply handshake_log_sends).
  assert (Hinfo : initial_info ver server peer
                  = [ Sendmsg (peer_sock_fd peer) ver None;
                      Sendmsg (peer_sock_fd peer) (peer_id peer) None;
                      Sendmsg (peer_sock_fd peer) (-1) (Some (shm_fd server)) ])
    by (unfold initial_info; now rewrite cmsg_of_valid).
  assert (Hself : forall sock id,
            advertise sock id (peer_vectors peer)
            = map (fun v => Sendmsg sock id (Some v)) (peer_vectors peer))
    by (intros; now apply advertise_valid).
  assert (Hadv : advertisements server peer
            = flat_map (fun other =>
                map (fun v => Sendmsg (peer_sock_fd other) (peer_id peer) (Some v))
                    (peer_vectors peer))
                (peer_list server)
              ++ flat_map (fun other =>
                   map (fun v => Sendmsg (peer_sock_fd peer) (peer_id other)
                                   (Some v))
                       (peer_vectors other))
                 (peer_list server)
              ++ map (fun v => Sendmsg (peer_sock_fd peer) (peer_id peer) (Some v))
                     (peer_vectors peer)).
  { unfold advertisements. f_equal; [| f_equal].
    - apply flat_map_ext. intros o. apply Hself.
    - apply flat_map_ext_In.
      intros o Ho. apply advertise_valid. now apply Hval.
    - apply Hself. }
  split; [rewrite Hlog, Hinfo, Hadv; reflexivity |].
  split.
  2: { split;
         [| split; intros Hall sock;
            [now apply written_when_sent | now apply delivered_when_whole]].
       exists (written_to (peer_sock_fd peer) tl). rewrite Hevs.
       change ((Accept4 (sock_fd server), peer_sock_fd peer)
               :: map (pair Eventfd) (peer_vectors peer) ++ sent ++ tl)
         with ([(Accept4 (sock_fd server), peer_sock_fd peer)]
               ++ map (pair Eventfd) (peer_vectors peer) ++ sent ++ tl).
       rewrite !written_to_app.
       rewrite (written_silent _ [_]) by (repeat constructor).
       rewrite (written_silent _ (map _ _))
         by (rewrite map_fst_eventfds; now apply eventfds_only).
       rewrite (written_all _ sent Hpos), Msent, Hinfo. simpl.
       now rewrite !Z.eqb_refl. }
  intros Hsock. simpl in Hsock. rewrite map_app in Hsock. simpl in Hsock.
  apply NoDup_app_remove_r in Hsock as Hs1.
  assert (Hnew : forall o, In o (peer_list server) ->
                           peer_sock_fd o <> peer_sock_fd peer).
  { intros o Ho E. apply NoDup_remove_2 in Hsock. apply Hsock.
    rewrite app_nil_r, <- E. now apply in_map. }
  assert (Hto : forall sock,
            sent_to sock (map fst evs)
            = sent_to sock (initial_info ver server peer
                            ++ advertisements server peer)).
  { intros sock. rewrite Ml. unfold handshake_log.
    change (sent_to sock (map (fun _ : Z => Eventfd) (peer_vectors peer)
                          ++ initial_info ver server peer
                          ++ advertisements server peer ++ [QInsertTail peer])
            = sent_to sock (initial_info ver server peer
                            ++ advertisements server peer)).
    rewrite !sent_to_app.
    rewrite (sent_to_silent sock (map _ _)) by (now apply eventfds_only).
    simpl (sent_to sock [QInsertTail peer]). now rewrite app_nil_r. }
  split.
  - rewrite Hto, Hinfo, Hadv, !sent_to_app.
    rewrite sent_to_flat_map_none
      by (intros o Ho; apply sent_to_vectors_other; now apply Hnew).
    rewrite sent_to_others_vectors, sent_to_vectors_same.
    simpl. rewrite !Z.eqb_refl. reflexivity.
  - intros other Hother. specialize (Hnew other Hother).
    rewrite Hto, Hinfo, Hadv, !sent_to_app.
    rewrite (sent_to_flat_map_unique (peer_sock_fd other) _ _ other Hs1 Hother)
      by (intros x Hx; now apply sent_to_vectors_other).
    rewrite (sent_to_flat_map_none (peer_sock_fd other))
      by (intros o Ho; apply sent_to_vectors_other; lia).
    rewrite (sent_to_vectors_other (peer_sock_fd other) (peer_sock_fd peer))
      by lia.
    rewrite sent_to_vectors_same. simpl.
    destruct (peer_sock_fd peer =? peer_sock_fd other) eqn:E; [lia |].
    simpl. now rewrite !app_nil_r.
Qed.

Lemma handshake_messages_witness :
  invariant (server_after [Connect]) /\
  0 <= shm_fd (server_after [Connect]) /\
  next_conn [Connect]
    = Ret (0, server_after [Connect; Connect])
          (world_after_ops [Connect; Connect]) /\
  NoDup (map peer_sock_fd (peer_list (server_after [Connect; Connect]))) /\
  sent_to 14 (skipn (List.length (actions (world_after_ops [Connect])))
                    (actions (world_after_ops [Connect; Connect])))
    = [ (0, None); (1, None); (-1, Some 3);
        (0, Some 6); (0, Some 7); (1, Some 15); (1, Some 16) ] /\
  sent_to 5 (skipn (List.length (actions (world_after_ops [Connect])))
                   (actions (world_after_ops [Connect; Connect])))
    = [ (1, Some 15); (1, Some 16) ].
Proof.
  assert (I : invariant (server_after [Connect])).
  { refine (proj1 (run_invariant 0 (cap := 64) [Connect]
                     server2 (world_of os_ok) _
                     (world_after_ops [Connect]) _
                     (fresh_invariant server2 (conj eq_refl eq_refl)))).
    vm_compute. reflexivity. }
  assert (S : 0 <= shm_fd (server_after [Connect]))
    by (vm_compute; discriminate).
  assert (H : next_conn [Connect]
              = Ret (0, server_after [Connect; Connect])
                    (world_after_ops [Connect; Connect]))
    by (vm_compute; reflexivity).
  assert (N : NoDup (map peer_sock_fd
                       (peer_list (server_after [Connect; Connect]))))
    by (vm_compute; repeat constructor; simpl; intuition discriminate).
  split; [exact I |]. split; [exact S |]. split; [exact H |].
  split; [exact N |].
  destruct (handshake_messages 0 64 _ _ _ _ I S H)
    as (peer & evs & Hp & [_ Ht] & _ & _ & _).
  split; vm_compute; reflexivity.
Defined.

(** C2, as it is written, fails: when the socket of the first peer
    takes no message, the handshake of the second peer completes all the
    same, and the first peer has been given none of the two messages
    that were sent to it. *)
Lemma advertisement_not_received :
  ivshmem_server_handle_new_conn 0 64
    (server_after_in (os_refuse_to 5 1) [Connect])
    (world_after_in (os_refuse_to 5 1) [Connect])
  = Ret (0, server_after_in (os_refuse_to 5 1) [Connect; Connect])
        (world_after_in (os_refuse_to 5 1) [Connect; Connect]) /\
  map peer_sock_fd
      (peer_list (server_after_in (os_refuse_to 5 1) [Connect; Connect]))
  = [5; 14] /\
  sent_to 5
    (map fst
       (gained (world_after_in (os_refuse_to 5 1) [Connect])
               (world_after_in (os_refuse_to 5 1) [Connect; Connect])))
  = [(1, Some 15); (1, Some 16)] /\
  delivered_to 5
    (gained (world_after_in (os_refuse_to 5 1) [Connect])
            (world_after_in (os_refuse_to 5 1) [Connect; Connect]))
  = [].
Proof. repeat split; vm_compute; reflexivity. Qed.

(** ** Dispatch cycle *)

(** C8, where the code departs from it: an [accept4] that is
    interrupted fails the cycle when the debug output is on and
    [printf] changes [errno]. The listening socket of [server2_verbose]
    is ready and [accept4] returns -1 with [EINTR]; the message of
    [IVSHMEM_SERVER_DEBUG] is then printed, to a stdout that is closed,
    which leaves [EBADF] in [errno]; the test [errno != EINTR] of the
    cycle comes after that and fails the cycle. With the debug output
    off, or with a [printf] that leaves [errno] alone, the same
    interruption is swallowed, as the claim says. *)
Theorem interrupted_accept_fails_cycle :
  os_stdout_closed [] (Accept4 (sock_fd server2_verbose)) = (-1, EINTR) /\
  ivshmem_server_handle_fds 0 64 server2_verbose (fun fd => fd =? 4) 5
    (world_of os_stdout_closed)
  = Ret (-1, server2_verbose)
        (mkWorld os_stdout_closed [(Accept4 4, -1)] 9) /\
  ivshmem_server_handle_fds 0 64 server2 (fun fd => fd =? 4) 5
    (world_of os_stdout_closed)
  = Ret (0, server2) (mkWorld os_stdout_closed [(Accept4 4, -1)] EINTR) /\
  ivshmem_server_handle_fds 0 64 server2_verbose (fun fd => fd =? 4) 5
    (world_of os_quiet_printf)
  = Ret (0, server2_verbose)
        (mkWorld os_quiet_printf [(Accept4 4, -1)] EINTR).
Proof.
  split; [reflexivity |]. split; [vm_compute; reflexivity |].
  split; vm_compute; reflexivity.
Qed.

(** ** Shared-memory provisioner *)

(** C6, where the code departs from it: for a requested size of
    [2^31 + 1] bytes the smallest power of two that is not less is
    [2^32], which is more than 1 GiB, so the sizing would have to fail
    without asking for any size. In the 32-bit arithmetic of the code
    the increment after the smearing wraps to 0: the sizing asks the
    storage for size 0 and reports success. For sizes from 1 to [2^31]
    the code rounds and doubles as described (lemma
    [ftruncate_in_range]). *)
Theorem sizing_wraps_above_2G :
  align_pow2 (2 ^ 31 + 1) = 0 /\
  sizing os_ok (2 ^ 31 + 1) = Ret 0 (world_after (sizing os_ok (2 ^ 31 + 1))) /\
  trace (world_after (sizing os_ok (2 ^ 31 + 1))) = [(Ftruncate 3 0, 0)] /\
  (forall e, 0 <= e -> 2 ^ 31 + 1 <= 2 ^ e ->
             IVSHMEM_SERVER_MAX_HUGEPAGE_SIZE < 2 ^ e).
Proof.
  split; [vm_compute; reflexivity |].
  split; [vm_compute; reflexivity |].
  split; [vm_compute; reflexivity |].
  intros e He Hle.
  destruct (Z_le_gt_dec e 31) as [L | G].
  - assert (2 ^ e <= 2 ^ 31) by (apply Z.pow_le_mono_r; lia). lia.
  - assert (2 ^ 32 <= 2 ^ e) by (apply Z.pow_le_mono_r; lia).
    unfold IVSHMEM_SERVER_MAX_HUGEPAGE_SIZE.
    change (2 ^ 32) with 4294967296 in *. lia.
Qed.

(* ================================================================= *)
(** * Further properties of the code *)

(** ** The set of descriptors to watch *)

Lemma wrap_int_id (z : Z) : - 2 ^ 31 <= z < 2 ^ 31 -> wrap_int z = z.
Proof. intros H. unfold wrap_int. rewrite Z.mod_small; lia. Qed.

Lemma watch_fold_set (l : list IvshmemServerPeer) (x : Z) :
  forall watched,
    fst (fold_left (fun watched peer => watch_fd (peer_sock_fd peer) watched)
                   l watched) x
    = existsb (fun peer => x =? peer_sock_fd peer) l || fst watched x.
Proof.
  induction l as [| p t IH]; intros watched; simpl; [reflexivity |].
  rewrite IH. simpl. unfold FD_SET.
  destruct (x =? peer_sock_fd p), (existsb _ t), (fst watched x); reflexivity.
Qed.

(** X1: [ivshmem_server_get_fds] adds to the set the listening socket
    and the socket of every registered peer, and nothing else: a
    descriptor is in the set afterwards exactly when it was there
    before or is one of those. *)
Theorem get_fds_set (server : IvshmemServer) (fds : Z -> bool) (maxfd x : Z) :
  fst (ivshmem_server_get_fds server fds maxfd) x = true <->
  fds x = true \/ In x (watched_fds server).
Proof.
  unfold ivshmem_server_get_fds, watched_fds. rewrite watch_fold_set.
  simpl. unfold FD_SET. rewrite !orb_true_iff, existsb_exists. split.
  - intros [(p & Hp & E) | [E | E]].
    + right. right. apply Z.eqb_eq in E. subst x. now apply in_map.
    + right. left. apply Z.eqb_eq in E. now subst x.
    + now left.
  - intros [E | [E | E]].
    + right. now right.
    + right. left. apply Z.eqb_eq. now subst x.
    + left. apply in_map_iff in E. destruct E as (p & E & Hp).
      exists p. split; [exact Hp |]. apply Z.eqb_eq. now subst x.
Qed.

Lemma watch_fold_max (l : list IvshmemServerPeer) :
  forall watched,
    Forall (fun peer => - 2 ^ 31 <= peer_sock_fd peer < 2 ^ 31 - 1) l ->
    let maxfd' :=
      snd (fold_left (fun watched peer => watch_fd (peer_sock_fd peer) watched)
                     l watched) in
    snd watched <= maxfd' /\
    Forall (fun peer => peer_sock_fd peer < maxfd') l /\
    (maxfd' = snd watched \/
     exists peer, In peer l /\ maxfd' = peer_sock_fd peer + 1).
Proof.
  induction l as [| p t IH]; intros watched Hr; simpl.
  - split; [lia |]. split; [constructor | now left].
  - inversion Hr as [| ? ? Hp Ht]; subst.
    destruct (IH (watch_fd (peer_sock_fd p) watched) Ht) as (Hle & Hall & Htight).
    simpl in Hle, Htight.
    rewrite (wrap_int_id (peer_sock_fd p + 1)) in Hle, Htight by lia.
    destruct (peer_sock_fd p >=? snd watched) eqn:C.
    + split; [lia |]. split; [constructor; [lia | exact Hall] |].
      right. destruct Htight as [E | (q & Hq & E)].
      * exists p. split; [now left | exact E].
      * exists q. split; [now right | exact E].
    + split; [lia |]. split; [constructor; [lia | exact Hall] |].
      destruct Htight as [E | (q & Hq & E)]; [now left |].
      right. exists q. split; [now right | exact E].
Qed.

Lemma get_fds_maxfd_spec (server : IvshmemServer) (fds : Z -> bool)
    (maxfd : Z) :
  Forall (fun fd => - 2 ^ 31 <= fd < 2 ^ 31 - 1) (watched_fds server) ->
  maxfd <= snd (ivshmem_server_get_fds server fds maxfd) /\
  Forall (fun fd => fd < snd (ivshmem_server_get_fds server fds maxfd))
         (watched_fds server) /\
  (snd (ivshmem_server_get_fds server fds maxfd) = maxfd \/
   exists fd, In fd (watched_fds server) /\
              snd (ivshmem_server_get_fds server fds maxfd) = fd + 1).
Proof.
  unfold watched_fds. intros Hr. inversion Hr as [| ? ? Hs Hp]; subst.
  rewrite Forall_map in Hp.
  destruct (watch_fold_max (peer_list server)
              (watch_fd (sock_fd server) (fds, maxfd)) Hp)
    as (Hle & Hall & Htight).
  unfold ivshmem_server_get_fds.
  set (m := snd (fold_left _ _ _)) in *.
  simpl in Hle, Htight.
  rewrite (wrap_int_id (sock_fd server + 1)) in Hle, Htight by lia.
  destruct (sock_fd server >=? maxfd) eqn:C.
  - split; [lia |]. split.
    + constructor; [lia |]. now rewrite Forall_map.
    + right. destruct Htight as [E | (q & Hq & E)].
      * exists (sock_fd server). split; [now left | exact E].
      * exists (peer_sock_fd q). split; [right; now apply in_map | exact E].
  - split; [lia |]. split.
    + constructor; [lia |]. now rewrite Forall_map.
    + destruct Htight as [E | (q & Hq & E)]; [now left |].
      right. exists (peer_sock_fd q). split; [right; now apply in_map | exact E].
Qed.

(** X2: when the descriptors watched are below [INT_MAX], the [maxfd]
    that [ivshmem_server_get_fds] leaves is the greater of the [maxfd]
    it was given and one more than the greatest descriptor watched: it
    is not less than before, it is above the listening socket and every
    peer socket, and it is the old value or one more than one of
    them. *)
Theorem get_fds_maxfd (server : IvshmemServer) (fds : Z -> bool) (maxfd : Z) :
  Forall (fun fd => - 2 ^ 31 <= fd < 2 ^ 31 - 1) (watched_fds server) ->
  maxfd <= snd (ivshmem_server_get_fds server fds maxfd) /\
  Forall (fun fd => fd < snd (ivshmem_server_get_fds server fds maxfd))
         (watched_fds server) /\
  (snd (ivshmem_server_get_fds server fds maxfd) = maxfd \/
   exists fd, In fd (watched_fds server) /\
              snd (ivshmem_server_get_fds server fds maxfd) = fd + 1).
Proof. apply get_fds_maxfd_spec. Qed.

Lemma get_fds_maxfd_witness :
  Forall (fun fd => - 2 ^ 31 <= fd < 2 ^ 31 - 1)
         (watched_fds (server_after [Connect; Connect])) /\
  watched_fds (server_after [Connect; Connect]) = [4; 5; 14] /\
  snd (ivshmem_server_get_fds (server_after [Connect; Connect])
         (fun _ => false) 0) = 15 /\
  0 <= snd (ivshmem_server_get_fds (server_after [Connect; Connect])
              (fun _ => false) 0).
Proof.
  assert (E : watched_fds (server_after [Connect; Connect]) = [4; 5; 14])
    by (vm_compute; reflexivity).
  assert (R : Forall (fun fd => - 2 ^ 31 <= fd < 2 ^ 31 - 1)
                     (watched_fds (server_after [Connect; Connect])))
    by (rewrite E; repeat constructor; lia).
  split; [exact R |]. split; [exact E |].
  split; [vm_compute; reflexivity |].
  exact (proj1 (get_fds_maxfd (server_after [Connect; Connect])
                  (fun _ => false) 0 R)).
Defined.

(** ** What a dispatch cycle does to the registry *)

Lemma qtailq_remove_middle (p : IvshmemServerPeer)
    (kept t : list IvshmemServerPeer) :
  ~ In p kept -> qtailq_remove p (kept ++ p :: t) = kept ++ t.
Proof.
  induction kept as [| x k IH]; intros Hn; simpl.
  - destruct (peer_eq_dec p p) as [_ | N]; [reflexivity | now elim N].
  - destruct (peer_eq_dec p x) as [E | _].
    + exfalso. apply Hn. left. now symmetry.
    + f_equal. apply IH. intros H. apply Hn. now right.
Qed.

Lemma set_peer_list_twice (server : IvshmemServer)
    (l l' : list IvshmemServerPeer) :
  set_peer_list (set_peer_list server l) l' = set_peer_list server l'.
Proof. reflexivity. Qed.

Lemma set_peer_list_same (server : IvshmemServer) :
  set_peer_list server (peer_list server) = server.
Proof. now destruct server. Qed.

(** The sweep, from the peers [kept] so far and those still to
    [visit]: it ends, and keeps the peers that are not ready. *)
Lemma handle_fds_sweep_run (fds : Z -> bool) (maxfd : Z)
    (visit : list IvshmemServerPeer) :
  forall (kept : list IvshmemServerPeer) (server : IvshmemServer) (w : World),
    peer_list server = kept ++ visit ->
    NoDup (map peer_id (kept ++ visit)) ->
    Forall (fun p => List.length (peer_vectors p) = peer_vectors_count p) visit ->
    exists w',
      handle_fds_sweep visit server fds maxfd w
      = Ret (set_peer_list server
               (kept ++ filter (fun p => negb (ready fds maxfd p)) visit)) w'.
Proof.
  induction visit as [| p t IH]; intros kept server w Hl Hn Hv; simpl.
  - exists w. rewrite <- Hl, set_peer_list_same. reflexivity.
  - inversion Hv as [| ? ? Hp Ht]; subst.
    unfold bind at 1. destruct (debug_run server w) as (w0 & D & _).
    rewrite D. unfold ready at 1.
    destruct ((peer_sock_fd p <? maxfd) && fds (peer_sock_fd p)); simpl.
    + destruct (free_peer_run server p w0 Hp) as (w1 & evs & H & _).
      unfold bind. rewrite H.
      assert (Hk : ~ In p kept).
      { rewrite map_app in Hn. simpl in Hn. apply NoDup_remove_2 in Hn.
        intros Hin. apply Hn. apply in_or_app. left. now apply in_map. }
      rewrite Hl, (qtailq_remove_middle p kept t Hk).
      destruct (IH kept (set_peer_list server (kept ++ t)) w1 eq_refl)
        as (w' & H').
      { rewrite map_app in *. simpl in Hn. now apply NoDup_remove_1 in Hn. }
      { exact Ht. }
      exists w'. rewrite H'. now rewrite set_peer_list_twice.
    + destruct (IH (kept ++ [p]) server w0) as (w' & H').
      { rewrite Hl, <- app_assoc. reflexivity. }
      { now rewrite <- app_assoc. }
      { exact Ht. }
      exists w'. rewrite H', <- app_assoc. reflexivity.
Qed.

(** The ways a cycle goes. *)
Lemma handle_fds_cases (ver : Z) {cap : nat} (server : IvshmemServer)
    (fds : Z -> bool)
    (maxfd : Z) (w : World) (r : Z) (server' : IvshmemServer) (w' : World) :
  ivshmem_server_handle_fds ver cap server fds maxfd w = Ret (r, server') w' ->
  ((sock_fd server <? maxfd) && fds (sock_fd server) = true /\
   exists rc server1 w1,
     ivshmem_server_handle_new_conn ver cap server w = Ret (rc, server1) w1 /\
     ((rc = -1 /\ r = -1 /\ server' = server1 /\ errno w1 <> EINTR /\
       IVSHMEM_SERVER_DEBUG server1 w1 = Ret tt w') \/
      (r = 0 /\ (rc = 0 \/ errno w1 = EINTR) /\
       handle_fds_sweep (peer_list server1) server1 fds maxfd w1
       = Ret server' w')))
  \/
  ((sock_fd server <? maxfd) && fds (sock_fd server) = false /\
   r = 0 /\
   handle_fds_sweep (peer_list server) server fds maxfd w = Ret server' w').
Proof.
  intros H.
  assert (Hsweep : forall s w0,
            (swept <- handle_fds_sweep (peer_list s) s fds maxfd ; ret (0, swept)) w0
            = Ret (r, server') w' ->
            r = 0 /\ handle_fds_sweep (peer_list s) s fds maxfd w0 = Ret server' w').
  { intros s w0 E. unfold bind in E.
    destruct (handle_fds_sweep (peer_list s) s fds maxfd w0) as [s1 w1 | w1 |];
      try discriminate.
    unfold ret in E. inversion E; subst. now split. }
  unfold ivshmem_server_handle_fds in H.
  destruct ((sock_fd server <? maxfd) && fds (sock_fd server)).
  2: { right. split; [reflexivity |]. now apply Hsweep. }
  left. split; [reflexivity |].
  unfold bind at 1 in H.
  destruct (ivshmem_server_handle_new_conn ver cap server w)
    as [[rc server1] w1 | w1 |] eqn:Hc; try discriminate.
  exists rc, server1, w1. split; [reflexivity |].
  destruct (proj1 (handle_new_conn_status _ _ _ _ _ _ Hc)) as [-> | ->].
  - change (0 <? 0) with false in H. cbv iota in H.
    right. apply Hsweep in H. destruct H as [-> H].
    split; [reflexivity |]. split; [now left | exact H].
  - change (-1 <? 0) with true in H. cbv iota in H.
    unfold bind at 1, get_errno in H.
    destruct (errno w1 =? EINTR) eqn:He; cbn [negb] in H; cbv beta iota in H.
    + right. apply Hsweep in H. destruct H as [-> H].
      split; [reflexivity |]. split; [right; now apply Z.eqb_eq | exact H].
    + left. unfold bind in H.
      destruct (IVSHMEM_SERVER_DEBUG server1 w1) as [[] w2 | w2 |] eqn:D;
        try discriminate.
      unfold ret in H. inversion H; subst.
      split; [reflexivity |]. split; [reflexivity |]. split; [reflexivity |].
      split; [now apply Z.eqb_neq | reflexivity].
Qed.

(** X3: in a dispatch cycle that returns 0, after the connection was
    handled (when the listening socket was ready), the peers whose
    socket is below [maxfd] and set in [fds] are disconnected and the
    others are kept, in their order; the new peer of this cycle is
    swept like the others. A cycle that returns -1 disconnects nobody,
    ready or not. *)
Theorem cycle_registry (ver : Z) (cap : nat) (server : IvshmemServer)
    (fds : Z -> bool)
    (maxfd : Z) (w : World) (r : Z) (server' : IvshmemServer) (w' : World) :
  invariant server ->
  ivshmem_server_handle_fds ver cap server fds maxfd w = Ret (r, server') w' ->
  (r = -1 -> peer_list server' = peer_list server) /\
  (r = 0 ->
   exists server1,
     (if (sock_fd server <? maxfd) && fds (sock_fd server)
      then exists rc w1,
             ivshmem_server_handle_new_conn ver cap server w = Ret (rc, server1) w1
      else server1 = server) /\
     server' = set_peer_list server1
                 (filter (fun p => negb (ready fds maxfd p))
                         (peer_list server1))).
Proof.
  intros Hinv H.
  assert (Hsw : forall s w0, invariant s ->
            handle_fds_sweep (peer_list s) s fds maxfd w0 = Ret server' w' ->
            server' = set_peer_list s
                        (filter (fun p => negb (ready fds maxfd p))
                                (peer_list s))).
  { intros s w0 (Hd & Ho & _) E.
    destruct (handle_fds_sweep_run fds maxfd (peer_list s) [] s w0 eq_refl Hd)
      as (w1 & E').
    { unfold registry_ok in Ho. eapply Forall_impl; [| exact Ho].
      intros p [_ L]. exact L. }
    rewrite E' in E. now inversion E. }
  destruct (handle_fds_cases _ _ _ _ _ _ _ _ H)
    as [(Hready & rc & server1 & w1 & Hc & Hr) | (Hready & -> & Hs)];
    rewrite Hready.
  - pose proof (handle_new_conn_result ver cap server w) as R. rewrite Hc in R.
    destruct (new_conn_outcome_invariant _ _ _ _ _ _ R Hinv) as [Hinv1 _].
    destruct Hr as [(-> & -> & -> & _ & Hd) | (-> & _ & Hs)].
    + split; [| intros; lia]. intros _.
      exact (proj2 (handle_new_conn_status _ _ _ _ _ _ Hc) eq_refl).
    + split; [intros; lia |]. intros _. exists server1.
      split; [now exists rc, w1 | now apply (Hsw server1 w1)].
  - split; [intros; lia |]. intros _. exists server.
    split; [reflexivity | now apply (Hsw server w)].
Qed.

Lemma cycle_registry_witness :
  invariant (server_after [Connect; Connect]) /\
  ivshmem_server_handle_fds 0 64 (server_after [Connect; Connect])
    (fun fd => fd =? 5) 15 (world_after_ops [Connect; Connect])
  = Ret (0, value_after server2
              (run 0 64 [Connect; Connect; Disconnect 0] server2 (world_of os_ok)))
        (world_after
           (ivshmem_server_handle_fds 0 64 (server_after [Connect; Connect])
              (fun fd => fd =? 5) 15 (world_after_ops [Connect; Connect]))) /\
  ids (server_after [Connect; Connect; Disconnect 0]) = [1].
Proof.
  assert (I : invariant (server_after [Connect; Connect])).
  { refine (proj1 (run_invariant 0 (cap := 64) [Connect; Connect]
                     server2 (world_of os_ok) _
                     (world_after_ops [Connect; Connect]) _
                     (fresh_invariant server2 (conj eq_refl eq_refl)))).
    vm_compute. reflexivity. }
  assert (H : ivshmem_server_handle_fds 0 64 (server_after [Connect; Connect])
                (fun fd => fd =? 5) 15 (world_after_ops [Connect; Connect])
              = Ret (0, value_after server2
                          (run 0 64 [Connect; Connect; Disconnect 0] server2
                             (world_of os_ok)))
                    (world_after
                       (ivshmem_server_handle_fds 0 64
                          (server_after [Connect; Connect])
                          (fun fd => fd =? 5) 15
                          (world_after_ops [Connect; Connect]))))
    by (vm_compute; reflexivity).
  split; [exact I |]. split; [exact H |].
  destruct (proj2 (cycle_registry 0 64 _ _ _ _ _ _ _ I H) eq_refl) as (s1 & _ & E).
  vm_compute. reflexivity.
Defined.

(** X4: a cycle run with the [maxfd] that [ivshmem_server_get_fds]
    computed for this server, on any set in which the listening socket
    is not set, returns 0 and disconnects exactly the peers whose
    socket is set: the test against [maxfd] lets every registered
    socket through. *)
Theorem cycle_after_get_fds (ver : Z) (cap : nat) (server : IvshmemServer)
    (fds0 : Z -> bool) (maxfd0 : Z) (fds : Z -> bool) (w : World)
    (r : Z) (server' : IvshmemServer) (w' : World) :
  invariant server ->
  Forall (fun fd => - 2 ^ 31 <= fd < 2 ^ 31 - 1) (watched_fds server) ->
  fds (sock_fd server) = false ->
  ivshmem_server_handle_fds ver cap server fds
    (snd (ivshmem_server_get_fds server fds0 maxfd0)) w = Ret (r, server') w' ->
  r = 0 /\
  server' = set_peer_list server
              (filter (fun p => negb (fds (peer_sock_fd p))) (peer_list server)).
Proof.
  intros (Hd & Ho & _) Hr Hl H.
  destruct (get_fds_maxfd_spec server fds0 maxfd0 Hr) as (_ & Hall & _).
  set (maxfd := snd (ivshmem_server_get_fds server fds0 maxfd0)) in *.
  destruct (handle_fds_cases _ _ _ _ _ _ _ _ H)
    as [(Hready & _) | (_ & -> & Hs)].
  { rewrite Hl, andb_false_r in Hready. discriminate. }
  split; [reflexivity |].
  destruct (handle_fds_sweep_run fds maxfd (peer_list server) [] server w
              eq_refl Hd) as (w1 & E).
  { unfold registry_ok in Ho. eapply Forall_impl; [| exact Ho].
    intros p [_ L]. exact L. }
  rewrite E in Hs. inversion Hs; subst. simpl. f_equal.
  apply filter_ext_in. intros p Hp. unfold ready.
  unfold watched_fds in Hall. inversion Hall as [| ? ? _ Hps]; subst.
  rewrite Forall_forall in Hps.
  assert (peer_sock_fd p < maxfd) by (apply Hps; now apply in_map).
  destruct (peer_sock_fd p <? maxfd) eqn:C; [reflexivity | lia].
Qed.

Lemma cycle_after_get_fds_witness :
  invariant (server_after [Connect; Connect]) /\
  Forall (fun fd => - 2 ^ 31 <= fd < 2 ^ 31 - 1)
         (watched_fds (server_after [Connect; Connect])) /\
  ivshmem_server_handle_fds 0 64 (server_after [Connect; Connect])
    (fun fd => fd =? 14)
    (snd (ivshmem_server_get_fds (server_after [Connect; Connect])
            (fun _ => false) 0))
    (world_after_ops [Connect; Connect])
  = Ret (0, server_after [Connect; Connect; Disconnect 1])
        (world_after_ops [Connect; Connect; Disconnect 1]) /\
  ids (server_after [Connect; Connect; Disconnect 1]) = [0].
Proof.
  assert (I : invariant (server_after [Connect; Connect])).
  { refine (proj1 (run_invariant 0 (cap := 64) [Connect; Connect]
                     server2 (world_of os_ok) _
                     (world_after_ops [Connect; Connect]) _
                     (fresh_invariant server2 (conj eq_refl eq_refl)))).
    vm_compute. reflexivity. }
  assert (E : watched_fds (server_after [Connect; Connect]) = [4; 5; 14])
    by (vm_compute; reflexivity).
  assert (R : Forall (fun fd => - 2 ^ 31 <= fd < 2 ^ 31 - 1)
                     (watched_fds (server_after [Connect; Connect])))
    by (rewrite E; repeat constructor; lia).
  assert (H : ivshmem_server_handle_fds 0 64 (server_after [Connect; Connect])
                (fun fd => fd =? 14)
                (snd (ivshmem_server_get_fds (server_after [Connect; Connect])
                        (fun _ => false) 0))
                (world_after_ops [Connect; Connect])
              = Ret (0, server_after [Connect; Connect; Disconnect 1])
                    (world_after_ops [Connect; Connect; Disconnect 1]))
    by (vm_compute; reflexivity).
  split; [exact I |]. split; [exact R |]. split; [exact H |].
  destruct (cycle_after_get_fds 0 64 _ (fun _ => false) 0 _ _ _ _ _ I R eq_refl H)
    as [_ Es].
  vm_compute. reflexivity.
Defined.

(** ** Descriptors are neither lost nor closed twice *)

Lemma acquired_app (a b : list event) :
  acquired (a ++ b) = acquired a ++ acquired b.
Proof. apply flat_map_app. Qed.

Lemma acquired_none (evs : list event) :
  Forall (fun a => is_acquire a = false) (map fst evs) -> acquired evs = [].
Proof.
  induction evs as [| [a v] t IH]; simpl; intros H; [reflexivity |].
  inversion H as [| ? ? Ha Ht]; subst. simpl in Ha.
  destruct a; try discriminate; simpl; auto.
Qed.

Lemma acquired_eventfds (vs : list Z) :
  Forall (fun v => 0 <= v) vs -> acquired (map (pair Eventfd) vs) = vs.
Proof.
  induction 1 as [| v t Hv _ IH]; simpl; [reflexivity |].
  destruct (v <? 0) eqn:E; [lia |]. simpl. f_equal. exact IH.
Qed.

Lemma sends_not_acquire (acts : list action) :
  Forall (fun a => is_send a = true) acts ->
  Forall (fun a => is_acquire a = false) acts.
Proof.
  apply Forall_impl. intros a H. destruct a; try discriminate; reflexivity.
Qed.

Lemma unwinding_not_acquire (peer : IvshmemServerPeer) (vs : list Z) :
  Forall (fun a => is_acquire a = false) (unwinding peer vs).
Proof.
  unfold unwinding. apply Forall_app. split.
  - induction (rev vs); simpl; constructor; auto.
  - repeat constructor.
Qed.

Lemma balanced_nil (server : IvshmemServer) : balanced server [] server.
Proof. unfold balanced. simpl. now rewrite app_nil_r. Qed.

Lemma balanced_app (s1 s2 s3 : IvshmemServer) (e1 e2 : list event) :
  balanced s1 e1 s2 -> balanced s2 e2 s3 -> balanced s1 (e1 ++ e2) s3.
Proof.
  unfold balanced. intros P1 P2.
  rewrite acquired_app, map_app, closed_app.
  rewrite (app_assoc (held s1)), <- (app_assoc (closed (map fst e1))).
  eapply perm_trans; [apply Permutation_app_tail; exact P1 |].
  rewrite <- app_assoc. apply Permutation_app_head. exact P2.
Qed.

(** The log of a connection that was accepted and given up, or that
    was accepted and completed, hands out the socket and the vectors. *)
Lemma acquired_conn (sock newfd : Z) (vs : list Z)
    (failed sent tl : list event) :
  0 <= newfd ->
  Forall (fun v => 0 <= v) vs ->
  failed = [] \/ (exists bad, bad < 0 /\ failed = [(Eventfd, bad)]) ->
  Forall (fun a => is_acquire a = false) (map fst sent) ->
  Forall (fun a => is_acquire a = false) (map fst tl) ->
  acquired ((Accept4 sock, newfd) :: map (pair Eventfd) vs ++ failed ++ sent ++ tl)
  = newfd :: vs.
Proof.
  intros Hn Hv Hf Hs Ht.
  change (acquired ([(Accept4 sock, newfd)]
                    ++ map (pair Eventfd) vs ++ failed ++ sent ++ tl)
          = newfd :: vs).
  rewrite !acquired_app, acquired_eventfds by exact Hv.
  rewrite (acquired_none sent Hs), (acquired_none tl Ht).
  assert (Ha : acquired failed = []).
  { destruct Hf as [-> | (bad & Hb & ->)]; simpl; [reflexivity |].
    destruct (bad <? 0) eqn:E; [reflexivity | lia]. }
  rewrite Ha, !app_nil_r. simpl.
  destruct (newfd <? 0) eqn:E; [lia | reflexivity].
Qed.

Lemma held_app (server : IvshmemServer) (l : list IvshmemServerPeer)
    (peer : IvshmemServerPeer) :
  held (set_peer_list server (l ++ [peer]))
  = held (set_peer_list server l) ++ peer_sock_fd peer :: peer_vectors peer.
Proof. unfold held. simpl. rewrite flat_map_app. simpl. now rewrite app_nil_r. Qed.

Lemma new_conn_balanced (ver : Z) (server : IvshmemServer) (w : World)
    (r : Z) (server' : IvshmemServer) (w' : World) :
  new_conn_outcome ver server w r server' w' ->
  registry_ok server ->
  exists evs, extends w w' evs /\ balanced server evs server'.
Proof.
  intros H Hreg.
  destruct H as [ newfd w' Hneg X _
                | newfd unused good bad tl w' Hnf _ Hg Hb _ X Mt
                | newfd unused vs sent lost n tl w' Hnf _ Hv _ _ _ _ Ms X Mt
                | newfd unused vs sent w' Hnf _ Hv _ _ Ms Hlog ].
  - exists [(Accept4 (sock_fd server), newfd)]. split; [exact X |].
    unfold balanced. simpl. destruct (newfd <? 0) eqn:E; [| lia].
    now rewrite app_nil_r.
  - exists ((Accept4 (sock_fd server), newfd)
            :: map (pair Eventfd) good ++ [(Eventfd, bad)] ++ [] ++ tl).
    split.
    { rewrite map_app in X. simpl in X. rewrite <- app_assoc in X. exact X. }
    assert (Hf : [(Eventfd, bad)] = [] \/
                 exists b, b < 0 /\ [(Eventfd, bad)] = [(Eventfd, b)])
      by (right; now exists bad).
    unfold balanced.
    rewrite (acquired_conn (sock_fd server) newfd good [(Eventfd, bad)] [] tl
               Hnf Hg Hf (Forall_nil _))
      by (rewrite Mt; apply unwinding_not_acquire).
    destruct (unwound_log (sock_fd server) newfd good [(Eventfd, bad)] [] tl _
                Hg Hf (Forall_nil _) Mt eq_refl) as (_ & Lc & _).
    rewrite Lc. unfold held at 2. simpl peer_list. fold (held server).
    eapply perm_trans; [apply Permutation_app_comm |].
    apply Permutation_app_tail.
    change (newfd :: good) with ([newfd] ++ good).
    eapply perm_trans; [apply Permutation_app_comm |].
    apply Permutation_app_tail. apply Permutation_rev.
  - exists ((Accept4 (sock_fd server), newfd)
            :: map (pair Eventfd) vs ++ [] ++ (sent ++ [(lost, n)]) ++ tl).
    split; [exact X |].
    assert (Hsent : Forall (fun a => is_send a = true)
                           (map fst (sent ++ [(lost, n)])))
      by (rewrite Ms; apply firstn_Forall, initial_info_all_sends).
    unfold balanced.
    rewrite (acquired_conn (sock_fd server) newfd vs [] (sent ++ [(lost, n)]) tl
               Hnf Hv (or_introl eq_refl) (sends_not_acquire _ Hsent))
      by (rewrite Mt; apply unwinding_not_acquire).
    destruct (unwound_log (sock_fd server) newfd vs [] (sent ++ [(lost, n)]) tl _
                Hv (or_introl eq_refl) Hsent Mt eq_refl) as (_ & Lc & _).
    rewrite Lc.
    unfold held at 2. simpl peer_list. fold (held server).
    eapply perm_trans; [apply Permutation_app_comm |].
    apply Permutation_app_tail.
    change (newfd :: vs) with ([newfd] ++ vs).
    eapply perm_trans; [apply Permutation_app_comm |].
    apply Permutation_app_tail. apply Permutation_rev.
  - destruct (Hlog Hreg) as (tl & X & Mt).
    exists ((Accept4 (sock_fd server), newfd)
            :: map (pair Eventfd) vs ++ [] ++ sent ++ tl).
    split; [exact X |].
    assert (Hsent : Forall (fun a => is_send a = true) (map fst sent))
      by (rewrite Ms; apply initial_info_all_sends).
    assert (Htl : Forall (fun a => is_send a = true \/ is_close a = false /\
                                   is_acquire a = false) (map fst tl)).
    { rewrite Mt. apply Forall_app. split.
      - eapply Forall_impl; [| apply advertisements_all_sends].
        intros a Ha. now left.
      - constructor; [right; split; reflexivity | constructor]. }
    assert (Htl1 : Forall (fun a => is_acquire a = false) (map fst tl)).
    { eapply Forall_impl; [| exact Htl]. intros a [Ha | [_ Ha]]; [| exact Ha].
      destruct a; try discriminate; reflexivity. }
    assert (Htl2 : Forall (fun a => is_close a = false) (map fst tl)).
    { eapply Forall_impl; [| exact Htl]. intros a [Ha | [Ha _]]; [| exact Ha].
      destruct a; try discriminate; reflexivity. }
    unfold balanced.
    rewrite (acquired_conn (sock_fd server) newfd vs [] sent tl
               Hnf Hv (or_introl eq_refl) (sends_not_acquire _ Hsent) Htl1).
    simpl map. rewrite !map_app, map_fst_eventfds.
    change (closed (Accept4 (sock_fd server)
                    :: map (fun _ : Z => Eventfd) vs ++ map fst sent ++ map fst tl))
      with (closed (map (fun _ : Z => Eventfd) vs ++ map fst sent ++ map fst tl)).
    rewrite !closed_app.
    rewrite (closed_none (map _ vs)) by (now apply eventfds_only).
    rewrite (closed_none (map fst sent)) by (now apply sends_not_close).
    rewrite (closed_none (map fst tl)) by exact Htl2.
    simpl app. rewrite held_app. unfold held. simpl. reflexivity.
Qed.

Lemma held_remove (peer : IvshmemServerPeer) (l : list IvshmemServerPeer) :
  In peer l ->
  Permutation
    (flat_map (fun p => peer_sock_fd p :: peer_vectors p) l)
    ((peer_sock_fd peer :: peer_vectors peer)
     ++ flat_map (fun p => peer_sock_fd p :: peer_vectors p)
                 (qtailq_remove peer l)).
Proof.
  induction l as [| x t IH]; [contradiction |]. intros Hin. simpl.
  destruct (peer_eq_dec peer x) as [-> | Hne]; [reflexivity |].
  destruct Hin as [E | Hin]; [congruence |].
  simpl flat_map.
  change (peer_sock_fd x :: peer_vectors x ++ flat_map _ t)
    with ((peer_sock_fd x :: peer_vectors x) ++
          flat_map (fun p => peer_sock_fd p :: peer_vectors p) t).
  change (peer_sock_fd peer
          :: peer_vectors peer
             ++ peer_sock_fd x
                :: peer_vectors x ++ flat_map _ (qtailq_remove peer t))
    with ((peer_sock_fd peer :: peer_vectors peer)
          ++ (peer_sock_fd x :: peer_vectors x)
          ++ flat_map (fun p => peer_sock_fd p :: peer_vectors p)
                      (qtailq_remove peer t)).
  eapply perm_trans; [apply Permutation_app_head; exact (IH Hin) |].
  rewrite !app_assoc. apply Permutation_app_tail. apply Permutation_app_comm.
Qed.

Lemma free_peer_balanced (server : IvshmemServer) (peer : IvshmemServerPeer)
    (w : World) :
  In peer (peer_list server) ->
  List.length (peer_vectors peer) = peer_vectors_count peer ->
  exists w' evs,
    ivshmem_server_free_peer server peer w
    = Ret (set_peer_list server (qtailq_remove peer (peer_list server))) w' /\
    extends w w' evs /\
    balanced server evs
      (set_peer_list server (qtailq_remove peer (peer_list server))).
Proof.
  intros Hin Hl.
  destruct (free_peer_run server peer w Hl) as (w' & evs & H & X & Mf).
  exists w', evs. split; [exact H |]. split; [exact X |].
  unfold balanced.
  assert (Ha : acquired evs = []).
  { apply acquired_none. rewrite Mf, !Forall_app. split; [| split; [| split]].
    - repeat constructor.
    - unfold goodbyes. apply Forall_map, Forall_forall. reflexivity.
    - apply Forall_map, Forall_forall. reflexivity.
    - repeat constructor. }
  rewrite Ha, app_nil_r, Mf, !closed_app, closed_map_Close.
  rewrite (closed_none (goodbyes _ _))
    by (unfold goodbyes; apply Forall_map, Forall_forall; reflexivity).
  simpl. unfold held. simpl. rewrite app_nil_r.
  exact (held_remove peer (peer_list server) Hin).
Qed.

Lemma handle_fds_sweep_balanced (fds : Z -> bool) (maxfd : Z)
    (visit : list IvshmemServerPeer) :
  forall (kept : list IvshmemServerPeer) (server : IvshmemServer) (w : World),
    peer_list server = kept ++ visit ->
    NoDup (map peer_id (kept ++ visit)) ->
    Forall (fun p => List.length (peer_vectors p) = peer_vectors_count p) visit ->
    exists server' w' evs,
      handle_fds_sweep visit server fds maxfd w = Ret server' w' /\
      extends w w' evs /\ balanced server evs server'.
Proof.
  induction visit as [| p t IH]; intros kept server w Hl Hn Hv; simpl.
  - exists server, w, []. split; [reflexivity |].
    split; [apply extends_refl | apply balanced_nil].
  - inversion Hv as [| ? ? Hp Ht]; subst.
    unfold bind at 1.
    destruct (debug_run server w) as (w0 & D & Do & Dt & _). rewrite D.
    assert (Hfrom : forall wz e, extends w0 wz e -> extends w wz e)
      by (intros wz e; now apply extends_before).
    destruct ((peer_sock_fd p <? maxfd) && fds (peer_sock_fd p)).
    + destruct (free_peer_balanced server p w0) as (w1 & e1 & H & X1 & B1);
        [rewrite Hl; apply in_or_app; right; now left | exact Hp |].
      unfold bind. rewrite H.
      assert (Hk : ~ In p kept).
      { rewrite map_app in Hn. simpl in Hn. apply NoDup_remove_2 in Hn.
        intros Hin. apply Hn. apply in_or_app. left. now apply in_map. }
      rewrite Hl, (qtailq_remove_middle p kept t Hk) in *.
      destruct (IH kept (set_peer_list server (kept ++ t)) w1 eq_refl)
        as (s' & w' & e2 & H' & X2 & B2).
      { rewrite map_app in *. simpl in Hn. now apply NoDup_remove_1 in Hn. }
      { exact Ht. }
      exists s', w', (e1 ++ e2). split; [exact H' |].
      split; [exact (Hfrom _ _ (extends_trans _ _ _ _ _ X1 X2)) |].
      exact (balanced_app _ _ _ _ _ B1 B2).
    + destruct (IH (kept ++ [p]) server w0) as (s' & w' & e & H' & X & B).
      * rewrite Hl, <- app_assoc. reflexivity.
      * now rewrite <- app_assoc.
      * exact Ht.
      * exists s', w', e. split; [exact H' |].
        split; [exact (Hfrom _ _ X) | exact B].
Qed.

(** X5: over a dispatch cycle on a registry in order, no descriptor is
    lost and none is closed more often than it was held or handed out:
    the descriptors that the peers held
    before the cycle, with those that [accept4] and [eventfd] handed
    out during it, are, each as often as it occurs, those that were
    closed during it and those that the peers hold after it. *)
Theorem cycle_balanced (ver : Z) (cap : nat) (server : IvshmemServer)
    (fds : Z -> bool)
    (maxfd : Z) (w : World) (r : Z) (server' : IvshmemServer) (w' : World) :
  invariant server ->
  ivshmem_server_handle_fds ver cap server fds maxfd w = Ret (r, server') w' ->
  exists evs,
    extends w w' evs /\
    Permutation (held server ++ acquired evs)
                (closed (map fst evs) ++ held server').
Proof.
  intros Hinv H.
  assert (Hsw : forall s w0, invariant s ->
            handle_fds_sweep (peer_list s) s fds maxfd w0 = Ret server' w' ->
            exists evs, extends w0 w' evs /\ balanced s evs server').
  { intros s w0 (Hd & Ho & _) E.
    destruct (handle_fds_sweep_balanced fds maxfd (peer_list s) [] s w0
                eq_refl Hd) as (s1 & w1 & evs & E' & X & B).
    { unfold registry_ok in Ho. eapply Forall_impl; [| exact Ho].
      intros p [_ L]. exact L. }
    rewrite E' in E. inversion E; subst. now exists evs. }
  destruct (handle_fds_cases _ _ _ _ _ _ _ _ H)
    as [(_ & rc & server1 & w1 & Hc & Hr) | (_ & _ & Hs)].
  - pose proof (handle_new_conn_result ver cap server w) as R. rewrite Hc in R.
    destruct (new_conn_outcome_invariant _ _ _ _ _ _ R Hinv) as [Hinv1 _].
    destruct (new_conn_balanced _ _ _ _ _ _ R (proj1 (proj2 Hinv)))
      as (e1 & X1 & B1).
    destruct Hr as [(_ & _ & -> & _ & D) | (_ & _ & Hs)].
    + apply debug_inv in D. destruct D as (Do & Dt & _).
      exists e1. split; [exact (extends_after _ _ _ _ X1 Do Dt) | exact B1].
    + destruct (Hsw server1 w1 Hinv1 Hs) as (e2 & X2 & B2).
      exists (e1 ++ e2). split; [exact (extends_trans _ _ _ _ _ X1 X2) |].
      exact (balanced_app _ _ _ _ _ B1 B2).
  - exact (Hsw server w Hinv Hs).
Qed.

Lemma cycle_balanced_witness :
  invariant (server_after [Connect; Connect]) /\
  ivshmem_server_handle_fds 0 64 (server_after [Connect; Connect])
    (fun fd => fd =? 5) 15 (world_after_ops [Connect; Connect])
  = Ret (0, server_after [Connect; Connect; Disconnect 0])
        (world_after_ops [Connect; Connect; Disconnect 0]) /\
  held (server_after [Connect; Connect]) = [5; 6; 7; 14; 15; 16] /\
  held (server_after [Connect; Connect; Disconnect 0]) = [14; 15; 16] /\
  exists evs,
    extends (world_after_ops [Connect; Connect])
            (world_after_ops [Connect; Connect; Disconnect 0]) evs /\
    Permutation (held (server_after [Connect; Connect]) ++ acquired evs)
                (closed (map fst evs)
                 ++ held (server_after [Connect; Connect; Disconnect 0])).
Proof.
  assert (I : invariant (server_after [Connect; Connect])).
  { refine (proj1 (run_invariant 0 (cap := 64) [Connect; Connect]
                     server2 (world_of os_ok) _
                     (world_after_ops [Connect; Connect]) _
                     (fresh_invariant server2 (conj eq_refl eq_refl)))).
    vm_compute. reflexivity. }
  assert (H : ivshmem_server_handle_fds 0 64 (server_after [Connect; Connect])
                (fun fd => fd =? 5) 15 (world_after_ops [Connect; Connect])
              = Ret (0, server_after [Connect; Connect; Disconnect 0])
                    (world_after_ops [Connect; Connect; Disconnect 0]))
    by (vm_compute; reflexivity).
  split; [exact I |]. split; [exact H |].
  split; [vm_compute; reflexivity |]. split; [vm_compute; reflexivity |].
  exact (cycle_balanced 0 64 _ _ _ _ _ _ _ I H).
Defined.

Lemma apply_op_balanced (ver : Z) {cap : nat} (o : op) (server : IvshmemServer)
    (w : World) (server' : IvshmemServer) (w' : World) :
  invariant server ->
  apply_op ver cap o server w = Ret server' w' ->
  exists evs, extends w w' evs /\ balanced server evs server'.
Proof.
  intros Hinv H. destruct o as [| k]; simpl in H.
  - unfold bind in H.
    pose proof (handle_new_conn_result ver cap server w) as R.
    destruct (ivshmem_server_handle_new_conn ver cap server w)
      as [[r s1] w1 | w1 |]; try discriminate.
    unfold ret in H. inversion H; subst.
    exact (new_conn_balanced _ _ _ _ _ _ R (proj1 (proj2 Hinv))).
  - destruct (nth_error (peer_list server) k) as [p |] eqn:E.
    + apply nth_error_In in E.
      destruct Hinv as (_ & Ho & _).
      unfold registry_ok in Ho. rewrite Forall_forall in Ho.
      destruct (free_peer_balanced server p w E (proj2 (Ho p E)))
        as (w1 & evs & H1 & X & B).
      rewrite H1 in H. inversion H; subst. now exists evs.
    + unfold ret in H. inversion H; subst. exists [].
      split; [apply extends_refl | apply balanced_nil].
Qed.

Lemma run_balanced_from (ver : Z) {cap : nat} (ops : list op) :
  forall (server : IvshmemServer) (w : World) (server' : IvshmemServer)
         (w' : World),
    invariant server ->
    run ver cap ops server w = Ret server' w' ->
    exists evs, extends w w' evs /\ balanced server evs server'.
Proof.
  induction ops as [| o rest IH]; intros server w server' w' Hinv H;
    simpl in H.
  - unfold ret in H. inversion H; subst. exists [].
    split; [apply extends_refl | apply balanced_nil].
  - unfold bind in H.
    destruct (apply_op ver cap o server w) as [s1 w1 | w1 |] eqn:E;
      try discriminate.
    destruct (apply_op_balanced _ _ _ _ _ _ Hinv E) as (e1 & X1 & B1).
    destruct (apply_op_invariant _ _ _ _ _ _ E Hinv) as [Hinv1 _].
    destruct (IH _ _ _ _ Hinv1 H) as (e2 & X2 & B2).
    exists (e1 ++ e2). split; [exact (extends_trans _ _ _ _ _ X1 X2) |].
    exact (balanced_app _ _ _ _ _ B1 B2).
Qed.

(** X6: after any sequence of connections and disconnections from a
    freshly started server, the descriptors that [accept4] and
    [eventfd] have handed out are, each as often as it was handed out,
    those that were closed and those that the registered peers hold as
    socket or vector: what was handed out and not closed is held, and
    nothing is closed or held that was not handed out. *)
Theorem run_balanced (ver : Z) (cap : nat) (ops : list op)
    (server0 : IvshmemServer) (w0 : World)
    (server : IvshmemServer) (w : World) :
  fresh server0 ->
  run ver cap ops server0 w0 = Ret server w ->
  exists evs,
    extends w0 w evs /\
    Permutation (acquired evs) (closed (map fst evs) ++ held server).
Proof.
  intros Hf H.
  destruct (run_balanced_from _ _ _ _ _ _ (fresh_invariant _ Hf) H)
    as (evs & X & B).
  exists evs. split; [exact X |].
  unfold balanced, held in B. rewrite (proj1 Hf) in B. exact B.
Qed.

Lemma run_balanced_witness :
  fresh server2 /\
  run 0 64 scenario server2 (world_of os_ok)
    = Ret (server_after scenario) (world_after_ops scenario) /\
  acquired (trace (world_after_ops scenario))
    = [5; 6; 7; 14; 15; 16; 33; 34; 35] /\
  closed (actions (world_after_ops scenario)) = [14; 15; 16] /\
  held (server_after scenario) = [5; 6; 7; 33; 34; 35] /\
  exists evs,
    extends (world_of os_ok) (world_after_ops scenario) evs /\
    Permutation (acquired evs)
                (closed (map fst evs) ++ held (server_after scenario)).
Proof.
  assert (F : fresh server2) by (split; reflexivity).
  assert (R : run 0 64 scenario server2 (world_of os_ok)
              = Ret (server_after scenario) (world_after_ops scenario))
    by (vm_compute; reflexivity).
  split; [exact F |]. split; [exact R |].
  split; [vm_compute; reflexivity |]. split; [vm_compute; reflexivity |].
  split; [vm_compute; reflexivity |].
  exact (run_balanced 0 64 scenario server2 (world_of os_ok) _ _ F R).
Defined.

(** ** Identifiers are given out in order *)

Lemma sorted_snoc (l : list Z) (x : Z) :
  StronglySorted Z.lt l -> Forall (fun y => y < x) l ->
  StronglySorted Z.lt (l ++ [x]).
Proof.
  induction 1 as [| y t Hs IH Hy]; intros Hx; simpl.
  - constructor; constructor.
  - inversion Hx as [| ? ? Hyx Htx]; subst. constructor; [now apply IH |].
    apply Forall_app. split; [exact Hy | constructor; [exact Hyx | constructor]].
Qed.

Lemma sorted_remove (p : IvshmemServerPeer) (l : list IvshmemServerPeer) :
  StronglySorted Z.lt (map peer_id l) ->
  StronglySorted Z.lt (map peer_id (qtailq_remove p l)).
Proof.
  induction l as [| x t IH]; simpl; [auto |].
  intros H. inversion H as [| ? ? Hs Hx]; subst.
  destruct (peer_eq_dec p x); simpl; [exact Hs |].
  constructor; [now apply IH |].
  rewrite Forall_forall in *. intros y Hy. apply Hx.
  apply in_map_iff in Hy. destruct Hy as (q & <- & Hq).
  apply in_map. eapply qtailq_remove_In; eauto.
Qed.

(** Before the counter wraps: it counts the connections accepted so
    far at most, every id in use is below it, and the registry is in
    the order of the ids. *)
Lemma apply_op_ordered (ver : Z) {cap : nat} (o : op) (server : IvshmemServer)
    (w : World)
    (server' : IvshmemServer) (w' : World) (n : Z) :
  apply_op ver cap o server w = Ret server' w' ->
  n + 1 < 2 ^ 63 ->
  0 <= cur_id server <= n ->
  Forall (fun p => 0 <= peer_id p < cur_id server) (peer_list server) ->
  StronglySorted Z.lt (ids server) ->
  0 <= cur_id server' <= n + 1 /\
  Forall (fun p => 0 <= peer_id p < cur_id server') (peer_list server') /\
  StronglySorted Z.lt (ids server').
Proof.
  intros H Hn Hc Hb Hs.
  assert (Hfree : get_unused_id server = Some (cur_id server)).
  { apply get_unused_id_cur. unfold ids. intros Hin.
    apply in_map_iff in Hin. destruct Hin as (p & E & Hp).
    rewrite Forall_forall in Hb. specialize (Hb p Hp). lia. }
  assert (Hw : wrap_long (cur_id server + 1) = cur_id server + 1)
    by (apply wrap_long_id; lia).
  assert (Hweak : Forall (fun p => 0 <= peer_id p < cur_id server + 1)
                         (peer_list server))
    by (eapply Forall_impl; [| exact Hb]; intros p Hp; simpl in Hp; lia).
  destruct o as [| k]; simpl in H.
  - unfold bind in H.
    pose proof (handle_new_conn_result ver cap server w) as R.
    destruct (ivshmem_server_handle_new_conn ver cap server w)
      as [[r s1] w1 | w1 |]; try discriminate.
    unfold ret in H. inversion H; subst s1 w1. simpl in R.
    destruct R as [ newfd w' _ _ _
                  | newfd unused good bad tl w' _ U _ _ _ _ _
                  | newfd unused vs sent lost n' tl w' _ U _ _ _ _ _ _ _ _
                  | newfd unused vs sent w' _ U _ _ _ _ _ ].
    + split; [lia |]. split; [exact Hb | exact Hs].
    + rewrite Hfree in U. inversion U; subst unused. simpl. rewrite Hw.
      split; [lia |]. split; [exact Hweak | exact Hs].
    + rewrite Hfree in U. inversion U; subst unused. simpl. rewrite Hw.
      split; [lia |]. split; [exact Hweak | exact Hs].
    + rewrite Hfree in U. inversion U; subst unused.
      unfold ids. simpl. rewrite Hw, map_app. simpl.
      split; [lia |]. split.
      * apply Forall_app. split; [exact Hweak |].
        constructor; [simpl; lia | constructor].
      * apply sorted_snoc; [exact Hs |].
        rewrite Forall_map. eapply Forall_impl; [| exact Hb].
        intros p Hp. simpl in Hp. lia.
  - destruct (nth_error (peer_list server) k) as [p |].
    + apply free_peer_server in H. subst server'. unfold ids. simpl.
      split; [lia |]. split.
      * now apply qtailq_remove_Forall.
      * now apply sorted_remove.
    + unfold ret in H. inversion H; subst. split; [lia |]. now split.
Qed.

Lemma run_ordered (ver : Z) {cap : nat} (ops : list op) :
  forall (server : IvshmemServer) (w : World) (server' : IvshmemServer)
         (w' : World) (n : Z),
    run ver cap ops server w = Ret server' w' ->
    n + Z.of_nat (List.length ops) < 2 ^ 63 ->
    0 <= cur_id server <= n ->
    Forall (fun p => 0 <= peer_id p < cur_id server) (peer_list server) ->
    StronglySorted Z.lt (ids server) ->
    0 <= cur_id server' <= n + Z.of_nat (List.length ops) /\
    Forall (fun p => 0 <= peer_id p < cur_id server') (peer_list server') /\
    StronglySorted Z.lt (ids server').
Proof.
  induction ops as [| o rest IH]; intros server w server' w' n H Hn Hc Hb Hs;
    simpl in H.
  - unfold ret in H. inversion H; subst. simpl. split; [lia |]. now split.
  - unfold bind in H.
    destruct (apply_op ver cap o server w) as [s1 w1 | w1 |] eqn:E;
      try discriminate.
    simpl List.length in *. rewrite Nat2Z.inj_succ in *.
    destruct (apply_op_ordered _ _ _ _ _ _ n E ltac:(lia) Hc Hb Hs)
      as (Hc1 & Hb1 & Hs1).
    destruct (IH _ _ _ _ (n + 1) H ltac:(lia) Hc1 Hb1 Hs1) as (Hc2 & Hb2 & Hs2).
    split; [lia |]. now split.
Qed.

(** X7: in any sequence of fewer than [2^63] connections and
    disconnections from a freshly started server, the counter stays
    between 0 and the number of operations, every id in use is
    non-negative and below the counter, the registry is in strictly
    increasing order of id, and the next peer gets the counter itself as
    its id: the probing loop does not turn, and no id is given out a
    second time. *)
Theorem ids_in_order (ver : Z) (cap : nat) (ops : list op)
    (server0 : IvshmemServer) (w0 : World)
    (server : IvshmemServer) (w : World) :
  fresh server0 ->
  Z.of_nat (List.length ops) < 2 ^ 63 ->
  run ver cap ops server0 w0 = Ret server w ->
  0 <= cur_id server <= Z.of_nat (List.length ops) /\
  Forall (fun p => 0 <= peer_id p < cur_id server) (peer_list server) /\
  StronglySorted Z.lt (ids server) /\
  get_unused_id server = Some (cur_id server).
Proof.
  intros [Hp Hc] Hn H.
  destruct (run_ordered ver ops server0 w0 server w 0 H ltac:(lia))
    as (Hc1 & Hb1 & Hs1).
  - lia.
  - rewrite Hp. constructor.
  - unfold ids. rewrite Hp. constructor.
  - split; [lia |]. split; [exact Hb1 |]. split; [exact Hs1 |].
    apply get_unused_id_cur. unfold ids. intros Hin.
    apply in_map_iff in Hin. destruct Hin as (p & E & Hq).
    rewrite Forall_forall in Hb1. specialize (Hb1 p Hq). lia.
Qed.

Lemma ids_in_order_witness :
  fresh server2 /\
  Z.of_nat (List.length scenario) < 2 ^ 63 /\
  run 0 64 scenario server2 (world_of os_ok)
    = Ret (server_after scenario) (world_after_ops scenario) /\
  cur_id (server_after scenario) = 3 /\
  ids (server_after scenario) = [0; 2] /\
  get_unused_id (server_after scenario) = Some (cur_id (server_after scenario)).
Proof.
  assert (F : fresh server2) by (split; reflexivity).
  assert (L : Z.of_nat (List.length scenario) < 2 ^ 63) by (simpl; lia).
  assert (R : run 0 64 scenario server2 (world_of os_ok)
              = Ret (server_after scenario) (world_after_ops scenario))
    by (vm_compute; reflexivity).
  split; [exact F |]. split; [exact L |]. split; [exact R |].
  split; [vm_compute; reflexivity |]. split; [vm_compute; reflexivity |].
  exact (proj2 (proj2 (proj2
           (ids_in_order 0 64 scenario server2 (world_of os_ok) _ _ F L R)))).
Defined.

(** X8: the peer of a completed handshake gets the first identifier,
    counting up from the counter with the wrap-around of [long], that no
    registered peer holds: every candidate before it is in use, no more
    candidates are passed over than there are peers, and the counter is
    left one past the identifier given. *)
Theorem new_id_first_free (ver : Z) (cap : nat) (server : IvshmemServer)
    (w : World)
    (server' : IvshmemServer) (w' : World) :
  ivshmem_server_handle_new_conn ver cap server w = Ret (0, server') w' ->
  exists (peer : IvshmemServerPeer) (k : nat),
    peer_list server' = peer_list server ++ [peer] /\
    (k <= List.length (peer_list server))%nat /\
    peer_id peer = candidate (cur_id server) k /\
    ~ In (peer_id peer) (ids server) /\
    (forall j, (j < k)%nat -> In (candidate (cur_id server) j) (ids server)) /\
    cur_id server' = wrap_long (peer_id peer + 1).
Proof.
  intros H. pose proof (handle_new_conn_result ver cap server w) as R.
  rewrite H in R.
  inversion R as [ | | | newfd unused vs sent ? _ U _ _ _ _ _ ]; subst.
  unfold get_unused_id in U. apply probe_id_Some in U.
  destruct U as (k & Hk & Hu & Hfree & Hused).
  exists (mkPeer newfd unused vs (n_vectors server)), k. simpl.
  split; [reflexivity |]. split; [lia |]. split; [exact Hu |].
  split; [exact Hfree |]. split; [exact Hused | reflexivity].
Qed.

Lemma new_id_first_free_witness :
  ivshmem_server_handle_new_conn 0 64 server_come_round
    (world_after_ops [Connect; Connect])
  = Ret (0, snd (value_after (0, server_come_round)
                   (ivshmem_server_handle_new_conn 0 64 server_come_round
                      (world_after_ops [Connect; Connect]))))
        (world_after (ivshmem_server_handle_new_conn 0 64 server_come_round
                        (world_after_ops [Connect; Connect]))) /\
  cur_id server_come_round = 0 /\
  ids server_come_round = [0; 1] /\
  ids (snd (value_after (0, server_come_round)
              (ivshmem_server_handle_new_conn 0 64 server_come_round
                 (world_after_ops [Connect; Connect])))) = [0; 1; 2] /\
  exists (peer : IvshmemServerPeer) (k : nat),
    peer_list (snd (value_after (0, server_come_round)
                      (ivshmem_server_handle_new_conn 0 64 server_come_round
                         (world_after_ops [Connect; Connect]))))
      = peer_list server_come_round ++ [peer] /\
    (k <= List.length (peer_list server_come_round))%nat /\
    peer_id peer = candidate (cur_id server_come_round) k /\
    ~ In (peer_id peer) (ids server_come_round) /\
    (forall j, (j < k)%nat ->
               In (candidate (cur_id server_come_round) j)
                  (ids server_come_round)) /\
    cur_id (snd (value_after (0, server_come_round)
                   (ivshmem_server_handle_new_conn 0 64 server_come_round
                      (world_after_ops [Connect; Connect]))))
      = wrap_long (peer_id peer + 1).
Proof.
  assert (H : ivshmem_server_handle_new_conn 0 64 server_come_round
                (world_after_ops [Connect; Connect])
              = Ret (0, snd (value_after (0, server_come_round)
                       (ivshmem_server_handle_new_conn 0 64 server_come_round
                          (world_after_ops [Connect; Connect]))))
                    (world_after
                       (ivshmem_server_handle_new_conn 0 64 server_come_round
                          (world_after_ops [Connect; Connect]))))
    by (vm_compute; reflexivity).
  split; [exact H |]. split; [reflexivity |].
  split; [vm_compute; reflexivity |]. split; [vm_compute; reflexivity |].
  exact (new_id_first_free 0 64 _ _ _ _ H).
Defined.

(** ** Looking a peer up *)

Lemma find_app {A} (f : A -> bool) (l1 l2 : list A) :
  find f (l1 ++ l2)
  = match find f l1 with Some x => Some x | None => find f l2 end.
Proof.
  induction l1 as [| x t IH]; simpl; [reflexivity |].
  now destruct (f x).
Qed.

Lemma search_peer_registered_spec (server : IvshmemServer) (u : Z)
    (p : IvshmemServerPeer) :
  NoDup (ids server) ->
  ivshmem_server_search_peer server u = Some p <->
  In p (peer_list server) /\ peer_id p = u.
Proof.
  unfold ivshmem_server_search_peer, ids.
  induction (peer_list server) as [| x t IH]; simpl; intros Hnd.
  - split; [discriminate | tauto].
  - inversion Hnd as [| ? ? Hx Ht]; subst.
    destruct (peer_id x =? u) eqn:E.
    + split.
      * intros H. inversion H; subst. split; [now left | lia].
      * intros [[-> | Hin] Hu]; [reflexivity |]. exfalso. apply Hx.
        apply Z.eqb_eq in E. rewrite E, <- Hu. now apply in_map.
    + rewrite (IH Ht). split.
      * intros [Hin Hu]. split; [now right | exact Hu].
      * intros [[-> | Hin] Hu]; [lia | now split].
Qed.

(** X9: while the registered ids are pairwise different,
    [ivshmem_server_search_peer] finds a peer for an id exactly when
    that peer is registered under the id; so it finds nothing exactly
    for the ids that are not in use. *)
Theorem search_peer_registered (server : IvshmemServer) (u : Z)
    (p : IvshmemServerPeer) :
  NoDup (ids server) ->
  (ivshmem_server_search_peer server u = Some p <->
   In p (peer_list server) /\ peer_id p = u) /\
  (ivshmem_server_search_peer server u = None <-> ~ In u (ids server)).
Proof.
  intros Hnd. split; [now apply search_peer_registered_spec |].
  apply search_peer_None.
Qed.

Lemma search_peer_registered_witness :
  NoDup (ids server_come_round) /\
  ivshmem_server_search_peer server_come_round 1 = Some (mkPeer 14 1 [15; 16] 2) /\
  ivshmem_server_search_peer server_come_round 2 = None /\
  ((ivshmem_server_search_peer server_come_round 1
      = Some (mkPeer 14 1 [15; 16] 2) <->
    In (mkPeer 14 1 [15; 16] 2) (peer_list server_come_round) /\
    peer_id (mkPeer 14 1 [15; 16] 2) = 1) /\
   (ivshmem_server_search_peer server_come_round 1 = None <->
    ~ In 1 (ids server_come_round))).
Proof.
  assert (N : NoDup (ids server_come_round)).
  { change (ids server_come_round) with [0; 1].
    constructor; [simpl; lia |]. constructor; [simpl; tauto | constructor]. }
  split; [exact N |]. split; [reflexivity |]. split; [reflexivity |].
  exact (search_peer_registered server_come_round 1 (mkPeer 14 1 [15; 16] 2) N).
Defined.

Lemma find_remove_other (p : IvshmemServerPeer) (u : Z)
    (l : list IvshmemServerPeer) :
  peer_id p <> u ->
  find (fun peer => peer_id peer =? u) (qtailq_remove p l)
  = find (fun peer => peer_id peer =? u) l.
Proof.
  intros Hu. induction l as [| x t IH]; simpl; [reflexivity |].
  destruct (peer_eq_dec p x) as [<- | Hne]; simpl.
  - destruct (peer_id p =? u) eqn:E; [lia | reflexivity].
  - now rewrite IH.
Qed.

Lemma ids_remove_own (p : IvshmemServerPeer) (l : list IvshmemServerPeer) :
  In p l -> NoDup (map peer_id l) ->
  ~ In (peer_id p) (map peer_id (qtailq_remove p l)).
Proof.
  induction l as [| x t IH]; simpl; [tauto |].
  intros Hin Hnd. inversion Hnd as [| ? ? Hx Ht]; subst.
  destruct (peer_eq_dec p x) as [<- | Hne]; [exact Hx |].
  destruct Hin as [-> | Hin]; [congruence |]. simpl.
  intros [E | Hq].
  - apply Hx. rewrite E. now apply in_map.
  - exact (IH Hin Ht Hq).
Qed.

(** X10: once [ivshmem_server_free_peer] has ended for a registered
    peer of a registry with pairwise different ids, looking up the id of
    that peer finds nothing, and looking up any other id finds what it
    found before. *)
Theorem search_peer_after_free (server : IvshmemServer)
    (peer : IvshmemServerPeer) (w : World)
    (server' : IvshmemServer) (w' : World) :
  NoDup (ids server) ->
  In peer (peer_list server) ->
  ivshmem_server_free_peer server peer w = Ret server' w' ->
  ivshmem_server_search_peer server' (peer_id peer) = None /\
  forall u, u <> peer_id peer ->
    ivshmem_server_search_peer server' u = ivshmem_server_search_peer server u.
Proof.
  intros Hnd Hin H. apply free_peer_server in H. subst server'. split.
  - apply search_peer_None. unfold ids. simpl. now apply ids_remove_own.
  - intros u Hu. unfold ivshmem_server_search_peer. simpl.
    apply find_remove_other. congruence.
Qed.

Lemma search_peer_after_free_witness :
  NoDup (ids (server_after [Connect; Connect])) /\
  In (mkPeer 5 0 [6; 7] 2) (peer_list (server_after [Connect; Connect])) /\
  ivshmem_server_free_peer (server_after [Connect; Connect])
    (mkPeer 5 0 [6; 7] 2) (world_after_ops [Connect; Connect])
  = Ret (server_after [Connect; Connect; Disconnect 0])
        (world_after_ops [Connect; Connect; Disconnect 0]) /\
  ivshmem_server_search_peer (server_after [Connect; Connect]) 0
    = Some (mkPeer 5 0 [6; 7] 2) /\
  ivshmem_server_search_peer (server_after [Connect; Connect; Disconnect 0])
    (peer_id (mkPeer 5 0 [6; 7] 2)) = None /\
  forall u, u <> peer_id (mkPeer 5 0 [6; 7] 2) ->
    ivshmem_server_search_peer (server_after [Connect; Connect; Disconnect 0]) u
    = ivshmem_server_search_peer (server_after [Connect; Connect]) u.
Proof.
  assert (E : ids (server_after [Connect; Connect]) = [0; 1])
    by (vm_compute; reflexivity).
  assert (N : NoDup (ids (server_after [Connect; Connect]))).
  { rewrite E. constructor; [simpl; lia |].
    constructor; [simpl; tauto | constructor]. }
  assert (I : In (mkPeer 5 0 [6; 7] 2)
                 (peer_list (server_after [Connect; Connect])))
    by (vm_compute; left; reflexivity).
  assert (H : ivshmem_server_free_peer (server_after [Connect; Connect])
                (mkPeer 5 0 [6; 7] 2) (world_after_ops [Connect; Connect])
              = Ret (server_after [Connect; Connect; Disconnect 0])
                    (world_after_ops [Connect; Connect; Disconnect 0]))
    by (vm_compute; reflexivity).
  split; [exact N |]. split; [exact I |]. split; [exact H |].
  split; [vm_compute; reflexivity |].
  exact (search_peer_after_free _ _ _ _ _ N I H).
Defined.

(** X11: once a handshake has completed, looking up the id of the new
    peer finds that peer, and looking up any other id finds what it
    found before. *)
Theorem search_peer_after_conn (ver : Z) (cap : nat) (server : IvshmemServer)
    (w : World)
    (server' : IvshmemServer) (w' : World) :
  ivshmem_server_handle_new_conn ver cap server w = Ret (0, server') w' ->
  exists peer,
    peer_list server' = peer_list server ++ [peer] /\
    ivshmem_server_search_peer server' (peer_id peer) = Some peer /\
    forall u, u <> peer_id peer ->
      ivshmem_server_search_peer server' u
      = ivshmem_server_search_peer server u.
Proof.
  intros H. pose proof (handle_new_conn_result ver cap server w) as R.
  rewrite H in R.
  inversion R as [ | | | newfd unused vs sent ? _ U _ _ _ _ _ ]; subst.
  apply get_unused_id_free in U. apply search_peer_None in U.
  exists (mkPeer newfd unused vs (n_vectors server)).
  split; [reflexivity |].
  unfold ivshmem_server_search_peer in *. simpl. split.
  - rewrite find_app, U. simpl. now rewrite Z.eqb_refl.
  - intros u Hu. rewrite find_app. simpl.
    destruct (unused =? u) eqn:E; [lia |].
    now destruct (find (fun peer => peer_id peer =? u) (peer_list server)).
Qed.

Lemma search_peer_after_conn_witness :
  ivshmem_server_handle_new_conn 0 64 (server_after [Connect])
    (world_after_ops [Connect])
  = Ret (0, server_after [Connect; Connect])
        (world_after_ops [Connect; Connect]) /\
  ivshmem_server_search_peer (server_after [Connect]) 1 = None /\
  ivshmem_server_search_peer (server_after [Connect; Connect]) 1
    = Some (mkPeer 14 1 [15; 16] 2) /\
  exists peer,
    peer_list (server_after [Connect; Connect])
      = peer_list (server_after [Connect]) ++ [peer] /\
    ivshmem_server_search_peer (server_after [Connect; Connect]) (peer_id peer)
      = Some peer /\
    forall u, u <> peer_id peer ->
      ivshmem_server_search_peer (server_after [Connect; Connect]) u
      = ivshmem_server_search_peer (server_after [Connect]) u.
Proof.
  assert (H : ivshmem_server_handle_new_conn 0 64 (server_after [Connect])
                (world_after_ops [Connect])
              = Ret (0, server_after [Connect; Connect])
                    (world_after_ops [Connect; Connect]))
    by (vm_compute; reflexivity).
  split; [exact H |]. split; [vm_compute; reflexivity |].
  split; [vm_compute; reflexivity |].
  exact (search_peer_after_conn 0 64 _ _ _ _ H).
Defined.

(** ** Sizing the shared memory *)

(** X12: for a size from 1 to [2^31] the sizing ends, within 31 turns
    of its loop. It asks the storage for the smallest power of two that
    is not less than the size, then for each double of it; it returns 0
    at the first size the storage takes, and -1 once every size up to
    [2^30] was refused. *)
Theorem sizing_in_range (fuel : nat) (fd shmsize : Z) (w : World) :
  1 <= shmsize <= 2 ^ 31 ->
  (31 <= fuel)%nat ->
  exists (e : nat) r w' evs,
    align_pow2 shmsize = 2 ^ Z.of_nat e /\
    shmsize <= 2 ^ Z.of_nat e /\
    (forall m, 0 <= m -> shmsize <= 2 ^ m -> 2 ^ Z.of_nat e <= 2 ^ m) /\
    ivshmem_server_ftruncate fuel fd shmsize w = Ret r w' /\
    extends w w' evs /\
    map fst evs
      = map (fun j => Ftruncate fd (2 ^ Z.of_nat (e + j)))
            (seq 0 (List.length evs)) /\
    ((r = 0 /\
      exists refused,
        evs = refused
              ++ [(Ftruncate fd (2 ^ Z.of_nat (e + List.length refused)), 0)] /\
        Forall (fun ev => snd ev <> 0) refused)
     \/
     (r = -1 /\ (e + List.length evs = 31)%nat /\
      Forall (fun ev => snd ev <> 0) evs)).
Proof. exact (ftruncate_in_range fuel fd shmsize w). Qed.

Lemma sizing_in_range_witness :
  1 <= 1000000 <= 2 ^ 31 /\ (31 <= 31)%nat /\
  ivshmem_server_ftruncate 31 3 1000000 (world_of (os_huge_pages 2097152))
    = Ret 0 (world_after (ivshmem_server_ftruncate 31 3 1000000
                            (world_of (os_huge_pages 2097152)))) /\
  trace (world_after (ivshmem_server_ftruncate 31 3 1000000
                        (world_of (os_huge_pages 2097152))))
    = [(Ftruncate 3 1048576, -1); (Ftruncate 3 2097152, 0)] /\
  exists (e : nat) r w' evs,
    align_pow2 1000000 = 2 ^ Z.of_nat e /\
    1000000 <= 2 ^ Z.of_nat e /\
    (forall m, 0 <= m -> 1000000 <= 2 ^ m -> 2 ^ Z.of_nat e <= 2 ^ m) /\
    ivshmem_server_ftruncate 31 3 1000000 (world_of (os_huge_pages 2097152))
      = Ret r w' /\
    extends (world_of (os_huge_pages 2097152)) w' evs /\
    map fst evs
      = map (fun j => Ftruncate 3 (2 ^ Z.of_nat (e + j)))
            (seq 0 (List.length evs)) /\
    ((r = 0 /\
      exists refused,
        evs = refused
              ++ [(Ftruncate 3 (2 ^ Z.of_nat (e + List.length refused)), 0)] /\
        Forall (fun ev => snd ev <> 0) refused)
     \/
     (r = -1 /\ (e + List.length evs = 31)%nat /\
      Forall (fun ev => snd ev <> 0) evs)).
Proof.
  assert (R : 1 <= 1000000 <= 2 ^ 31) by lia.
  assert (F : (31 <= 31)%nat) by lia.
  split; [exact R |]. split; [exact F |].
  split; [vm_compute; reflexivity |]. split; [vm_compute; reflexivity |].
  exact (sizing_in_range 31 3 1000000 (world_of (os_huge_pages 2097152)) R F).
Defined.

Lemma ftruncate_loop_log (fuel : nat) :
  forall (fd s : Z) (w : World) (r : Z) (w' : World),
    0 <= s < 2 ^ 32 ->
    ftruncate_loop fuel fd s w = Ret r w' ->
    exists evs,
      extends w w' evs /\
      map fst evs
        = map (fun j => Ftruncate fd (s * 2 ^ Z.of_nat j))
              (seq 0 (List.length evs)) /\
      Forall (fun size => 0 <= size <= IVSHMEM_SERVER_MAX_HUGEPAGE_SIZE)
             (sizes_asked evs) /\
      ((r = 0 /\
        exists refused last,
          evs = refused ++ [(last, 0)] /\
          Forall (fun ev => snd ev <> 0) refused)
       \/
       (r = -1 /\ Forall (fun ev => snd ev <> 0) evs /\
        IVSHMEM_SERVER_MAX_HUGEPAGE_SIZE
          < s * 2 ^ Z.of_nat (List.length evs))).
Proof.
  induction fuel as [| fuel IH]; intros fd s w r w' Hs H;
    rewrite ftruncate_loop_unfold in H;
    destruct (s <=? IVSHMEM_SERVER_MAX_HUGEPAGE_SIZE) eqn:C.
  - discriminate.
  - unfold ret in H. inversion H; subst. exists [].
    split; [apply extends_refl |]. split; [reflexivity |].
    split; [constructor |]. right. split; [reflexivity |].
    split; [constructor |]. simpl. lia.
  - apply Z.leb_le in C. unfold bind at 1 in H.
    destruct (syscall_run (Ftruncate fd s) w) as (r0 & w1 & H1 & X1 & _).
    rewrite H1 in H. destruct (r0 =? 0) eqn:R0.
    + unfold ret in H. inversion H; subst r w1.
      assert (r0 = 0) by lia. subst r0.
      exists [(Ftruncate fd s, 0)]. split; [exact X1 |].
      split; [simpl; now rewrite Z.mul_1_r |].
      split; [simpl; constructor; [lia | constructor] |].
      left. split; [reflexivity |]. exists [], (Ftruncate fd s).
      split; [reflexivity | constructor].
    + assert (Hnext : wrap_unsigned (s * 2) = s * 2).
      { unfold wrap_unsigned. apply Z.mod_small.
        unfold IVSHMEM_SERVER_MAX_HUGEPAGE_SIZE in C. lia. }
      rewrite Hnext in H.
      destruct (IH fd (s * 2) w1 r w') as (evs & X & Hm & Hb & Hr);
        [unfold IVSHMEM_SERVER_MAX_HUGEPAGE_SIZE in C; lia | exact H |].
      exists ((Ftruncate fd s, r0) :: evs).
      split; [exact (extends_trans _ _ _ _ _ X1 X) |]. split.
      { simpl. rewrite Z.mul_1_r. f_equal. rewrite Hm.
        rewrite <- seq_shift, map_map. apply map_ext. intros j.
        f_equal. rewrite Nat2Z.inj_succ, Z.pow_succ_r by lia. lia. }
      split; [simpl; constructor; [lia | exact Hb] |].
      destruct Hr as [(-> & refused & last & -> & Hall)
                     | (-> & Hall & Hover)].
      * left. split; [reflexivity |].
        exists ((Ftruncate fd s, r0) :: refused), last.
        split; [reflexivity |]. constructor; [simpl; lia | exact Hall].
      * right. split; [reflexivity |].
        split; [constructor; [simpl; lia | exact Hall] |].
        simpl List.length. rewrite Nat2Z.inj_succ, Z.pow_succ_r by lia. lia.
  - unfold ret in H. inversion H; subst. exists [].
    split; [apply extends_refl |]. split; [reflexivity |].
    split; [constructor |]. right. split; [reflexivity |].
    split; [constructor |]. simpl. apply Z.leb_gt in C. lia.
Qed.

Lemma align_pow2_range (shmsize : Z) : 0 <= align_pow2 shmsize < 2 ^ 32.
Proof.
  unfold align_pow2, wrap_unsigned. apply Z.mod_pos_bound. reflexivity.
Qed.

(** X13: whatever the size, when [ivshmem_server_ftruncate] ends it has
    only called [ftruncate], on the descriptor it was given, for the
    aligned size, then twice that, and so on, and never for more than
    1 GiB. It returns 0 or -1: 0 when the last call succeeded and was
    the first to do so, -1 when every call was refused and the next
    size would have been above 1 GiB. *)
Theorem sizing_log (fuel : nat) (fd shmsize : Z) (w : World)
    (r : Z) (w' : World) :
  ivshmem_server_ftruncate fuel fd shmsize w = Ret r w' ->
  exists evs,
    extends w w' evs /\
    map fst evs
      = map (fun j => Ftruncate fd (align_pow2 shmsize * 2 ^ Z.of_nat j))
            (seq 0 (List.length evs)) /\
    Forall (fun size => 0 <= size <= IVSHMEM_SERVER_MAX_HUGEPAGE_SIZE)
           (sizes_asked evs) /\
    ((r = 0 /\
      exists refused last,
        evs = refused ++ [(last, 0)] /\
        Forall (fun ev => snd ev <> 0) refused)
     \/
     (r = -1 /\ Forall (fun ev => snd ev <> 0) evs /\
      IVSHMEM_SERVER_MAX_HUGEPAGE_SIZE
        < align_pow2 shmsize * 2 ^ Z.of_nat (List.length evs))).
Proof.
  intros H.
  exact (ftruncate_loop_log fuel fd (align_pow2 shmsize) w r w'
           (align_pow2_range shmsize) H).
Qed.

Lemma sizing_log_witness :
  ivshmem_server_ftruncate 40 3 (2 ^ 29 + 1) (world_of os_no_truncate)
    = Ret (-1) (world_after (sizing os_no_truncate (2 ^ 29 + 1))) /\
  trace (world_after (sizing os_no_truncate (2 ^ 29 + 1)))
    = [(Ftruncate 3 (2 ^ 30), -1)] /\
  exists evs,
    extends (world_of os_no_truncate)
            (world_after (sizing os_no_truncate (2 ^ 29 + 1))) evs /\
    map fst evs
      = map (fun j => Ftruncate 3 (align_pow2 (2 ^ 29 + 1) * 2 ^ Z.of_nat j))
            (seq 0 (List.length evs)) /\
    Forall (fun size => 0 <= size <= IVSHMEM_SERVER_MAX_HUGEPAGE_SIZE)
           (sizes_asked evs) /\
    ((-1 = 0 /\
      exists refused last,
        evs = refused ++ [(last, 0)] /\
        Forall (fun ev => snd ev <> 0) refused)
     \/
     (-1 = -1 /\ Forall (fun ev => snd ev <> 0) evs /\
      IVSHMEM_SERVER_MAX_HUGEPAGE_SIZE
        < align_pow2 (2 ^ 29 + 1) * 2 ^ Z.of_nat (List.length evs))).
Proof.
  assert (H : ivshmem_server_ftruncate 40 3 (2 ^ 29 + 1)
                (world_of os_no_truncate)
              = Ret (-1) (world_after (sizing os_no_truncate (2 ^ 29 + 1))))
    by (vm_compute; reflexivity).
  split; [exact H |]. split; [vm_compute; reflexivity |].
  exact (sizing_log 40 3 (2 ^ 29 + 1) (world_of os_no_truncate) (-1) _ H).
Defined.

(** X14: when the aligned size is 0, as it is for the size 0 and for
    every size above [2^31], doubling leaves it at 0: on a storage that
    refuses the size 0, the loop of [ivshmem_server_ftruncate] does not
    end, however many turns it is given. *)
Theorem sizing_zero_never_ends (fuel : nat) (fd shmsize : Z) (w : World) :
  shmsize = 0 \/ 2 ^ 31 < shmsize < 2 ^ 32 ->
  (forall history, fst (os w history (Ftruncate fd 0)) <> 0) ->
  ivshmem_server_ftruncate fuel fd shmsize w = Unfinished.
Proof.
  intros Hs Hos. unfold ivshmem_server_ftruncate.
  assert (E : align_pow2 shmsize = 0).
  { destruct Hs as [-> | Hs]; [reflexivity | now apply align_pow2_wraps]. }
  rewrite E. now apply ftruncate_zero_never_ends.
Qed.

Lemma sizing_zero_never_ends_witness :
  (3000000000 = 0 \/ 2 ^ 31 < 3000000000 < 2 ^ 32) /\
  (forall history,
     fst (os (world_of os_no_truncate) history (Ftruncate 3 0)) <> 0) /\
  ivshmem_server_ftruncate 1000 3 3000000000 (world_of os_no_truncate)
    = Unfinished.
Proof.
  assert (S : 3000000000 = 0 \/ 2 ^ 31 < 3000000000 < 2 ^ 32) by (right; lia).
  assert (O : forall history,
            fst (os (world_of os_no_truncate) history (Ftruncate 3 0)) <> 0)
    by (intros history; simpl; lia).
  split; [exact S |]. split; [exact O |].
  exact (sizing_zero_never_ends 1000 3 3000000000 (world_of os_no_truncate) S O).
Defined.

(** ** Starting the server *)

Lemma syscall_inv (a : action) (w : World) (r : Z) (w' : World) :
  syscall a w = Ret r w' -> extends w w' [(a, r)].
Proof.
  intros H. destruct (syscall_run a w) as (r0 & w0 & E & X & _).
  rewrite E in H. inversion H; subst. exact X.
Qed.

Lemma opened_app (a b : list event) : opened (a ++ b) = opened a ++ opened b.
Proof. unfold opened. apply flat_map_app. Qed.

Lemma sizes_asked_app (a b : list event) :
  sizes_asked (a ++ b) = sizes_asked a ++ sizes_asked b.
Proof. unfold sizes_asked. apply flat_map_app. Qed.

(** A piece of the log in which a descriptor is sized opens and closes
    nothing. *)
Lemma sizing_events (fd : Z) (f : nat -> Z) (evs : list event) :
  forall l,
    map fst evs = map (fun j => Ftruncate fd (f j)) l ->
    map fst evs = map (Ftruncate fd) (sizes_asked evs) /\
    opened evs = [] /\ closed (map fst evs) = [].
Proof.
  induction evs as [| [a v] t IH]; intros l H.
  - repeat split.
  - destruct l as [| j l]; [discriminate |]. simpl in H.
    inversion H as [[Ha Ht]]. subst a.
    destruct (IH l Ht) as (E1 & E2 & E3).
    change (Ftruncate fd (f j) :: map fst t
            = Ftruncate fd (f j) :: map (Ftruncate fd) (sizes_asked t) /\
            opened t = [] /\ closed (map fst t) = []).
    rewrite <- E1. repeat split; assumption.
Qed.

Ltac start_step H x w1 X :=
  apply bind_inv in H; destruct H as (x & w1 & X & H); cbv beta in H.

(** A step that prints: the log [X] so far is the log after it. *)
Ltac start_quiet H X :=
  let u := fresh "u" in
  let wq := fresh "wq" in
  let D := fresh "D" in
  let Do := fresh "Do" in
  let Dt := fresh "Dt" in
  apply bind_inv in H; destruct H as (u & wq & D & H); cbv beta in H;
  destruct u;
  first [apply debug_inv in D | apply printf_inv in D];
  destruct D as (Do & Dt & _);
  apply (fun X0 => extends_after _ _ _ _ X0 Do Dt) in X.

Ltac start_end H :=
  unfold ret in H; inversion H; subst; clear H.

(** X15: when [ivshmem_server_start] ends it returns 0 or -1. With 0
    it has opened the shared memory, sized it, made the socket, bound
    it to the socket path, which is shorter than 108 characters, and
    put it to listening, in this order; it has closed nothing, and the
    server holds the two descriptors, both non-negative. With -1 the
    server is as before, and every descriptor that was opened has been
    closed, the last opened first. *)
Theorem start_result (fuel : nat) (server : IvshmemServer) (w : World)
    (r : Z) (server' : IvshmemServer) (w' : World) :
  ivshmem_server_start fuel server w = Ret (r, server') w' ->
  exists evs,
    extends w w' evs /\
    ((r = 0 /\
      exists shm sock,
        0 <= shm /\ 0 <= sock /\
        server' = set_fds server sock shm /\
        path_fits UNIX_PATH_MAX (unix_sock_path server) = true /\
        map fst evs
          = ShmOpen (shm_path server)
            :: map (Ftruncate shm) (sizes_asked evs)
            ++ [Socket; Bind sock (unix_sock_path server);
                Listen sock IVSHMEM_SERVER_LISTEN_BACKLOG] /\
        opened evs = [shm; sock])
     \/
     (r = -1 /\ server' = server /\
      closed (map fst evs) = rev (opened evs))).
Proof.
  intros H. unfold ivshmem_server_start in H.
  start_step H shm w1 X1. apply syscall_inv in X1.
  destruct (shm <? 0) eqn:Hshm.
  { start_quiet H X1. start_end H. exists [(ShmOpen (shm_path server'), shm)].
    split; [exact X1 |]. right. split; [reflexivity |].
    split; [reflexivity |]. simpl. now rewrite Hshm. }
  start_step H r1 w2 X2.
  unfold ivshmem_server_ftruncate in X2.
  destruct (ftruncate_loop_log _ _ _ _ _ _ (align_pow2_range _) X2)
    as (e2 & E2 & M2 & _).
  destruct (sizing_events _ _ _ _ M2) as (S2 & O2 & C2). clear M2 X2.
  destruct (r1 <? 0) eqn:Hr1.
  { start_quiet H E2. start_step H r2 w3 X3. apply syscall_inv in X3. start_end H.
    exists ((ShmOpen (shm_path server'), shm) :: e2 ++ [(Close shm, r2)]).
    split; [exact (extends_trans _ _ _ _ _ X1 (extends_trans _ _ _ _ _ E2 X3)) |].
    right. split; [reflexivity |]. split; [reflexivity |].
    simpl. rewrite Hshm, map_app, closed_app, opened_app, O2, C2. reflexivity. }
  start_quiet H E2.
  start_step H sock w3 X3. apply syscall_inv in X3.
  destruct (sock <? 0) eqn:Hsock.
  { start_quiet H X3. start_step H r2 w4 X4. apply syscall_inv in X4. start_end H.
    exists ((ShmOpen (shm_path server'), shm)
             :: e2 ++ [(Socket, sock); (Close shm, r2)]).
    split.
    { apply (extends_trans _ _ _ _ _ X1).
      apply (extends_trans _ _ _ _ _ E2).
      exact (extends_trans _ _ _ _ _ X3 X4). }
    right. split; [reflexivity |]. split; [reflexivity |].
    simpl. rewrite Hshm, map_app, closed_app, opened_app, O2, C2.
    simpl. rewrite Hsock. reflexivity. }
  destruct (negb (path_fits UNIX_PATH_MAX (unix_sock_path server))) eqn:Hpath.
  { start_quiet H X3. start_step H r2 w4 X4. apply syscall_inv in X4.
    start_step H r3 w5 X5. apply syscall_inv in X5. start_end H.
    exists ((ShmOpen (shm_path server'), shm)
             :: e2 ++ [(Socket, sock); (Close sock, r2); (Close shm, r3)]).
    split.
    { apply (extends_trans _ _ _ _ _ X1).
      apply (extends_trans _ _ _ _ _ E2).
      apply (extends_trans _ _ _ _ _ X3).
      exact (extends_trans _ _ _ _ _ X4 X5). }
    right. split; [reflexivity |]. split; [reflexivity |].
    simpl. rewrite Hshm, map_app, closed_app, opened_app, O2, C2.
    simpl. rewrite Hsock. reflexivity. }
  start_step H rb w4 X4. apply syscall_inv in X4.
  destruct (rb <? 0) eqn:Hrb.
  { start_quiet H X4. start_step H r2 w5 X5. apply syscall_inv in X5.
    start_step H r3 w6 X6. apply syscall_inv in X6. start_end H.
    exists ((ShmOpen (shm_path server'), shm)
             :: e2 ++ [(Socket, sock); (Bind sock (unix_sock_path server'), rb);
                       (Close sock, r2); (Close shm, r3)]).
    split.
    { apply (extends_trans _ _ _ _ _ X1).
      apply (extends_trans _ _ _ _ _ E2).
      apply (extends_trans _ _ _ _ _ X3).
      apply (extends_trans _ _ _ _ _ X4).
      exact (extends_trans _ _ _ _ _ X5 X6). }
    right. split; [reflexivity |]. split; [reflexivity |].
    simpl. rewrite Hshm, map_app, closed_app, opened_app, O2, C2.
    simpl. rewrite Hsock. reflexivity. }
  start_step H rl w5 X5. apply syscall_inv in X5.
  destruct (rl <? 0) eqn:Hrl.
  { start_quiet H X5. start_step H r2 w6 X6. apply syscall_inv in X6.
    start_step H r3 w7 X7. apply syscall_inv in X7. start_end H.
    exists ((ShmOpen (shm_path server'), shm)
             :: e2 ++ [(Socket, sock); (Bind sock (unix_sock_path server'), rb);
                       (Listen sock IVSHMEM_SERVER_LISTEN_BACKLOG, rl);
                       (Close sock, r2); (Close shm, r3)]).
    split.
    { apply (extends_trans _ _ _ _ _ X1).
      apply (extends_trans _ _ _ _ _ E2).
      apply (extends_trans _ _ _ _ _ X3).
      apply (extends_trans _ _ _ _ _ X4).
      apply (extends_trans _ _ _ _ _ X5).
      exact (extends_trans _ _ _ _ _ X6 X7). }
    right. split; [reflexivity |]. split; [reflexivity |].
    simpl. rewrite Hshm, map_app, closed_app, opened_app, O2, C2.
    simpl. rewrite Hsock. reflexivity. }
  start_end H.
  exists ((ShmOpen (shm_path server), shm)
           :: e2 ++ [(Socket, sock); (Bind sock (unix_sock_path server), rb);
                     (Listen sock IVSHMEM_SERVER_LISTEN_BACKLOG, rl)]).
  split.
  { apply (extends_trans _ _ _ _ _ X1).
    apply (extends_trans _ _ _ _ _ E2).
    apply (extends_trans _ _ _ _ _ X3).
    exact (extends_trans _ _ _ _ _ X4 X5). }
  left. split; [reflexivity |]. exists shm, sock.
  split; [lia |]. split; [lia |]. split; [reflexivity |].
  split; [now destruct (path_fits UNIX_PATH_MAX (unix_sock_path server)) |].
  split.
  - simpl. rewrite sizes_asked_app, map_app. simpl. rewrite app_nil_r.
    rewrite <- S2. reflexivity.
  - simpl. rewrite Hshm, opened_app, O2. simpl. rewrite Hsock. reflexivity.
Qed.

Lemma start_result_witness :
  ivshmem_server_start 40 server_initial (world_of os_bind_fails)
    = Ret (-1, server_initial)
          (world_after (ivshmem_server_start 40 server_initial
                          (world_of os_bind_fails))) /\
  trace (world_after (ivshmem_server_start 40 server_initial
                        (world_of os_bind_fails)))
    = [(ShmOpen "ivshmem", 5); (Ftruncate 5 1048576, 0); (Socket, 7);
       (Bind 7 "/tmp/ivshmem_socket", -1); (Close 7, 0); (Close 5, 0)] /\
  exists evs,
    extends (world_of os_bind_fails)
            (world_after (ivshmem_server_start 40 server_initial
                            (world_of os_bind_fails))) evs /\
    ((-1 = 0 /\
      exists shm sock,
        0 <= shm /\ 0 <= sock /\
        server_initial = set_fds server_initial sock shm /\
        path_fits UNIX_PATH_MAX (unix_sock_path server_initial) = true /\
        map fst evs
          = ShmOpen (shm_path server_initial)
            :: map (Ftruncate shm) (sizes_asked evs)
            ++ [Socket; Bind sock (unix_sock_path server_initial);
                Listen sock IVSHMEM_SERVER_LISTEN_BACKLOG] /\
        opened evs = [shm; sock])
     \/
     (-1 = -1 /\ server_initial = server_initial /\
      closed (map fst evs) = rev (opened evs))).
Proof.
  assert (H : ivshmem_server_start 40 server_initial (world_of os_bind_fails)
              = Ret (-1, server_initial)
                    (world_after (ivshmem_server_start 40 server_initial
                                    (world_of os_bind_fails))))
    by (vm_compute; reflexivity).
  split; [exact H |]. split; [vm_compute; reflexivity |].
  exact (start_result 40 server_initial (world_of os_bind_fails) (-1)
           server_initial _ H).
Defined.

(** X16: a server whose socket path has 108 characters or more, which
    [ivshmem_server_init] accepts up to the capacity of its buffer, is
    never started: when [ivshmem_server_start] ends it returns -1, it
    has not called [bind] or [listen], and it has closed what it
    opened. *)
Theorem start_long_path (fuel : nat) (server : IvshmemServer) (w : World)
    (r : Z) (server' : IvshmemServer) (w' : World) :
  (UNIX_PATH_MAX <= String.length (unix_sock_path server))%nat ->
  ivshmem_server_start fuel server w = Ret (r, server') w' ->
  r = -1 /\ server' = server /\
  exists evs,
    extends w w' evs /\
    (forall sock path, ~ In (Bind sock path) (map fst evs)) /\
    (forall sock backlog, ~ In (Listen sock backlog) (map fst evs)) /\
    closed (map fst evs) = rev (opened evs).
Proof.
  intros Hlen H.
  assert (Hpath : negb (path_fits UNIX_PATH_MAX (unix_sock_path server)) = true).
  { unfold path_fits. apply negb_true_iff. apply Nat.ltb_ge. exact Hlen. }
  unfold ivshmem_server_start in H. rewrite Hpath in H.
  start_step H shm w1 X1. apply syscall_inv in X1.
  assert (Hnot : forall (e : list event) (tl : list action),
            map fst e = map (Ftruncate shm) (sizes_asked e) ->
            (forall sock path, ~ In (Bind sock path) tl) ->
            (forall sock backlog, ~ In (Listen sock backlog) tl) ->
            (forall sock path, ~ In (Bind sock path) (map fst e ++ tl)) /\
            (forall sock backlog, ~ In (Listen sock backlog) (map fst e ++ tl))).
  { intros e tl E Hb Hl. rewrite E. split; intros sock x Hin;
      apply in_app_or in Hin; destruct Hin as [Hin | Hin];
      try (apply in_map_iff in Hin; destruct Hin as (? & ? & _); discriminate).
    - exact (Hb _ _ Hin).
    - exact (Hl _ _ Hin). }
  destruct (shm <? 0) eqn:Hshm.
  { start_quiet H X1. start_end H. split; [reflexivity |]. split; [reflexivity |].
    exists [(ShmOpen (shm_path server'), shm)]. split; [exact X1 |].
    split; [intros sock path [E | []]; discriminate |].
    split; [intros sock path [E | []]; discriminate |].
    simpl. now rewrite Hshm. }
  start_step H r1 w2 X2.
  unfold ivshmem_server_ftruncate in X2.
  destruct (ftruncate_loop_log _ _ _ _ _ _ (align_pow2_range _) X2)
    as (e2 & E2 & M2 & _).
  destruct (sizing_events _ _ _ _ M2) as (S2 & O2 & C2). clear M2 X2.
  destruct (r1 <? 0) eqn:Hr1.
  { start_quiet H E2. start_step H r2 w3 X3. apply syscall_inv in X3. start_end H.
    split; [reflexivity |]. split; [reflexivity |].
    exists ((ShmOpen (shm_path server'), shm) :: e2 ++ [(Close shm, r2)]).
    split; [exact (extends_trans _ _ _ _ _ X1 (extends_trans _ _ _ _ _ E2 X3)) |].
    destruct (Hnot e2 [Close shm] S2) as [Nb Nl];
      [intros ? ? [E | []]; discriminate
      | intros ? ? [E | []]; discriminate |].
    simpl. rewrite map_app. simpl.
    split; [intros sock path [E | Hin]; [discriminate | exact (Nb _ _ Hin)] |].
    split; [intros sock path [E | Hin]; [discriminate | exact (Nl _ _ Hin)] |].
    rewrite Hshm, closed_app, opened_app, O2, C2. reflexivity. }
  start_quiet H E2.
  start_step H sock w3 X3. apply syscall_inv in X3.
  destruct (sock <? 0) eqn:Hsock.
  { start_quiet H X3. start_step H r2 w4 X4. apply syscall_inv in X4. start_end H.
    split; [reflexivity |]. split; [reflexivity |].
    exists ((ShmOpen (shm_path server'), shm)
             :: e2 ++ [(Socket, sock); (Close shm, r2)]).
    split.
    { apply (extends_trans _ _ _ _ _ X1).
      apply (extends_trans _ _ _ _ _ E2).
      exact (extends_trans _ _ _ _ _ X3 X4). }
    destruct (Hnot e2 [Socket; Close shm] S2) as [Nb Nl];
      [intros ? ? [E | [E | []]]; discriminate
      | intros ? ? [E | [E | []]]; discriminate |].
    simpl. rewrite map_app. simpl.
    split; [intros s path [E | Hin]; [discriminate | exact (Nb _ _ Hin)] |].
    split; [intros s path [E | Hin]; [discriminate | exact (Nl _ _ Hin)] |].
    rewrite Hshm, closed_app, opened_app, O2, C2. simpl.
    rewrite Hsock. reflexivity. }
  start_quiet H X3.
  start_step H r2 w4 X4. apply syscall_inv in X4.
  start_step H r3 w5 X5. apply syscall_inv in X5. start_end H.
  split; [reflexivity |]. split; [reflexivity |].
  exists ((ShmOpen (shm_path server'), shm)
           :: e2 ++ [(Socket, sock); (Close sock, r2); (Close shm, r3)]).
  split.
  { apply (extends_trans _ _ _ _ _ X1).
    apply (extends_trans _ _ _ _ _ E2).
    apply (extends_trans _ _ _ _ _ X3).
    exact (extends_trans _ _ _ _ _ X4 X5). }
  destruct (Hnot e2 [Socket; Close sock; Close shm] S2) as [Nb Nl];
    [intros ? ? [E | [E | [E | []]]]; discriminate
    | intros ? ? [E | [E | [E | []]]]; discriminate |].
  simpl. rewrite map_app. simpl.
  split; [intros s path [E | Hin]; [discriminate | exact (Nb _ _ Hin)] |].
  split; [intros s path [E | Hin]; [discriminate | exact (Nl _ _ Hin)] |].
  rewrite Hshm, closed_app, opened_app, O2, C2. simpl.
  rewrite Hsock. reflexivity.
Qed.

Lemma start_long_path_witness :
  (UNIX_PATH_MAX <= String.length (unix_sock_path server_long_path))%nat /\
  ivshmem_server_start 40 server_long_path (world_of os_ok)
    = Ret (-1, server_long_path)
          (world_after (ivshmem_server_start 40 server_long_path
                          (world_of os_ok))) /\
  trace (world_after (ivshmem_server_start 40 server_long_path
                        (world_of os_ok)))
    = [(ShmOpen "ivshmem", 5); (Ftruncate 5 1048576, 0); (Socket, 7);
       (Close 7, 0); (Close 5, 0)] /\
  -1 = -1 /\ server_long_path = server_long_path /\
  exists evs,
    extends (world_of os_ok)
            (world_after (ivshmem_server_start 40 server_long_path
                            (world_of os_ok))) evs /\
    (forall sock path, ~ In (Bind sock path) (map fst evs)) /\
    (forall sock backlog, ~ In (Listen sock backlog) (map fst evs)) /\
    closed (map fst evs) = rev (opened evs).
Proof.
  assert (L : (UNIX_PATH_MAX
               <= String.length (unix_sock_path server_long_path))%nat)
    by (vm_compute; repeat constructor).
  assert (H : ivshmem_server_start 40 server_long_path (world_of os_ok)
              = Ret (-1, server_long_path)
                    (world_after (ivshmem_server_start 40 server_long_path
                                    (world_of os_ok))))
    by (vm_compute; reflexivity).
  split; [exact L |]. split; [exact H |]. split; [vm_compute; reflexivity |].
  exact (start_long_path 40 server_long_path (world_of os_ok) (-1)
           server_long_path _ L H).
Defined.

(** ** The cycle keeps the registry in order *)

Lemma filter_invariant (f : IvshmemServerPeer -> bool)
    (server : IvshmemServer) :
  invariant server ->
  invariant (set_peer_list server (filter f (peer_list server))).
Proof.
  intros (Hd & Ho & Hv).
  unfold invariant, ids, registry_ok, registry_valid in *. simpl.
  assert (Hall : forall P : IvshmemServerPeer -> Prop,
            Forall P (peer_list server) ->
            Forall P (filter f (peer_list server))).
  { intros P HP. rewrite Forall_forall in *. intros p Hp.
    apply filter_In in Hp. now apply HP. }
  split; [| split; now apply Hall].
  clear Ho Hv Hall. induction (peer_list server) as [| x t IH]; simpl;
    [constructor |].
  inversion Hd as [| ? ? Hx Ht]; subst.
  destruct (f x); simpl; [| now apply IH].
  constructor; [| now apply IH].
  intros Hin. apply Hx. apply in_map_iff in Hin.
  destruct Hin as (q & E & Hq). apply filter_In in Hq.
  rewrite <- E. apply in_map. tauto.
Qed.

Lemma new_conn_outcome_frame (ver : Z) (server : IvshmemServer) (w : World)
    (r : Z) (server' : IvshmemServer) (w' : World) :
  new_conn_outcome ver server w r server' w' ->
  sock_fd server' = sock_fd server /\ shm_fd server' = shm_fd server /\
  (- 2 ^ 63 <= cur_id server < 2 ^ 63 -> - 2 ^ 63 <= cur_id server' < 2 ^ 63).
Proof.
  intros H. destruct H; simpl; repeat split; try tauto;
    intros; apply wrap_long_range.
Qed.

(** X17: from a server that is configured for no more vectors than the
    array of a peer holds and whose registry is in order (pairwise
    different ids, every peer with the server's number of vectors, all
    of them descriptors), with fewer than [2^64] peers, a dispatch
    cycle ends, whatever is ready and whatever the operating system
    answers, and leaves a server whose registry is in order again,
    with the same listening socket, shared memory and number of
    vectors. *)
Theorem cycle_keeps_invariant (ver : Z) (cap : nat) (server : IvshmemServer)
    (fds : Z -> bool) (maxfd : Z) (w : World) :
  invariant server ->
  (n_vectors server <= cap)%nat ->
  - 2 ^ 63 <= cur_id server < 2 ^ 63 ->
  Z.of_nat (List.length (peer_list server)) < 2 ^ 64 ->
  exists r server' w',
    ivshmem_server_handle_fds ver cap server fds maxfd w = Ret (r, server') w' /\
    invariant server' /\
    n_vectors server' = n_vectors server /\
    sock_fd server' = sock_fd server /\
    shm_fd server' = shm_fd server /\
    - 2 ^ 63 <= cur_id server' < 2 ^ 63.
Proof.
  intros Hinv Hcap Hc Hn.
  destruct (handle_fds_total ver server fds maxfd w Hinv Hcap Hc Hn)
    as (r & server' & w' & H).
  exists r, server', w'. split; [exact H |].
  assert (Hsw : forall s w0, invariant s ->
            handle_fds_sweep (peer_list s) s fds maxfd w0 = Ret server' w' ->
            server' = set_peer_list s
                        (filter (fun p => negb (ready fds maxfd p))
                                (peer_list s))).
  { intros s w0 (Hd & Ho & _) E.
    destruct (handle_fds_sweep_run fds maxfd (peer_list s) [] s w0 eq_refl Hd)
      as (w1 & E').
    { unfold registry_ok in Ho. eapply Forall_impl; [| exact Ho].
      intros p [_ L]. exact L. }
    rewrite E' in E. now inversion E. }
  destruct (handle_fds_cases _ _ _ _ _ _ _ _ H)
    as [(Hready & rc & server1 & w1 & Hconn & Hr) | (Hready & -> & Hs)].
  - pose proof (handle_new_conn_result ver cap server w) as R. rewrite Hconn in R.
    destruct (new_conn_outcome_invariant _ _ _ _ _ _ R Hinv) as [Hinv1 Hv1].
    destruct (new_conn_outcome_frame _ _ _ _ _ _ R) as (Hs1 & Hm1 & Hc1).
    destruct Hr as [(-> & -> & -> & _ & Hd) | (-> & _ & Hs)].
    + repeat split; try tauto; try apply Hinv1; apply Hc1; exact Hc.
    + rewrite (Hsw server1 w1 Hinv1 Hs). simpl.
      split; [now apply filter_invariant |].
      split; [exact Hv1 |]. split; [exact Hs1 |]. split; [exact Hm1 |].
      exact (Hc1 Hc).
  - rewrite (Hsw server w Hinv Hs). simpl.
    split; [now apply filter_invariant |]. repeat split; apply Hc.
Qed.

Lemma cycle_keeps_invariant_witness :
  invariant (server_after [Connect; Connect]) /\
  (n_vectors (server_after [Connect; Connect]) <= 64)%nat /\
  - 2 ^ 63 <= cur_id (server_after [Connect; Connect]) < 2 ^ 63 /\
  Z.of_nat (List.length (peer_list (server_after [Connect; Connect]))) < 2 ^ 64 /\
  exists r server' w',
    ivshmem_server_handle_fds 0 64 (server_after [Connect; Connect])
      (fun fd => (fd =? 4) || (fd =? 14)) 17
      (world_after_ops [Connect; Connect]) = Ret (r, server') w' /\
    invariant server' /\
    n_vectors server' = n_vectors (server_after [Connect; Connect]) /\
    sock_fd server' = sock_fd (server_after [Connect; Connect]) /\
    shm_fd server' = shm_fd (server_after [Connect; Connect]) /\
    - 2 ^ 63 <= cur_id server' < 2 ^ 63.
Proof.
  assert (I : invariant (server_after [Connect; Connect])).
  { refine (proj1 (run_invariant 0 (cap := 64) [Connect; Connect]
                     server2 (world_of os_ok) _
                     (world_after_ops [Connect; Connect]) _
                     (fresh_invariant server2 (conj eq_refl eq_refl)))).
    vm_compute. reflexivity. }
  assert (E : cur_id (server_after [Connect; Connect]) = 2)
    by (vm_compute; reflexivity).
  assert (C : - 2 ^ 63 <= cur_id (server_after [Connect; Connect]) < 2 ^ 63)
    by (rewrite E; lia).
  assert (L : List.length (peer_list (server_after [Connect; Connect])) = 2%nat)
    by (vm_compute; reflexivity).
  assert (N : Z.of_nat (List.length (peer_list (server_after [Connect; Connect])))
              < 2 ^ 64) by (rewrite L; simpl; lia).
  assert (V : (n_vectors (server_after [Connect; Connect]) <= 64)%nat)
    by (vm_compute; lia).
  split; [exact I |]. split; [exact V |]. split; [exact C |].
  split; [exact N |].
  exact (cycle_keeps_invariant 0 64 _ (fun fd => (fd =? 4) || (fd =? 14)) 17
           (world_after_ops [Connect; Connect]) I V C N).
Defined.

(** ** A connection that is not accepted *)

(** X18: when [accept4] fails, [ivshmem_server_handle_new_conn] returns
    -1 at once: the call of [accept4] is all that the log has gained,
    and the server is as before, the counter included: no identifier is
    used up. With the debug output off, [errno] is as [accept4] left
    it; with the debug output on, a message is printed before the
    function returns, and [errno] is as [printf] left it. *)
Theorem accept_failure (ver : Z) (cap : nat) (server : IvshmemServer)
    (w : World) (newfd e : Z) :
  os w (trace w) (Accept4 (sock_fd server)) = (newfd, e) ->
  newfd < 0 ->
  exists w',
    ivshmem_server_handle_new_conn ver cap server w = Ret (-1, server) w' /\
    extends w w' [(Accept4 (sock_fd server), newfd)] /\
    errno w'
    = (if verbose server
       then snd (os w (trace w ++ [(Accept4 (sock_fd server), newfd)]) Printf)
       else e).
Proof. exact (accept_failure_run ver cap server w newfd e). Qed.

Lemma accept_failure_witness :
  os (world_after_in os_accept_ebadf [Connect])
     (trace (world_after_in os_accept_ebadf [Connect]))
     (Accept4 (sock_fd server_come_round)) = (-1, 9) /\
  os (world_of os_stdout_closed) (trace (world_of os_stdout_closed))
     (Accept4 (sock_fd server2_verbose)) = (-1, EINTR) /\
  -1 < 0 /\
  (exists w',
     ivshmem_server_handle_new_conn 0 64 server_come_round
       (world_after_in os_accept_ebadf [Connect])
     = Ret (-1, server_come_round) w' /\
     extends (world_after_in os_accept_ebadf [Connect]) w'
             [(Accept4 (sock_fd server_come_round), -1)] /\
     errno w' = 9) /\
  (exists w',
     ivshmem_server_handle_new_conn 0 64 server2_verbose
       (world_of os_stdout_closed)
     = Ret (-1, server2_verbose) w' /\
     extends (world_of os_stdout_closed) w'
             [(Accept4 (sock_fd server2_verbose), -1)] /\
     errno w' = 9).
Proof.
  assert (O : os (world_after_in os_accept_ebadf [Connect])
                 (trace (world_after_in os_accept_ebadf [Connect]))
                 (Accept4 (sock_fd server_come_round)) = (-1, 9))
    by (vm_compute; reflexivity).
  assert (V : os (world_of os_stdout_closed)
                 (trace (world_of os_stdout_closed))
                 (Accept4 (sock_fd server2_verbose)) = (-1, EINTR))
    by reflexivity.
  assert (N : -1 < 0) by lia.
  split; [exact O |]. split; [exact V |]. split; [exact N |]. split.
  - exact (accept_failure 0 64 server_come_round
             (world_after_in os_accept_ebadf [Connect]) (-1) 9 O N).
  - exact (accept_failure 0 64 server2_verbose
             (world_of os_stdout_closed) (-1) EINTR V N).
Defined.

(** ** Every sequence of operations runs to its end *)

(** X19: from a freshly started server that is configured for no more
    vectors than the array of a peer holds, every sequence of fewer
    than [2^64] connections and disconnections runs to its end,
    whatever the operating system answers: each search for an
    identifier ends, no array of vectors is read or written out of
    bounds, and the registry is in order at the end. *)
Theorem run_ends (ver : Z) (cap : nat) (ops : list op)
    (server0 : IvshmemServer) (w0 : World) :
  fresh server0 ->
  (n_vectors server0 <= cap)%nat ->
  Z.of_nat (List.length ops) < 2 ^ 64 ->
  exists server w,
    run ver cap ops server0 w0 = Ret server w /\ invariant server.
Proof.
  intros Hf Hcap Hn. pose proof (fresh_invariant _ Hf) as Hinv.
  destruct (run_total ver ops server0 w0 Hinv Hcap) as (server & w & H).
  - rewrite (proj2 Hf). lia.
  - rewrite (proj1 Hf). simpl. exact Hn.
  - exists server, w. split; [exact H |].
    exact (proj1 (run_invariant _ _ _ _ _ _ H Hinv)).
Qed.

Lemma run_ends_witness :
  fresh server2 /\
  (n_vectors server2 <= 64)%nat /\
  Z.of_nat (List.length scenario) < 2 ^ 64 /\
  exists server w,
    run 0 64 scenario server2 (world_of (os_eventfd_limit 4)) = Ret server w /\
    invariant server.
Proof.
  assert (F : fresh server2) by (split; reflexivity).
  assert (V : (n_vectors server2 <= 64)%nat) by (simpl; lia).
  assert (L : Z.of_nat (List.length scenario) < 2 ^ 64) by (simpl; lia).
  split; [exact F |]. split; [exact V |]. split; [exact L |].
  exact (run_ends 0 64 scenario server2 (world_of (os_eventfd_limit 4)) F V L).
Defined.

(** ** What fails a dispatch cycle *)

Lemma extends_unique (w w' : World) (e1 e2 : list event) :
  extends w w' e1 -> extends w w' e2 -> e1 = e2.
Proof.
  intros [_ H1] [_ H2]. rewrite H1 in H2. now apply app_inv_head in H2.
Qed.

Lemma no_acquire_negative (evs : list event) :
  Forall (fun a => is_acquire a = false) (map fst evs) ->
  existsb (fun e => is_acquire (fst e) && (snd e <? 0)) evs = false.
Proof.
  induction evs as [| [a v] t IH]; simpl; intros H; [reflexivity |].
  inversion H as [| ? ? Ha Ht]; subst. simpl in Ha.
  now rewrite Ha, IH.
Qed.

Lemma eventfds_not_negative (vs : list Z) :
  Forall (fun v => 0 <= v) vs ->
  existsb (fun e => is_acquire (fst e) && (snd e <? 0))
          (map (pair Eventfd) vs) = false.
Proof.
  induction 1 as [| v t Hv _ IH]; simpl; [reflexivity |].
  rewrite IH. destruct (v <? 0) eqn:E; [lia | reflexivity].
Qed.

Lemma filter_sends_none (evs : list event) :
  Forall (fun a => is_send a = false) (map fst evs) ->
  filter (fun e => is_send (fst e)) evs = [].
Proof.
  induction evs as [| [a v] t IH]; simpl; intros H; [reflexivity |].
  inversion H as [| ? ? Ha Ht]; subst. simpl in Ha. now rewrite Ha, IH.
Qed.

Lemma filter_sends_all (evs : list event) :
  Forall (fun a => is_send a = true) (map fst evs) ->
  filter (fun e => is_send (fst e)) evs = evs.
Proof.
  induction evs as [| [a v] t IH]; simpl; intros H; [reflexivity |].
  inversion H as [| ? ? Ha Ht]; subst. simpl in Ha. now rewrite Ha, IH.
Qed.

Lemma positive_not_lost (evs : list event) :
  Forall (fun e => 0 < snd e) evs ->
  existsb (fun e => snd e <=? 0) evs = false.
Proof.
  induction 1 as [| e t He _ IH]; simpl; [reflexivity |].
  rewrite IH. destruct (snd e <=? 0) eqn:E; [lia | reflexivity].
Qed.

(** The sends of the log of a handshake that got as far as the initial
    info are those of the initial info, then those that follow. *)
Lemma handshake_sends (a : event) (vs : list Z) (sent tl : list event) :
  is_send (fst a) = false ->
  Forall (fun x => is_send x = true) (map fst sent) ->
  filter (fun e => is_send (fst e))
         (a :: map (pair Eventfd) vs ++ sent ++ tl)
  = sent ++ filter (fun e => is_send (fst e)) tl.
Proof.
  intros Ha Hs. simpl. rewrite Ha, !filter_app.
  rewrite (filter_sends_none (map _ vs))
    by (rewrite map_fst_eventfds; now apply eventfds_only).
  now rewrite (filter_sends_all sent Hs).
Qed.

(** The log of a handshake tells how it ended. *)
Lemma outcome_refused (ver : Z) (server : IvshmemServer) (w : World)
    (rc : Z) (server1 : IvshmemServer) (w1 : World) :
  new_conn_outcome ver server w rc server1 w1 ->
  registry_ok server ->
  exists evs, extends w w1 evs /\ (rc = -1 <-> refused evs = true).
Proof.
  intros R Hreg.
  destruct R as [ newfd w1 Hneg X _ _
                | newfd unused good bad tl w1 Hnf _ Hg Hb _ X Mt
                | newfd unused vs sent lost n tl w1 Hnf _ Hv Hl Hok Hn Hk Ms X Mt
                | newfd unused vs sent w1 Hnf _ Hv Hl Hok Ms Hlog ].
  - eexists. split; [exact X |]. split; [intros _ | reflexivity].
    unfold refused. simpl. destruct (newfd <? 0) eqn:E; [reflexivity | lia].
  - eexists. split; [exact X |]. split; [intros _ | reflexivity].
    unfold refused. apply orb_true_iff. left. apply existsb_exists.
    exists (Eventfd, bad). split.
    + right. apply in_or_app. left. apply in_map, in_or_app. right. now left.
    + simpl. destruct (bad <? 0) eqn:E; [reflexivity | lia].
  - eexists. split; [exact X |]. split; [intros _ | reflexivity].
    unfold refused. apply orb_true_iff. right.
    assert (Hall : Forall (fun x => is_send x = true)
                          (map fst (sent ++ [(lost, n)])))
      by (rewrite Ms; apply firstn_Forall, initial_info_all_sends).
    rewrite (handshake_sends (Accept4 (sock_fd server), newfd) vs
               (sent ++ [(lost, n)]) tl eq_refl Hall).
    rewrite (filter_sends_none tl) by (rewrite Mt; apply unwinding_silent).
    rewrite app_nil_r, firstn_all2
      by (rewrite length_app; simpl; lia).
    rewrite existsb_app. apply orb_true_iff. right. simpl.
    destruct (n <=? 0) eqn:E; [reflexivity | lia].
  - destruct (Hlog Hreg) as (tl & X & Mt).
    eexists. split; [exact X |]. split; [intros E; discriminate E |].
    intros Href. exfalso. unfold refused in Href.
    assert (Hall : Forall (fun x => is_send x = true) (map fst sent))
      by (rewrite Ms; apply initial_info_all_sends).
    assert (H3 : List.length sent = 3%nat)
      by (rewrite <- (length_map fst), Ms; reflexivity).
    rewrite (handshake_sends (Accept4 (sock_fd server), newfd) vs
               sent tl eq_refl Hall) in Href.
    rewrite firstn_app, H3, Nat.sub_diag, firstn_O, app_nil_r in Href.
    rewrite <- H3, firstn_all, (positive_not_lost sent Hok) in Href.
    rewrite orb_false_r in Href.
    change ((Accept4 (sock_fd server), newfd)
            :: map (pair Eventfd) vs ++ sent ++ tl)
      with ([(Accept4 (sock_fd server), newfd)]
            ++ map (pair Eventfd) vs ++ sent ++ tl) in Href.
    rewrite !existsb_app, (eventfds_not_negative vs Hv) in Href.
    rewrite (no_acquire_negative sent) in Href
      by (now apply sends_not_acquire).
    rewrite (no_acquire_negative tl) in Href.
    2: { rewrite Mt. apply Forall_app. split.
         - apply sends_not_acquire, advertisements_all_sends.
         - repeat constructor. }
    simpl in Href. destruct (newfd <? 0) eqn:E; [lia | discriminate Href].
Qed.

(** X20: a dispatch cycle returns 0 or -1. It returns -1 exactly when
    the listening socket is ready, handling the new connection returns
    -1, and [errno] is not [EINTR] when it returns; the server is then
    as that handling left it, and so is the world but for what the
    debug output does to [errno]. With a registry in order, handling a
    connection returns -1 exactly when [accept4] or an [eventfd]
    returns a negative value or the [sendmsg] of one of the first three
    messages returns no positive count: what the later sends, to the
    peers already registered and to the new one, return decides
    nothing. A handling that fails has sent nothing but a part of the
    initial info. An [accept4] that fails with [EINTR] does not fail
    the cycle when the debug output is off, or leaves [errno] alone. *)
Theorem dispatch_cycle_result (ver : Z) (cap : nat) (server : IvshmemServer)
    (fds : Z -> bool) (maxfd : Z) (w : World)
    (r : Z) (server' : IvshmemServer) (w' : World) :
  ivshmem_server_handle_fds ver cap server fds maxfd w = Ret (r, server') w' ->
  (r = 0 \/ r = -1) /\
  (r = -1 <->
   (sock_fd server <? maxfd) && fds (sock_fd server) = true /\
   exists server1 w1,
     ivshmem_server_handle_new_conn ver cap server w = Ret (-1, server1) w1 /\
     errno w1 <> EINTR) /\
  (r = -1 ->
   exists w1,
     ivshmem_server_handle_new_conn ver cap server w = Ret (-1, server') w1 /\
     IVSHMEM_SERVER_DEBUG server' w1 = Ret tt w') /\
  (forall newfd,
     os w (trace w) (Accept4 (sock_fd server)) = (newfd, EINTR) ->
     newfd < 0 ->
     verbose server = false \/
     snd (os w (trace w ++ [(Accept4 (sock_fd server), newfd)]) Printf)
     = EINTR ->
     r = 0) /\
  (forall rc server1 w1,
     ivshmem_server_handle_new_conn ver cap server w = Ret (rc, server1) w1 ->
     (rc = 0 \/ rc = -1) /\
     (registry_ok server ->
      exists evs,
        extends w w1 evs /\
        (rc = -1 <-> refused evs = true) /\
        (rc = -1 ->
         exists peer k,
           sends (map fst evs) = firstn k (initial_info ver server peer)))).
Proof.
  intros H.
  assert (Hconn : forall rc server1 w1,
     ivshmem_server_handle_new_conn ver cap server w = Ret (rc, server1) w1 ->
     (rc = 0 \/ rc = -1) /\
     (registry_ok server ->
      exists evs,
        extends w w1 evs /\
        (rc = -1 <-> refused evs = true) /\
        (rc = -1 ->
         exists peer k,
           sends (map fst evs) = firstn k (initial_info ver server peer)))).
  { intros rc server1 w1 Hc.
    split; [exact (proj1 (handle_new_conn_status _ _ _ _ _ _ Hc)) |].
    intros Hreg.
    pose proof (handle_new_conn_result ver cap server w) as R. rewrite Hc in R.
    destruct (outcome_refused _ _ _ _ _ _ R Hreg) as (evs & X & Href).
    exists evs. split; [exact X |]. split; [exact Href |].
    intros ->. destruct (failed_conn_sends _ _ _ _ _ Hc)
      as (evs' & peer & k & X' & Hs).
    rewrite (extends_unique _ _ _ _ X X'). now exists peer, k. }
  destruct (handle_fds_cases _ _ _ _ _ _ _ _ H)
    as [(Hready & rc & server1 & w1 & Hc & Hr) | (Hready & -> & _)].
  2: { split; [now left |].
       split; [split; [lia | intros [E _]; congruence] |].
       split; [lia |]. split; [reflexivity | exact Hconn]. }
  destruct Hr as [(-> & -> & Es & He & D) | (-> & Hwhy & _)].
  - subst server1. split; [now right |]. split.
    { split; [| reflexivity]. intros _. split; [exact Hready |].
      now exists server', w1. }
    split; [intros _; now exists w1 |]. split; [| exact Hconn].
    intros newfd Hos Hn Hq. exfalso. apply He.
    destruct (accept_failure_run ver cap server w newfd EINTR Hos Hn)
      as (w2 & E & _ & Herr).
    rewrite E in Hc. inversion Hc; subst w2. rewrite Herr.
    destruct Hq as [-> | Hq]; [reflexivity |].
    now destruct (verbose server).
  - split; [now left |]. split.
    { split; [lia |]. intros (_ & s & w2 & E & Hne).
      rewrite E in Hc. inversion Hc; subst. destruct Hwhy; [lia | contradiction]. }
    split; [lia |]. split; [reflexivity | exact Hconn].
Qed.

Lemma dispatch_cycle_result_witness :
  first_cycle (os_eventfd_limit 1)
    = Ret (-1, set_cur_id server2 1)
          (world_after (first_cycle (os_eventfd_limit 1))) /\
  map fst (trace (world_after (first_cycle (os_eventfd_limit 1))))
    = [Accept4 4; Eventfd; Eventfd; Close 6; Close 5;
       GFree (mkPeer 5 0 [6; -1] 2)] /\
  first_cycle (os_refuse_payload 0)
    = Ret (-1, set_cur_id server2 1)
          (world_after (first_cycle (os_refuse_payload 0))) /\
  sends (map fst (trace (world_after (first_cycle (os_refuse_payload 0)))))
    = [Sendmsg 5 0 None] /\
  first_cycle os_accept_ebadf
    = Ret (-1, server2) (world_after (first_cycle os_accept_ebadf)) /\
  first_cycle os_accept_eintr
    = Ret (0, server2) (world_after (first_cycle os_accept_eintr)) /\
  ivshmem_server_handle_fds 0 64
    (server_after_in (os_refuse_to 5 1) [Connect]) (fun fd => fd =? 4) 5
    (world_after_in (os_refuse_to 5 1) [Connect])
    = Ret (0, server_after_in (os_refuse_to 5 1) [Connect; Connect])
          (world_after_in (os_refuse_to 5 1) [Connect; Connect]) /\
  (exists w1,
     first_conn (os_eventfd_limit 1) = Ret (-1, set_cur_id server2 1) w1 /\
     IVSHMEM_SERVER_DEBUG (set_cur_id server2 1) w1
     = Ret tt (world_after (first_cycle (os_eventfd_limit 1)))) /\
  (exists w1,
     first_conn (os_refuse_payload 0) = Ret (-1, set_cur_id server2 1) w1 /\
     IVSHMEM_SERVER_DEBUG (set_cur_id server2 1) w1
     = Ret tt (world_after (first_cycle (os_refuse_payload 0)))).
Proof.
  assert (H1 : first_cycle (os_eventfd_limit 1)
               = Ret (-1, set_cur_id server2 1)
                     (world_after (first_cycle (os_eventfd_limit 1))))
    by (vm_compute; reflexivity).
  assert (H2 : first_cycle (os_refuse_payload 0)
               = Ret (-1, set_cur_id server2 1)
                     (world_after (first_cycle (os_refuse_payload 0))))
    by (vm_compute; reflexivity).
  split; [exact H1 |]. split; [vm_compute; reflexivity |].
  split; [exact H2 |]. split; [vm_compute; reflexivity |].
  split; [vm_compute; reflexivity |]. split; [vm_compute; reflexivity |].
  split; [vm_compute; reflexivity |]. split.
  - exact (proj1 (proj2 (proj2
             (dispatch_cycle_result 0 64 server2 _ 5
                (world_of (os_eventfd_limit 1)) _ _ _ H1))) eq_refl).
  - exact (proj1 (proj2 (proj2
             (dispatch_cycle_result 0 64 server2 _ 5
                (world_of (os_refuse_payload 0)) _ _ _ H2))) eq_refl).
Defined.
